(** * The ACME client core of lets-encrypt-preview

    A shallow embedding of [letsencrypt/auth_handler.py] (path planner and
    authorization handler), [letsencrypt/account.py] (account store) and
    [letsencrypt/client.py] ([Client.obtain_certificate]), with the
    properties the specification states about them. *)

From Stdlib Require Import ZArith String List Lia Bool Ascii.
From stdpp Require Import gmap strings list fin_maps.

Local Open Scope Z_scope.

(** ** Exceptions and results *)

(** The exception classes the modelled code raises or lets through.
    [AuthorizationError] stands for the class and its subclasses, which is
    what [except errors.AuthorizationError] matches. *)
Inductive exn : Type :=
| AuthorizationError (msg : string)
| LetsEncryptClientError (msg : string)
| LetsEncryptMisconfigurationError (msg : string)
| AssertionError
| IndexError
| KeyError
| ValueError
| IOError.

Inductive res (A : Type) : Type :=
| Ret (a : A)
| Raise (e : exn).
Arguments Ret {A} a.
Arguments Raise {A} e.

Definition is_AuthorizationError (e : exn) : bool :=
  match e with AuthorizationError _ => true | _ => false end.

(** ** Message schema (the part the handler reads) *)

Inductive Status : Type :=
| STATUS_UNKNOWN | STATUS_PENDING | STATUS_PROCESSING
| STATUS_VALID | STATUS_INVALID | STATUS_REVOKED.

(** Modelled from the spec: [acme/challenges.py] is not among the sources;
    section 3 of the specification gives the six challenge variants and
    the two capability families they partition into. *)
Inductive variant : Type :=
| DVSNI | SimpleHTTP | DNS
| RecoveryToken | RecoveryContact | ProofOfPossession.

(** The classes a preference list or an exclusive group may name: a
    concrete variant, one of the two family bases, or the root. *)
Inductive chall_class : Type :=
| Challenge_base
| ContinuityChallenge
| DVChallenge
| Concrete (v : variant).

Definition is_dv (v : variant) : bool :=
  match v with
  | DVSNI | SimpleHTTP | DNS => true
  | _ => false
  end.

(** A challenge object: its concrete class and its payload. *)
Record Challenge : Type := mkChallenge {
  typ : variant;
  token : string
}.

Definition class_of (c : Challenge) : chall_class := Concrete (typ c).

#[global] Instance Status_eq_dec : EqDecision Status.
Proof. solve_decision. Defined.
#[global] Instance variant_eq_dec : EqDecision variant.
Proof. solve_decision. Defined.
#[global] Instance chall_class_eq_dec : EqDecision chall_class.
Proof. solve_decision. Defined.
#[global] Instance Challenge_eq_dec : EqDecision Challenge.
Proof. solve_decision. Defined.

(** [isinstance(obj, cls)] *)
Definition isinstance (c : Challenge) (k : chall_class) : bool :=
  match k with
  | Challenge_base => true
  | DVChallenge => is_dv (typ c)
  | ContinuityChallenge => negb (is_dv (typ c))
  | Concrete v => bool_decide (typ c = v)
  end.

Definition chall_class_code (k : chall_class) : nat :=
  match k with
  | Challenge_base => 0
  | ContinuityChallenge => 1
  | DVChallenge => 2
  | Concrete DVSNI => 3
  | Concrete SimpleHTTP => 4
  | Concrete DNS => 5
  | Concrete RecoveryToken => 6
  | Concrete RecoveryContact => 7
  | Concrete ProofOfPossession => 8
  end%nat.

Definition chall_class_of_code (n : nat) : option chall_class :=
  match n with
  | 0 => Some Challenge_base
  | 1 => Some ContinuityChallenge
  | 2 => Some DVChallenge
  | 3 => Some (Concrete DVSNI)
  | 4 => Some (Concrete SimpleHTTP)
  | 5 => Some (Concrete DNS)
  | 6 => Some (Concrete RecoveryToken)
  | 7 => Some (Concrete RecoveryContact)
  | 8 => Some (Concrete ProofOfPossession)
  | _ => None
  end%nat.

#[global] Instance chall_class_countable : Countable chall_class.
Proof.
  apply (inj_countable chall_class_code chall_class_of_code).
  intros [| | |[]]; reflexivity.
Defined.

Record ChallengeBody : Type := mkChallengeBody {
  chall : Challenge;
  cb_uri : string;
  cb_status : Status
}.

Record Authorization : Type := mkAuthorization {
  identifier : string;
  challenges : list ChallengeBody;
  combinations : list (list Z);
  status : Status
}.

Record AuthorizationResource : Type := mkAuthorizationResource {
  body : Authorization;
  uri : string;
  new_cert_uri : string
}.

#[global] Instance ChallengeBody_eq_dec : EqDecision ChallengeBody.
Proof. solve_decision. Defined.
#[global] Instance Authorization_eq_dec : EqDecision Authorization.
Proof. solve_decision. Defined.
#[global] Instance AuthorizationResource_eq_dec : EqDecision AuthorizationResource.
Proof. solve_decision. Defined.

(** ** Python sequence primitives *)

(** [l[i]] for a Python integer [i]: negative indices count from the end,
    anything outside [-len l <= i < len l] is an [IndexError] ([None]). *)
Definition py_index {A : Type} (l : list A) (i : Z) : option A :=
  if 0 <=? i then l !! Z.to_nat i
  else if - Z.of_nat (length l) <=? i then l !! Z.to_nat (Z.of_nat (length l) + i)
  else None.

(** [l.remove(x)]: drops the first element equal to [x]; [None] is the
    [ValueError] of an absent element. *)
Fixpoint list_remove {A : Type} `{EqDecision A} (x : A) (l : list A) : option (list A) :=
  match l with
  | [] => None
  | y :: l' => if decide (x = y) then Some l'
               else match list_remove x l' with
                    | Some r => Some (y :: r)
                    | None => None
                    end
  end.

(** ** Path planner *)

Module Planner.

(** The ranking loop of [_find_smart_path]:
    [for i, chall_cls in enumerate(preferences)]. *)
Fixpoint rank_loop (i : Z) (preferences : list chall_class)
    (chall_cost : gmap chall_class Z) (max_cost : Z) : gmap chall_class Z * Z :=
  match preferences with
  | [] => (chall_cost, max_cost)
  | chall_cls :: rest =>
      rank_loop (i + 1) rest (<[chall_cls := i]> chall_cost) (max_cost + i)
  end.

(** [for challenge_index in combo: combo_total += chall_cost.get(...)] *)
Fixpoint combo_loop (challbs : list ChallengeBody)
    (chall_cost : gmap chall_class Z) (max_cost : Z)
    (combo : list Z) (combo_total : Z) : res Z :=
  match combo with
  | [] => Ret combo_total
  | challenge_index :: rest =>
      match py_index challbs challenge_index with
      | None => Raise IndexError
      | Some cb =>
          combo_loop challbs chall_cost max_cost rest
            (combo_total + default max_cost (chall_cost !! class_of (chall cb)))
      end
  end.

(** [for combo in combinations: ...], threading [best_combo] and
    [best_combo_cost]. *)
Fixpoint combinations_loop (challbs : list ChallengeBody)
    (chall_cost : gmap chall_class Z) (max_cost : Z)
    (combos : list (list Z)) (best_combo : list Z) (best_combo_cost : Z)
    : res (list Z * Z) :=
  match combos with
  | [] => Ret (best_combo, best_combo_cost)
  | combo :: rest =>
      match combo_loop challbs chall_cost max_cost combo 0 with
      | Raise e => Raise e
      | Ret combo_total =>
          if combo_total <? best_combo_cost
          then combinations_loop challbs chall_cost max_cost rest combo combo_total
          else combinations_loop challbs chall_cost max_cost rest best_combo best_combo_cost
      end
  end.

Definition no_combination_msg : string :=
  "Client does not support any combination of challenges that will satisfy the CA.".

Definition _find_smart_path (challbs : list ChallengeBody)
    (preferences : list chall_class) (combos : list (list Z)) : res (list Z) :=
  let '(chall_cost, max_cost) := rank_loop 0 preferences ∅ 1 in
  match combinations_loop challbs chall_cost max_cost combos [] max_cost with
  | Raise e => Raise e
  | Ret (best_combo, _) =>
      match best_combo with
      | [] => Raise (AuthorizationError no_combination_msg)
      | _ :: _ => Ret best_combo
      end
  end.

(** The inner loop of [mutually_exclusive] over one group; [true] means
    the early [return False] fired. *)
Fixpoint group_loop (obj1 obj2 : Challenge) (different : bool)
    (group : list chall_class) (obj1_present obj2_present : bool) : bool :=
  match group with
  | [] => false
  | obj_cls :: rest =>
      let obj1_present := obj1_present || isinstance obj1 obj_cls in
      let obj2_present := obj2_present || isinstance obj2 obj_cls in
      if obj1_present && obj2_present &&
         (negb different || negb (isinstance obj1 (class_of obj2)))
      then true
      else group_loop obj1 obj2 different rest obj1_present obj2_present
  end.

Fixpoint mutually_exclusive (obj1 obj2 : Challenge)
    (groups : list (list chall_class)) (different : bool) : bool :=
  match groups with
  | [] => true
  | group :: rest =>
      if group_loop obj1 obj2 different group false false then false
      else mutually_exclusive obj1 obj2 rest different
  end.

(** [satisfied] is a Python set of challenge bodies; a list without
    repetition stands for it. *)
Definition set_add (x : ChallengeBody) (s : list ChallengeBody) : list ChallengeBody :=
  if decide (x ∈ s) then s else s ++ [x].

Fixpoint is_preferred (offered_challb : ChallengeBody)
    (satisfied : list ChallengeBody) (exclusive_groups : list (list chall_class)) : bool :=
  match satisfied with
  | [] => true
  | challb :: rest =>
      if negb (mutually_exclusive (chall offered_challb) (chall challb)
                 exclusive_groups true)
      then false
      else is_preferred offered_challb rest exclusive_groups
  end.

(** [for i, offered_challb in enumerate(challbs)] for one preference. *)
Fixpoint offered_loop (exclusive_groups : list (list chall_class))
    (pref_c : chall_class) (i : nat) (challbs : list ChallengeBody)
    (path : list nat) (satisfied : list ChallengeBody)
    : list nat * list ChallengeBody :=
  match challbs with
  | [] => (path, satisfied)
  | offered_challb :: rest =>
      if isinstance (chall offered_challb) pref_c &&
         is_preferred offered_challb satisfied exclusive_groups
      then offered_loop exclusive_groups pref_c (S i) rest
             (path ++ [i]) (set_add offered_challb satisfied)
      else offered_loop exclusive_groups pref_c (S i) rest path satisfied
  end.

Fixpoint preferences_loop (exclusive_groups : list (list chall_class))
    (preferences : list chall_class) (challbs : list ChallengeBody)
    (path : list nat) (satisfied : list ChallengeBody)
    : list nat * list ChallengeBody :=
  match preferences with
  | [] => (path, satisfied)
  | pref_c :: rest =>
      let '(path, satisfied) :=
        offered_loop exclusive_groups pref_c 0 challbs path satisfied in
      preferences_loop exclusive_groups rest challbs path satisfied
  end.

(** [assert len(preferences) == len(set(preferences))] *)
Definition _find_dumb_path (exclusive_groups : list (list chall_class))
    (challbs : list ChallengeBody) (preferences : list chall_class) : res (list nat) :=
  if bool_decide (NoDup preferences)
  then Ret (fst (preferences_loop exclusive_groups preferences challbs [] []))
  else Raise AssertionError.

Definition gen_challenge_path (exclusive_groups : list (list chall_class))
    (challbs : list ChallengeBody) (preferences : list chall_class)
    (combos : list (list Z)) : res (list Z) :=
  match combos with
  | _ :: _ => _find_smart_path challbs preferences combos
  | [] =>
      match _find_dumb_path exclusive_groups challbs preferences with
      | Ret path => Ret (Z.of_nat <$> path)
      | Raise e => Raise e
      end
  end.

End Planner.

(** ** Accounts and annotated challenges (data) *)

(** [le_util.Key]: the named tuple [(file, pem)]. *)
Record Key : Type := mkKey {
  file : string;
  pem : string
}.

(** Modelled from the spec: [acme/messages.py] is not among the sources;
    section 3 gives [Registration] and [RegistrationResource]. *)
Record Registration : Type := mkRegistration {
  reg_key : string;
  contact : list string;
  recovery_token : option string;
  agreement : option string
}.

Record RegistrationResource : Type := mkRegistrationResource {
  regr_body : Registration;
  regr_uri : string;
  regr_new_authzr_uri : string;
  regr_terms_of_service : option string
}.

Record Account : Type := mkAccount {
  key : Key;
  email : option string;
  phone : option string;
  regr : option RegistrationResource
}.

(** The [new_authzr_uri] property of [Account]. *)
Definition new_authzr_uri (acc : Account) : option string :=
  match regr acc with
  | Some r => Some (regr_new_authzr_uri r)
  | None => None
  end.

Definition terms_of_service (acc : Account) : option string :=
  match regr acc with
  | Some r => regr_terms_of_service r
  | None => None
  end.

Record AnnotatedChallenge : Type := mkAnnotatedChallenge {
  challb : ChallengeBody;
  domain : string;
  achall_key : option Key
}.

#[global] Instance Key_eq_dec : EqDecision Key.
Proof. solve_decision. Defined.
#[global] Instance AnnotatedChallenge_eq_dec : EqDecision AnnotatedChallenge.
Proof. solve_decision. Defined.

(** [achall.chall] proxies [achall.challb.chall]. *)
Definition achall_chall (a : AnnotatedChallenge) : Challenge := chall (challb a).

(** The closed variant type leaves the final [else: raise] of the source
    without an input. *)
Definition challb_to_achall (cb : ChallengeBody) (k : Key) (dom : string)
    : AnnotatedChallenge :=
  match typ (chall cb) with
  | DVSNI => mkAnnotatedChallenge cb dom (Some k)
  | SimpleHTTP => mkAnnotatedChallenge cb dom (Some k)
  | DNS => mkAnnotatedChallenge cb dom None
  | RecoveryToken => mkAnnotatedChallenge cb dom None
  | RecoveryContact => mkAnnotatedChallenge cb dom None
  | ProofOfPossession => mkAnnotatedChallenge cb dom None
  end.

(** ** The world outside the handler *)

(** What the handler and the client do to the outside, newest first. *)
Inductive Event : Type :=
| EvRequestDomainChallenges (dom : string) (authz_uri : option string)
| EvAnswerChallenge (cb : ChallengeBody) (resp : string)
| EvPoll (a : AuthorizationResource)
| EvSleep (secs : Z)
| EvContPerform (achalls : list AnnotatedChallenge)
| EvDvPerform (achalls : list AnnotatedChallenge)
| EvContCleanup (achalls : list AnnotatedChallenge)
| EvDvCleanup (achalls : list AnnotatedChallenge)
| EvInitSaveKey
| EvInitSaveCsr (cert_key : Key) (domains : list string)
| EvRequestIssuance (csr_data : string) (authzrs : list AuthorizationResource)
| EvFetchChain (cert_chain_uri : string).

(** The network port, the two authenticators and the configured constant,
    each answer a function of the history so far. A response [None] is a
    falsy one. *)
Record World : Type := mkWorld {
  request_domain_challenges :
    list Event -> string -> option string -> AuthorizationResource;
  poll : list Event -> AuthorizationResource -> AuthorizationResource;
  cont_get_chall_pref : string -> list chall_class;
  dv_get_chall_pref : string -> list chall_class;
  cont_perform : list Event -> list AnnotatedChallenge -> res (list (option string));
  dv_perform : list Event -> list AnnotatedChallenge -> res (list (option string));
  EXCLUSIVE_CHALLENGES : list (list chall_class)
}.

(** ** The handler's state and its monad *)

Record AuthHandler : Type := mkAuthHandler {
  authzr : gmap string AuthorizationResource;
  dv_c : list AnnotatedChallenge;
  cont_c : list AnnotatedChallenge;
  trace : list Event
}.

(** [AuthHandler.__init__] *)
Definition init_handler (tr : list Event) : AuthHandler :=
  mkAuthHandler ∅ [] [] tr.

(** A computation on the handler: [None] when the loop budget ran out,
    otherwise the value or the exception, and the state reached. *)
Definition M (A : Type) : Type := AuthHandler -> option (res A * AuthHandler).

Definition ret {A : Type} (a : A) : M A := fun s => Some (Ret a, s).
Definition raise {A : Type} (e : exn) : M A := fun s => Some (Raise e, s).
Definition bind {A B : Type} (m : M A) (k : A -> M B) : M B :=
  fun s =>
    match m s with
    | None => None
    | Some (Ret a, s') => k a s'
    | Some (Raise e, s') => Some (Raise e, s')
    end.
Definition lift {A : Type} (r : res A) : M A := fun s => Some (r, s).
Definition get_state : M AuthHandler := fun s => Some (Ret s, s).

Notation "'let!' x ':=' c1 'in' c2" := (bind c1 (fun x => c2))
  (at level 10, x name, c1 at level 100, c2 at level 200).
Notation "'let!' ' p ':=' c1 'in' c2" := (bind c1 (fun x => match x with p => c2 end))
  (at level 10, p pattern, c1 at level 100, c2 at level 200).

Definition emit (e : Event) : M unit :=
  fun s => Some (Ret tt, mkAuthHandler (authzr s) (dv_c s) (cont_c s) (e :: trace s)).

(** [self.authzr[domain]] and [self.authzr[domain] = a] *)
Definition get_authzr (dom : string) : M AuthorizationResource :=
  fun s =>
    match authzr s !! dom with
    | Some a => Some (Ret a, s)
    | None => Some (Raise KeyError, s)
    end.
Definition set_authzr (dom : string) (a : AuthorizationResource) : M unit :=
  fun s => Some (Ret tt, mkAuthHandler (<[dom := a]> (authzr s)) (dv_c s) (cont_c s) (trace s)).
Definition set_dv_c (l : list AnnotatedChallenge) : M unit :=
  fun s => Some (Ret tt, mkAuthHandler (authzr s) l (cont_c s) (trace s)).
Definition set_cont_c (l : list AnnotatedChallenge) : M unit :=
  fun s => Some (Ret tt, mkAuthHandler (authzr s) (dv_c s) l (trace s)).

(** [try: body  except errors.AuthorizationError: handler] *)
Definition try_except_AuthorizationError {A : Type} (body : M A) (handler : exn -> M A) : M A :=
  fun s =>
    match body s with
    | Some (Raise e, s') =>
        if is_AuthorizationError e then handler e s' else Some (Raise e, s')
    | r => r
    end.

(** [try: body  finally: fin] *)
Definition try_finally {A : Type} (body : M A) (fin : M unit) : M A :=
  fun s =>
    match body s with
    | None => None
    | Some (r, s') =>
        match fin s' with
        | None => None
        | Some (Ret _, s'') => Some (r, s'')
        | Some (Raise e, s'') => Some (Raise e, s'')
        end
    end.

Fixpoint for_each {A : Type} (l : list A) (body : A -> M unit) : M unit :=
  match l with
  | [] => ret tt
  | x :: l' => let! _ := body x in for_each l' body
  end.

(** ** The authorization handler *)

Module Handler.

Definition default_min_sleep : Z := 3.
Definition default_max_rounds : Z := 15.

Definition incomplete_msg : string := "Incomplete authorizations".
Definition target_not_found_msg : string :=
  "Target challenge not found in authorization resource".
Definition failed_procedure_msg (dom : string) : string :=
  String.append "Failed Authorization procedure for " dom.

(** [time.sleep(secs)]: the call is made and, for a negative length,
    refused. Python 2, which the code is written for ([izip], [xrange]),
    raises [IOError] there, and Python 3 [ValueError]. *)
Definition sleep_error : exn := IOError.

Definition sleep (secs : Z) : M unit :=
  let! _ := emit (EvSleep secs) in
  if secs <? 0 then raise sleep_error else ret tt.

(** [for achall in l: l.remove(achall)] on one and the same list object:
    the iterator keeps a position [i] into the list that shrinks under it.
    Every round drops an element, so [length l] rounds are the most there
    can be. *)
Fixpoint remove_while_iterating {A : Type} `{EqDecision A}
    (rounds : nat) (i : nat) (l : list A) : res (list A) :=
  match rounds with
  | O => Ret l
  | S rounds' =>
      match l !! i with
      | None => Ret l
      | Some x =>
          match list_remove x l with
          | None => Raise ValueError
          | Some l' => remove_while_iterating rounds' (S i) l'
          end
      end
  end.

(** [for achall in todo: l.remove(achall)] with [todo] a list of its own. *)
Fixpoint remove_each {A : Type} `{EqDecision A} (todo : list A) (l : list A)
    : res (list A) :=
  match todo with
  | [] => Ret l
  | x :: todo' =>
      match list_remove x l with
      | None => Raise ValueError
      | Some l' => remove_each todo' l'
      end
  end.

(** [_get_chall_status]: the status of the first challenge of the
    authorization whose class is the class of the annotated challenge. *)
Fixpoint chall_status_loop (cbs : list ChallengeBody) (achall : AnnotatedChallenge)
    : res Status :=
  match cbs with
  | [] => Raise (AuthorizationError target_not_found_msg)
  | authzr_challb :: rest =>
      if bool_decide (class_of (chall authzr_challb) = class_of (achall_chall achall))
      then Ret (cb_status authzr_challb)
      else chall_status_loop rest achall
  end.

Definition _get_chall_status (a : AuthorizationResource) (achall : AnnotatedChallenge)
    : res Status :=
  chall_status_loop (challenges (body a)) achall.

(** The [for achall in achalls] loop of [_handle_check]. *)
Fixpoint status_loop (a : AuthorizationResource) (achalls : list AnnotatedChallenge)
    (completed failed : list AnnotatedChallenge)
    : res (list AnnotatedChallenge * list AnnotatedChallenge) :=
  match achalls with
  | [] => Ret (completed, failed)
  | achall :: rest =>
      match _get_chall_status a achall with
      | Raise e => Raise e
      | Ret STATUS_VALID => status_loop a rest (completed ++ [achall]) failed
      | Ret STATUS_INVALID => status_loop a rest completed (failed ++ [achall])
      | Ret _ => status_loop a rest completed failed
      end
  end.

(** The loop of [_challenge_factory] over the indices of the path;
    [self.authzr[domain]] is read anew for every index, so a path
    without index never looks the domain up. *)
Fixpoint factory_loop (az : gmap string AuthorizationResource) (k : Key) (dom : string)
    (path : list Z) (dv_chall cont_chall : list AnnotatedChallenge)
    : res (list AnnotatedChallenge * list AnnotatedChallenge) :=
  match path with
  | [] => Ret (cont_chall, dv_chall)
  | index :: rest =>
      match az !! dom with
      | None => Raise KeyError
      | Some a =>
          match py_index (challenges (body a)) index with
          | None => Raise IndexError
          | Some cb =>
              let achall := challb_to_achall cb k dom in
              if isinstance (chall cb) ContinuityChallenge
              then factory_loop az k dom rest dv_chall (cont_chall ++ [achall])
              else if isinstance (chall cb) DVChallenge
              then factory_loop az k dom rest (dv_chall ++ [achall]) cont_chall
              else factory_loop az k dom rest dv_chall cont_chall
          end
      end
  end.

(** The loop of [verify_authzr_complete] over [self.authzr.values()]. *)
Fixpoint verify_loop (values : list AuthorizationResource) : res unit :=
  match values with
  | [] => Ret tt
  | a :: rest =>
      if negb (bool_decide (status (body a) = STATUS_VALID)) &&
         negb (bool_decide (status (body a) = STATUS_INVALID))
      then Raise (AuthorizationError incomplete_msg)
      else verify_loop rest
  end.

(** [self.authzr.values()], in the order of the map; Python fixes none. *)
Definition authzr_values (s : AuthHandler) : list AuthorizationResource :=
  snd <$> map_to_list (authzr s).

Definition verify_authzr_complete : M unit :=
  fun s => Some (verify_loop (authzr_values s), s).

Section WithWorld.

Variable w : World.
Variable account : Account.

Definition _get_chall_pref (dom : string) : list chall_class :=
  cont_get_chall_pref w dom ++ dv_get_chall_pref w dom.

Definition _challenge_factory (dom : string) (path : list Z)
    : M (list AnnotatedChallenge * list AnnotatedChallenge) :=
  let! s := get_state in
  lift (factory_loop (authzr s) (key account) dom path [] []).

Definition _choose_challenges (domains : list string) : M unit :=
  for_each domains (fun dom =>
    let! a := get_authzr dom in
    let! path := lift (Planner.gen_challenge_path (EXCLUSIVE_CHALLENGES w)
                         (challenges (body a)) (_get_chall_pref dom)
                         (combinations (body a))) in
    let! '(dom_cont_c, dom_dv_c) := _challenge_factory dom path in
    let! s := get_state in
    let! _ := set_dv_c (dv_c s ++ dom_dv_c) in
    let! s := get_state in
    set_cont_c (cont_c s ++ dom_cont_c)).

(** [_cleanup_challenges(achall_list=None)]; the authenticators'
    [cleanup] is taken not to raise. *)
Definition _cleanup_challenges (achall_list : option (list AnnotatedChallenge)) : M unit :=
  match achall_list with
  | None =>
      let! s := get_state in
      let! _ :=
        match dv_c s with
        | [] => ret tt
        | _ :: _ =>
            let! _ := emit (EvDvCleanup (dv_c s)) in
            let! l := lift (remove_while_iterating (length (dv_c s)) 0 (dv_c s)) in
            set_dv_c l
        end in
      match cont_c s with
      | [] => ret tt
      | _ :: _ =>
          let! _ := emit (EvContCleanup (cont_c s)) in
          let! l := lift (remove_while_iterating (length (cont_c s)) 0 (cont_c s)) in
          set_cont_c l
      end
  | Some l =>
      let dv := filter (fun achall => isinstance (achall_chall achall) DVChallenge = true) l in
      let cont := filter (fun achall => isinstance (achall_chall achall) ContinuityChallenge = true) l in
      let! _ :=
        match dv with
        | [] => ret tt
        | _ :: _ =>
            let! _ := emit (EvDvCleanup dv) in
            let! s := get_state in
            let! l := lift (remove_each dv (dv_c s)) in
            set_dv_c l
        end in
      match cont with
      | [] => ret tt
      | _ :: _ =>
          let! _ := emit (EvContCleanup cont) in
          let! s := get_state in
          let! l := lift (remove_each cont (cont_c s)) in
          set_cont_c l
      end
  end.

(** The two guarded [perform] calls in the [try] block. *)
Definition perform_both : M (list (option string) * list (option string)) :=
  let! s := get_state in
  let! cont_resp :=
    match cont_c s with
    | [] => ret []
    | _ :: _ =>
        let! _ := emit (EvContPerform (cont_c s)) in
        lift (cont_perform w (trace s) (cont_c s))
    end in
  let! s' := get_state in
  let! dv_resp :=
    match dv_c s' with
    | [] => ret []
    | _ :: _ =>
        let! _ := emit (EvDvPerform (dv_c s')) in
        lift (dv_perform w (trace s') (dv_c s'))
    end in
  ret (cont_resp, dv_resp).

Definition _solve_challenges : M (list (option string) * list (option string)) :=
  let! '(cont_resp, dv_resp) :=
    try_except_AuthorizationError perform_both
      (fun e => let! _ := _cleanup_challenges None in raise e) in
  let! s := get_state in
  if negb (length cont_resp =? length (cont_c s))%nat then raise AssertionError
  else if negb (length dv_resp =? length (dv_c s))%nat then raise AssertionError
  else ret (cont_resp, dv_resp).

(** [_send_responses]: [izip] stops at the shorter list. *)
Fixpoint _send_responses (achalls : list AnnotatedChallenge)
    (resps : list (option string))
    (chall_update : gmap string (list AnnotatedChallenge))
    : M (list AnnotatedChallenge * gmap string (list AnnotatedChallenge)) :=
  match achalls, resps with
  | achall :: achalls', resp :: resps' =>
      match resp with
      | Some r =>
          let! _ := emit (EvAnswerChallenge (challb achall) r) in
          let chall_update' :=
            match chall_update !! domain achall with
            | Some l => <[domain achall := l ++ [achall]]> chall_update
            | None => <[domain achall := [achall]]> chall_update
            end in
          let! '(active, cu) := _send_responses achalls' resps' chall_update' in
          ret (achall :: active, cu)
      | None => _send_responses achalls' resps' chall_update
      end
  | _, _ => ret ([], chall_update)
  end.

Definition _handle_check (dom : string) (achalls : list AnnotatedChallenge)
    : M (list AnnotatedChallenge * list AnnotatedChallenge) :=
  let! old := get_authzr dom in
  let! s := get_state in
  let! _ := emit (EvPoll old) in
  let! _ := set_authzr dom (poll w (trace s) old) in
  let! a := get_authzr dom in
  if bool_decide (status (body a) = STATUS_VALID) then ret (achalls, [])
  else lift (status_loop a achalls [] []).

(** [for domain in dom_to_check] inside one polling round. *)
Fixpoint check_domains (best_effort : bool) (doms : list string)
    (chall_update : gmap string (list AnnotatedChallenge)) (comp_domains : gset string)
    : M (gmap string (list AnnotatedChallenge) * gset string) :=
  match doms with
  | [] => ret (chall_update, comp_domains)
  | dom :: rest =>
      let! achalls := lift (match chall_update !! dom with
                            | Some l => Ret l
                            | None => Raise KeyError
                            end) in
      let! '(comp_challs, failed_challs) := _handle_check dom achalls in
      if (length comp_challs =? length achalls)%nat
      then check_domains best_effort rest chall_update ({[dom]} ∪ comp_domains)
      else match failed_challs with
           | [] =>
               let! l := lift (remove_each comp_challs achalls) in
               check_domains best_effort rest (<[dom := l]> chall_update) comp_domains
           | _ :: _ =>
               if best_effort
               then check_domains best_effort rest chall_update ({[dom]} ∪ comp_domains)
               else raise (AuthorizationError (failed_procedure_msg dom))
           end
  end.

(** [while dom_to_check and rounds < max_rounds] *)
Fixpoint poll_while (fuel : nat) (best_effort : bool) (min_sleep max_rounds : Z)
    (chall_update : gmap string (list AnnotatedChallenge))
    (dom_to_check : gset string) (rounds : Z) : M unit :=
  if negb (bool_decide (dom_to_check = ∅)) && (rounds <? max_rounds)
  then match fuel with
       | O => fun _ => None
       | S fuel' =>
           let! _ := sleep min_sleep in
           let! '(chall_update', comp_domains) :=
             check_domains best_effort (elements dom_to_check) chall_update ∅ in
           poll_while fuel' best_effort min_sleep max_rounds chall_update'
             (dom_to_check ∖ comp_domains) (rounds + 1)
       end
  else ret tt.

Definition _poll_challenges (fuel : nat)
    (chall_update : gmap string (list AnnotatedChallenge)) (best_effort : bool)
    (min_sleep max_rounds : Z) : M unit :=
  poll_while fuel best_effort min_sleep max_rounds chall_update (dom chall_update) 0.

Definition _respond (fuel : nat) (cont_resp dv_resp : list (option string))
    (best_effort : bool) : M unit :=
  let! s := get_state in
  let! '(active_dv, chall_update) := _send_responses (dv_c s) dv_resp ∅ in
  let! s' := get_state in
  let! '(active_cont, chall_update') :=
    _send_responses (cont_c s') cont_resp chall_update in
  try_finally
    (_poll_challenges fuel chall_update' best_effort default_min_sleep default_max_rounds)
    (_cleanup_challenges (Some (active_dv ++ active_cont))).

(** [while self.dv_c or self.cont_c] *)
Fixpoint challenges_while (fuel : nat) (best_effort : bool) : M unit :=
  fun s =>
    match dv_c s, cont_c s with
    | [], [] => Some (Ret tt, s)
    | _, _ =>
        match fuel with
        | O => None
        | S fuel' =>
            (let! '(cont_resp, dv_resp) := _solve_challenges in
             let! _ := _respond fuel cont_resp dv_resp best_effort in
             challenges_while fuel' best_effort) s
        end
    end.

Definition request_authorizations (domains : list string) : M unit :=
  for_each domains (fun dom =>
    let! s := get_state in
    let! _ := emit (EvRequestDomainChallenges dom (new_authzr_uri account)) in
    set_authzr dom (request_domain_challenges w (trace s) dom (new_authzr_uri account))).

Definition get_authorizations (fuel : nat) (domains : list string) (best_effort : bool)
    : M (list AuthorizationResource) :=
  let! _ := request_authorizations domains in
  let! _ := _choose_challenges domains in
  let! _ := challenges_while fuel best_effort in
  let! _ := verify_authzr_complete in
  let! s := get_state in
  ret (filter (fun a => status (body a) = STATUS_VALID) (authzr_values s)).

End WithWorld.

End Handler.

(** ** The account store *)

Module AccountStore.

Definition in_range (lo hi : nat) (c : ascii) : bool :=
  ((lo <=? nat_of_ascii c) && (nat_of_ascii c <=? hi))%nat.

Definition is_alnum (c : ascii) : bool :=
  in_range 97 122 c || in_range 65 90 c || in_range 48 57 c.

(** [[a-zA-Z0-9._%+-]] *)
Definition local_char (c : ascii) : bool :=
  is_alnum c || bool_decide (c = "."%char) || bool_decide (c = "_"%char) ||
  bool_decide (c = "%"%char) || bool_decide (c = "+"%char) || bool_decide (c = "-"%char).

(** [[a-zA-Z0-9.-]] *)
Definition domain_char (c : ascii) : bool :=
  is_alnum c || bool_decide (c = "."%char) || bool_decide (c = "-"%char).

Definition newline : ascii := ascii_of_nat 10.

(** [[a-zA-Z0-9.-]*$]: [$] is the end of the string or the newline that
    ends it. *)
Fixpoint match_domain_rest (s : string) : bool :=
  match s with
  | EmptyString => true
  | String c s' =>
      if domain_char c then match_domain_rest s'
      else bool_decide (c = newline) && bool_decide (s' = EmptyString)
  end.

Definition match_domain (s : string) : bool :=
  match s with
  | EmptyString => false
  | String c s' => domain_char c && match_domain_rest s'
  end.

(** [[a-zA-Z0-9._%+-]*@[a-zA-Z0-9.-]+$] *)
Fixpoint match_local_rest (s : string) : bool :=
  match s with
  | EmptyString => false
  | String c s' =>
      if local_char c then match_local_rest s'
      else bool_decide (c = "@"%char) && match_domain s'
  end.

(** [EMAIL_REGEX.match(email)] for
    [[a-zA-Z0-9._%+-]+@[a-zA-Z0-9.-]+$]; no class holds the at sign or
    the newline, so the match is the only split there is. *)
Definition EMAIL_REGEX_match (s : string) : bool :=
  match s with
  | EmptyString => false
  | String c s' => local_char c && match_local_rest s'
  end.

Definition startswith_dot (s : string) : bool :=
  match s with
  | String c _ => bool_decide (c = "."%char)
  | EmptyString => false
  end.

(** [".." in email] *)
Fixpoint contains_dotdot (s : string) : bool :=
  match s with
  | String c1 ((String c2 _) as s') =>
      (bool_decide (c1 = "."%char) && bool_decide (c2 = "."%char)) || contains_dotdot s'
  | _ => false
  end.

Definition safe_email (e : string) : bool :=
  if EMAIL_REGEX_match e
  then negb (startswith_dot e) && negb (contains_dotdot e)
  else false.

(** [Account.__init__] (the directory check left out) *)
Definition Account_init (k : Key) (em : option string) (ph : option string)
    (r : option RegistrationResource) : Account :=
  mkAccount k
    (match em with
     | Some e => if safe_email e then Some e else None
     | None => None
     end)
    ph r.

Definition _get_config_filename (em : option string) : string :=
  match em with
  | Some e => if bool_decide (e = EmptyString) then "default" else e
  | None => "default"
  end.

(** What [ConfigObj.write] makes of a value that may be [None]. *)
Definition py_str (o : option string) : string := default "None"%string o.

Definition no_account_msg (name : string) : string :=
  String.append "Account for " (String.append name " does not exist").

Section Store.

(** The JSON form of a registration, with [Registration.to_json] and
    [Registration.from_json] of [acme/messages.py]. *)
Variable json : Type.
Variable to_json : Registration -> json.
Variable from_json : json -> res Registration.

Record RegistrationSection : Type := mkRegistrationSection {
  sec_uri : string;
  sec_new_authzr_uri : string;
  sec_terms_of_service : string;
  sec_body : json
}.

(** The account file: its two required keys and the optional section. *)
Record ConfigObj : Type := mkConfigObj {
  cfg_key : string;
  cfg_phone : string;
  cfg_RegistrationResource : option RegistrationSection
}.

(** The disk: the account files of [accounts_dir] by name, and the other
    files by path. A safe email holds no path separator, so the name of an
    account file is the base name of its path. *)
Record Disk : Type := mkDisk {
  accounts_dir : gmap string ConfigObj;
  files : gmap string string
}.

Definition save (acc : Account) (d : Disk) : Disk :=
  let acc_config :=
    mkConfigObj (file (key acc)) (py_str (phone acc))
      (match regr acc with
       | Some r =>
           Some (mkRegistrationSection
                   (regr_uri r)
                   (regr_new_authzr_uri r)
                   (py_str (regr_terms_of_service r))
                   (to_json (regr_body r)))
       | None => None
       end) in
  mkDisk (<[_get_config_filename (email acc) := acc_config]> (accounts_dir d)) (files d).

Definition _from_config_fp (d : Disk) (name : string) : res Account :=
  match accounts_dir d !! name with
  | None => Raise (LetsEncryptClientError (no_account_msg name))
  | Some acc_config =>
      let em := if bool_decide (name <> "default"%string) then Some name else None in
      let ph := if bool_decide (cfg_phone acc_config <> "None"%string)
                then Some (cfg_phone acc_config) else None in
      match files d !! cfg_key acc_config with
      | None => Raise IOError
      | Some content =>
          let k := mkKey (cfg_key acc_config) content in
          match cfg_RegistrationResource acc_config with
          | Some acc_config_rr =>
              match from_json (sec_body acc_config_rr) with
              | Raise e => Raise e
              | Ret b =>
                  Ret (Account_init k em ph
                         (Some (mkRegistrationResource b
                                  (sec_uri acc_config_rr)
                                  (sec_new_authzr_uri acc_config_rr)
                                  (Some (sec_terms_of_service acc_config_rr)))))
              end
          | None => Ret (Account_init k em ph None)
          end
      end
  end.

Definition from_existing_account (d : Disk) (em : option string) : res Account :=
  _from_config_fp d (_get_config_filename em).

End Store.

End AccountStore.

(** ** The client facade *)

Module Client.

Record CSR : Type := mkCSR {
  csr_file : string;
  csr_data : string
}.

(** [certr.body.as_pem()] and [certr.cert_chain_uri] *)
Record CertificateResource : Type := mkCertificateResource {
  cert_pem_of : string;
  cert_chain_uri_of : option string
}.

(** [crypto_util] and the issuance half of the network port; a chain is
    given by its PEM form. *)
Record Crypto : Type := mkCrypto {
  init_save_key : list Event -> Key;
  init_save_csr : list Event -> Key -> list string -> CSR;
  request_issuance : list Event -> string -> list AuthorizationResource -> CertificateResource;
  fetch_chain : list Event -> CertificateResource -> option string
}.

Record Client : Type := mkClient {
  account : Account;
  auth_handler : option AuthHandler
}.

Definition no_authenticator_msg : string :=
  "Unable to obtain certificate because authenticator is not set.".
Definition register_first_msg : string :=
  "Please register with the ACME server first.".

Section WithWorld.

Variable w : World.
Variable cu : Crypto.

(** The body of [obtain_certificate] once both guards have passed; [csr]
    is the parameter, rebound by the assignment from [init_save_csr]. *)
Definition issue (fuel : nat) (acc : Account) (domains : list string) (csr : option CSR)
    : M (string * string * string) :=
  let! authzr := Handler.get_authorizations w acc fuel domains false in
  let! s := get_state in
  let! _ := emit EvInitSaveKey in
  let cert_key := init_save_key cu (trace s) in
  let! s := get_state in
  let! _ := emit (EvInitSaveCsr cert_key domains) in
  let csr := init_save_csr cu (trace s) cert_key domains in
  let! s := get_state in
  let! _ := emit (EvRequestIssuance (csr_data csr) authzr) in
  let certr := request_issuance cu (trace s) (csr_data csr) authzr in
  let cert_pem := cert_pem_of certr in
  let! chain_pem :=
    match cert_chain_uri_of certr with
    | Some u =>
        let! s := get_state in
        let! _ := emit (EvFetchChain u) in
        ret (fetch_chain cu (trace s) certr)
    | None => ret None
    end in
  let chain_pem := match chain_pem with
                   | None => EmptyString
                   | Some p => p
                   end in
  ret (cert_pem, pem cert_key, chain_pem).

Definition obtain_certificate (fuel : nat) (c : Client) (domains : list string)
    (csr : option CSR) : option (res (string * string * string) * Client) :=
  match auth_handler c with
  | None => Some (Raise (LetsEncryptClientError no_authenticator_msg), c)
  | Some h =>
      match regr (account c) with
      | None => Some (Raise (LetsEncryptClientError register_first_msg), c)
      | Some _ =>
          match issue fuel (account c) domains csr h with
          | None => None
          | Some (r, h') => Some (r, mkClient (account c) (Some h'))
          end
      end
  end.

End WithWorld.

End Client.

(** ** Listing and creating accounts *)

Module AccountDirectory.
Import AccountStore.

Definition invalid_email_msg : string := "Invalid email address.".

(** [isinstance(e, errors.LetsEncryptClientError)]: the class and, of the
    exceptions modelled, its subclasses [AuthorizationError] and
    [LetsEncryptMisconfigurationError]. *)
Definition is_LetsEncryptClientError (e : exn) : bool :=
  match e with
  | LetsEncryptClientError _ | AuthorizationError _
  | LetsEncryptMisconfigurationError _ => true
  | _ => false
  end.

Section Directory.

Variable json : Type.
Variable from_json : json -> res Registration.

(** The loop of [get_accounts] over the names of the directory. *)
Fixpoint accounts_loop (d : Disk json) (filenames : list string) (accounts : list Account)
    : res (list Account) :=
  match filenames with
  | [] => Ret accounts
  | name :: rest =>
      match _from_config_fp json from_json d name with
      | Raise e => Raise e
      | Ret acc => accounts_loop d rest (accounts ++ [acc])
      end
  end.

(** [get_accounts]: [os.listdir] gives the names in the order of the
    map, Python fixing none; [accounts_dir] holds the regular files only,
    and a directory that is missing lists as an empty one. *)
Definition get_accounts (d : Disk json) : res (list Account) :=
  accounts_loop d (fst <$> map_to_list (accounts_dir json d)) [].

End Directory.

Section Creation.

(** [crypto_util.init_save_key] with its key name, after the key names
    of the calls before it, newest first. *)
Variable init_save_key : list string -> string -> res Key.

(** [from_email], the directory checks left out as in [Account_init];
    the second component is the key names asked for so far. *)
Definition from_email (made : list string) (email : string)
    : res Account * list string :=
  if bool_decide (email = EmptyString) || safe_email email
  then
    let email := if bool_decide (email = EmptyString) then None else Some email in
    match init_save_key made (_get_config_filename email) with
    | Raise e => (Raise e, _get_config_filename email :: made)
    | Ret key => (Ret (Account_init key email None None),
                  _get_config_filename email :: made)
    end
  else (Raise (LetsEncryptClientError invalid_email_msg), made).

(** [from_prompts]: the [while True] loop over the answers the display
    gives, [(code == OK, email)] each; with no answer left the prompt
    waits for ever. *)
Fixpoint from_prompts (answers : list (bool * string)) (made : list string)
    : option (res (option Account) * list (bool * string) * list string) :=
  match answers with
  | [] => None
  | (ok, email) :: rest =>
      if ok
      then match from_email made email with
           | (Raise e, made') =>
               if is_LetsEncryptClientError e then from_prompts rest made'
               else Some (Raise e, rest, made')
           | (Ret acc, made') => Some (Ret (Some acc), rest, made')
           end
      else Some (Ret None, rest, made)
  end.

End Creation.

End AccountDirectory.

(** ** Installing the certificate *)

Module Installation.

Definition no_installer_msg : string := "No installer available".
Definition deployed_title : string := "Deployed Let's Encrypt Certificate".
Definition redirects_title : string := "Add Redirects".

(** The calls made to the installer and to the display. *)
Inductive InstallerEvent : Type :=
| EvDeployCert (dom cert_path privkey_path : string) (chain_path : option string)
| EvEnhance (dom enhancement : string)
| EvSave (title : string)
| EvRestart
| EvAsk (enhancement : string)
| EvSuccessInstallation (domains : list string).

(** How [installer.enhance] ends: normally, with a
    [LetsEncryptConfiguratorError], or with one of the exceptions
    modelled. *)
Inductive Enhanced : Type :=
| Enhanced_ok
| Enhanced_configurator_error
| Enhanced_raise (e : exn).

(** [isinstance(e, errors.LetsEncryptConfiguratorError)] for the
    exceptions modelled: [LetsEncryptMisconfigurationError] is a
    subclass. *)
Definition is_LetsEncryptConfiguratorError (e : exn) : bool :=
  match e with
  | LetsEncryptMisconfigurationError _ => true
  | _ => false
  end.

(** The installer; each call is given the history of the calls before
    it, newest first. *)
Record Installer : Type := mkInstaller {
  inst_deploy_cert :
    list InstallerEvent -> string -> string -> string -> option string -> res unit;
  inst_enhance : list InstallerEvent -> string -> string -> Enhanced;
  inst_save : list InstallerEvent -> string -> res unit;
  inst_restart : list InstallerEvent -> res unit
}.

Definition Run (A : Type) : Type := list InstallerEvent -> res A * list InstallerEvent.

Definition done : Run unit := fun tr => (Ret tt, tr).

Definition call {A : Type} (ev : InstallerEvent) (f : list InstallerEvent -> res A) : Run A :=
  fun tr => (f tr, ev :: tr).

Definition and_then {A B : Type} (m : Run A) (k : A -> Run B) : Run B :=
  fun tr =>
    match m tr with
    | (Ret a, tr') => k a tr'
    | (Raise e, tr') => (Raise e, tr')
    end.

Section WithInstaller.

(** [os.path.abspath] and [enhancements.ask] *)
Variable abspath : string -> string.
Variable ask : list InstallerEvent -> string -> bool.

(** [for dom in domains: self.installer.deploy_cert(...)] *)
Fixpoint deploy_loop (inst : Installer) (domains : list string)
    (cert_path privkey_path : string) (chain_path : option string) : Run unit :=
  match domains with
  | [] => done
  | dom :: rest =>
      and_then
        (call (EvDeployCert dom cert_path privkey_path chain_path)
           (fun tr => inst_deploy_cert inst tr dom cert_path privkey_path chain_path))
        (fun _ => deploy_loop inst rest cert_path privkey_path chain_path)
  end.

Definition deploy_certificate (installer : option Installer) (domains : list string)
    (privkey_path cert_path : string) (chain_path : option string) : Run unit :=
  match installer with
  | None => fun tr => (Raise (LetsEncryptClientError no_installer_msg), tr)
  | Some inst =>
      let chain_path := abspath <$> chain_path in
      and_then
        (deploy_loop inst domains (abspath cert_path) (abspath privkey_path) chain_path)
        (fun _ =>
           and_then (call (EvSave deployed_title) (fun tr => inst_save inst tr deployed_title))
             (fun _ =>
                and_then (call EvRestart (inst_restart inst))
                  (fun _ => call (EvSuccessInstallation domains) (fun _ => Ret tt))))
  end.

(** [for dom in domains: try: enhance(dom, "redirect") except
    LetsEncryptConfiguratorError: warn] *)
Fixpoint enhance_loop (inst : Installer) (domains : list string) : Run unit :=
  match domains with
  | [] => done
  | dom :: rest =>
      fun tr =>
        match inst_enhance inst tr dom "redirect" with
        | Enhanced_raise e =>
            if is_LetsEncryptConfiguratorError e
            then enhance_loop inst rest (EvEnhance dom "redirect" :: tr)
            else (Raise e, EvEnhance dom "redirect" :: tr)
        | Enhanced_ok | Enhanced_configurator_error =>
            enhance_loop inst rest (EvEnhance dom "redirect" :: tr)
        end
  end.

Definition redirect_to_ssl (inst : Installer) (domains : list string) : Run unit :=
  and_then (enhance_loop inst domains)
    (fun _ =>
       and_then (call (EvSave redirects_title) (fun tr => inst_save inst tr redirects_title))
         (fun _ => call EvRestart (inst_restart inst))).

Definition enhance_config (installer : option Installer) (domains : list string)
    (redirect : option bool) : Run unit :=
  match installer with
  | None => fun tr => (Raise (LetsEncryptClientError no_installer_msg), tr)
  | Some inst =>
      and_then
        (match redirect with
         | None => call (EvAsk "redirect") (fun tr => Ret (ask tr "redirect"))
         | Some b => fun tr => (Ret b, tr)
         end)
        (fun redirect => if redirect then redirect_to_ssl inst domains else done)
  end.

End WithInstaller.

End Installation.

(** ** Registering the account *)

Module Enrollment.
Import AccountStore.

Definition must_agree_msg : string := "Must agree to TOS".

(** [Account.terms_of_service] and [Account.recovery_token] *)
Definition terms_of_service (acc : Account) : option string :=
  match regr acc with
  | Some r => regr_terms_of_service r
  | None => None
  end.

Definition recovery_token_of (acc : Account) : option string :=
  match regr acc with
  | Some r => recovery_token (regr_body r)
  | None => None
  end.

Section Register.

Variable json : Type.
Variable to_json : Registration -> json.

(** The network's [register_from_account] and [agree_to_tos], and the
    answer to the display's [yesno]. *)
Variable register_from_account : Account -> res Account.
Variable agree_to_tos : option RegistrationResource -> res RegistrationResource.
Variable yesno : bool.

(** [self.account.save()] and [_report_new_account], whose messages to
    the reporter are left out. *)
Definition save_and_report (acc : Account) (d : Disk json)
    : res unit * Account * Disk json :=
  let d' := save json to_json acc d in
  match recovery_token_of acc with
  | None => (Raise AssertionError, acc, d')
  | Some _ => (Ret tt, acc, d')
  end.

(** [Client.register] on the client's account and the disk; [tos] is
    [config.tos]. *)
Definition register (tos : bool) (acc : Account) (d : Disk json)
    : res unit * Account * Disk json :=
  match register_from_account acc with
  | Raise e => (Raise e, acc, d)
  | Ret acc =>
      match terms_of_service acc with
      | Some _ =>
          let agree := if negb tos then yesno else true in
          if agree
          then match agree_to_tos (regr acc) with
               | Raise e => (Raise e, acc, d)
               | Ret r => save_and_report (mkAccount (key acc) (email acc) (phone acc) (Some r)) d
               end
          else (Raise (LetsEncryptClientError must_agree_msg), acc, d)
      | None => save_and_report acc d
      end
  end.

End Register.

End Enrollment.

(** ** The nginx configurator: choosing a virtual host, enhancements *)

Module NginxConfigurator.

(** What [parser.get_best_match] says of a server name that matches. *)
Inductive name_type : Type :=
| exact
| wildcard_start
| wildcard_end
| regex.

(** [obj.VirtualHost], as far as the choice looks at it. *)
Record VirtualHost : Type := mkVirtualHost {
  filep : string;
  ssl : bool;
  names : list string
}.

(** An entry of [matches]: [{'vhost': ..., 'name': ..., 'rank': ...}] *)
Record Match : Type := mkMatch {
  m_vhost : VirtualHost;
  m_name : string;
  m_rank : Z
}.

Definition rank_of (t : name_type) (is_ssl : bool) : Z :=
  match t with
  | exact => if is_ssl then 0 else 1
  | wildcard_start => if is_ssl then 2 else 3
  | wildcard_end => if is_ssl then 4 else 5
  | regex => if is_ssl then 6 else 7
  end.

(** [sorted(matches, key=lambda x: x['rank'])]: Python's sort is stable;
    an entry goes before the entries of its rank or more that come after
    it. *)
Fixpoint insert_by_rank (m : Match) (l : list Match) : list Match :=
  match l with
  | [] => [m]
  | x :: l' => if m_rank m <=? m_rank x then m :: x :: l' else x :: insert_by_rank m l'
  end.

Definition sorted_by_rank (l : list Match) : list Match := foldr insert_by_rank [] l.

(** [max(wildcards, key=lambda x: len(x['name']))]: the first of the
    longest. *)
Fixpoint max_by_len (best : Match) (l : list Match) : Match :=
  match l with
  | [] => best
  | x :: l' =>
      if (String.length (m_name best) <? String.length (m_name x))%nat
      then max_by_len x l'
      else max_by_len best l'
  end.

Section WithParser.

(** [parser.get_best_match(target_name, vhost.names)], [None] for a
    name of no type. *)
Variable get_best_match : string -> list string -> option (name_type * string).

(** The loop of [_get_ranked_matches] over [self.parser.get_vhosts()]. *)
Fixpoint matches_loop (target_name : string) (vhosts : list VirtualHost) : list Match :=
  match vhosts with
  | [] => []
  | vhost :: rest =>
      match get_best_match target_name (names vhost) with
      | Some (t, name) => [mkMatch vhost name (rank_of t (ssl vhost))]
      | None => []
      end ++ matches_loop target_name rest
  end.

Definition _get_ranked_matches (target_name : string) (vhosts : list VirtualHost)
    : list Match :=
  sorted_by_rank (matches_loop target_name vhosts).

End WithParser.

(** The choice [choose_vhost] makes among the ranked matches, before it
    makes the chosen server an SSL one; [None] stands for the new server
    block it adds when nothing matches. The list of wildcards holds the
    first match, so [max] is never given an empty one. *)
Definition choose_match (matches : list Match) : option Match :=
  match matches with
  | [] => None
  | m0 :: _ =>
      if (2 <=? m_rank m0) && (m_rank m0 <? 6)
      then
        match filter (fun x => m_rank x = m_rank m0) matches with
        | [] => None
        | w :: wildcards => Some (max_by_len w wildcards)
        end
      else Some m0
  end.

Section Enhance.

(** [self.choose_vhost(domain)] and the values of [self._enhance_func]
    with their outcomes. *)
Variable choose_vhost : string -> res VirtualHost.

Definition unsupported (e : exn) : bool :=
  match e with
  | KeyError | ValueError => true
  | _ => false
  end.

(** What the [try] of [enhance] makes of an exception: [KeyError] and
    [ValueError] become a [LetsEncryptConfiguratorError], which the
    clause after that one does not catch; a
    [LetsEncryptConfiguratorError], its subclasses with it, is logged and
    the call returns [None]; any other exception passes. *)
Definition caught (e : exn) : Installation.Enhanced :=
  if unsupported e then Installation.Enhanced_configurator_error
  else if Installation.is_LetsEncryptConfiguratorError e then Installation.Enhanced_ok
  else Installation.Enhanced_raise e.

(** [enhance]: the function is looked up in [_enhance_func] before the
    virtual host is chosen. *)
Definition enhance (_enhance_func : gmap string (VirtualHost -> Installation.Enhanced))
    (domain enhancement : string) : Installation.Enhanced :=
  match _enhance_func !! enhancement with
  | None => Installation.Enhanced_configurator_error
  | Some f =>
      match choose_vhost domain with
      | Raise e => caught e
      | Ret vhost =>
          match f vhost with
          | Installation.Enhanced_ok => Installation.Enhanced_ok
          | Installation.Enhanced_configurator_error => Installation.Enhanced_ok
          | Installation.Enhanced_raise e => caught e
          end
      end
  end.

(** [self._enhance_func = {}] of [__init__], assigned nowhere else. *)
Definition initial_enhance_func : gmap string (VirtualHost -> Installation.Enhanced) := ∅.

End Enhance.

End NginxConfigurator.

(** * The vocabulary of the statements, and the scenarios they are tried on *)

Definition index_in_range (n : nat) (i : Z) : Prop :=
  - Z.of_nat n <= i < Z.of_nat n.

Module PlannerSpec.
Import Planner.

(** The specification's words: each preference gets its 0-based rank (the
    rank of a class the list repeats is the one assigned last), and
    [max_cost] is one more than the sum of the ranks. *)
Fixpoint spec_sum_ranks (i : Z) (preferences : list chall_class) : Z :=
  match preferences with
  | [] => 0
  | _ :: rest => i + spec_sum_ranks (i + 1) rest
  end.

Definition spec_max_cost (preferences : list chall_class) : Z :=
  spec_sum_ranks 0 preferences + 1.

Fixpoint spec_rank_from (i : Z) (preferences : list chall_class) (k : chall_class)
    : option Z :=
  match preferences with
  | [] => None
  | p :: rest =>
      match spec_rank_from (i + 1) rest k with
      | Some j => Some j
      | None => if decide (p = k) then Some i else None
      end
  end.

Definition spec_rank (preferences : list chall_class) (k : chall_class) : option Z :=
  spec_rank_from 0 preferences k.

(** The cost one offered challenge adds: the rank of its variant, or
    [max_cost] when no preference names the variant. *)
Definition spec_chall_cost (preferences : list chall_class) (cb : ChallengeBody) : Z :=
  default (spec_max_cost preferences) (spec_rank preferences (class_of (chall cb))).

Fixpoint spec_combo_cost (challbs : list ChallengeBody)
    (preferences : list chall_class) (combo : list Z) : Z :=
  match combo with
  | [] => 0
  | i :: rest =>
      match py_index challbs i with
      | Some cb => spec_chall_cost preferences cb
      | None => 0
      end + spec_combo_cost challbs preferences rest
  end.

Definition combos_in_range (challbs : list ChallengeBody) (combos : list (list Z)) : Prop :=
  forall combo i, combo ∈ combos -> i ∈ combo -> index_in_range (length challbs) i.

Definition index_in_rangeb (n : nat) (i : Z) : bool :=
  (- Z.of_nat n <=? i) && (i <? Z.of_nat n).

(** A challenge belongs to a group when it is an instance of one of the
    classes of the group; two challenges are mutually exclusive when some
    configured group holds both and their variants differ. *)
Definition in_group (c : Challenge) (g : list chall_class) : Prop :=
  exists k, k ∈ g /\ isinstance c k = true.

Definition conflicting (groups : list (list chall_class)) (c1 c2 : Challenge) : Prop :=
  exists g, g ∈ groups /\ in_group c1 g /\ in_group c2 g /\ typ c1 <> typ c2.

(** What the two loops keep: every chosen index names an offered
    challenge that is in [satisfied], and no two members of [satisfied]
    are mutually exclusive. *)
Definition path_invariant (groups : list (list chall_class))
    (challbs : list ChallengeBody) (path : list nat) (satisfied : list ChallengeBody) : Prop :=
  (forall i, i ∈ path -> exists cb, challbs !! i = Some cb /\ cb ∈ satisfied) /\
  (forall a b, a ∈ satisfied -> b ∈ satisfied -> ~ conflicting groups (chall a) (chall b)).

(** The offered challenges, preferences and combinations of the
    specification's planner scenario. *)
Definition offered (v : variant) (tok : string) : ChallengeBody :=
  mkChallengeBody (mkChallenge v tok) EmptyString STATUS_PENDING.

Definition offered_example : list ChallengeBody :=
  [offered SimpleHTTP "T"; offered DNS "U"; offered RecoveryToken "R"].

Definition preferences_example : list chall_class :=
  [Concrete DVSNI; Concrete SimpleHTTP; Concrete DNS; Concrete RecoveryToken].

Definition combinations_example : list (list Z) := [[0; 2]; [1; 2]].

Definition groups_example : list (list chall_class) :=
  [[Concrete DVSNI; Concrete SimpleHTTP]].

Definition dumb_offered_example : list ChallengeBody :=
  [offered DVSNI "S"; offered SimpleHTTP "T"; offered DNS "U"].

Definition dumb_preferences_example : list chall_class :=
  [Concrete SimpleHTTP; Concrete DVSNI; Concrete DNS].

End PlannerSpec.

Module HandlerSpec.
Import Handler.

Definition is_sleep (e : Event) : bool :=
  match e with
  | EvSleep _ => true
  | _ => false
  end.

(** The polling rounds a history holds: one [time.sleep] opens each. *)
Definition rounds_slept (tr : list Event) : nat :=
  length (List.filter is_sleep tr).

(** Every completed run of [m] relates the state it started from to the
    state it ended in. *)
Definition ensures {A : Type} (R : relation AuthHandler) (m : M A) : Prop :=
  forall s r s', m s = Some (r, s') -> R s s'.

(** [m] never runs out of loop budget. *)
Definition total {A : Type} (m : M A) : Prop :=
  forall s, is_Some (m s).

(** What [verify_authzr_complete] accepts. *)
Definition decided (a : AuthorizationResource) : Prop :=
  status (body a) = STATUS_VALID \/ status (body a) = STATUS_INVALID.

(** The specification's terminal statuses. *)
Definition spec_terminal (st : Status) : Prop :=
  st = STATUS_VALID \/ st = STATUS_INVALID \/ st = STATUS_REVOKED.

Definition revoked_authzr : AuthorizationResource :=
  mkAuthorizationResource
    (mkAuthorization "example.com" [] [] STATUS_REVOKED) "authz/1" "new-cert".

Definition revoked_handler : AuthHandler :=
  mkAuthHandler {["example.com"%string := revoked_authzr]} [] [] [].

(** A server that offers the planner scenario's challenges and reports
    [final] at every poll, with authenticators that answer everything. *)
Definition scenario_authzr (dom : string) (st : Status) : AuthorizationResource :=
  mkAuthorizationResource
    (mkAuthorization dom
       [mkChallengeBody (mkChallenge SimpleHTTP "T") "chall/0" st;
        mkChallengeBody (mkChallenge DNS "U") "chall/1" st;
        mkChallengeBody (mkChallenge RecoveryToken "R") "chall/2" st]
       [[0; 2]; [1; 2]] st)
    "authz/1" "new-cert".

Definition answer_all (achalls : list AnnotatedChallenge) : res (list (option string)) :=
  Ret ((fun _ => Some "response"%string) <$> achalls).

Definition scenario_world (final : Status) : World :=
  mkWorld
    (fun _ dom _ => scenario_authzr dom STATUS_PENDING)
    (fun _ a => scenario_authzr (identifier (body a)) final)
    (fun _ => [Concrete RecoveryToken])
    (fun _ => [Concrete SimpleHTTP])
    (fun _ achalls => answer_all achalls)
    (fun _ achalls => answer_all achalls)
    [[Concrete DVSNI; Concrete SimpleHTTP]].

(** A server that offers two challenges of one class and accepts only
    the second; at every poll it reports [final] for that challenge and
    for the authorization, the first challenge still pending. *)
Definition twin_authzr (dom : string) (final : Status) : AuthorizationResource :=
  mkAuthorizationResource
    (mkAuthorization dom
       [mkChallengeBody (mkChallenge DNS "U0") "chall/0" STATUS_PENDING;
        mkChallengeBody (mkChallenge DNS "U1") "chall/1" final]
       [[1]] final)
    "authz/1" "new-cert".

Definition twin_world : World :=
  mkWorld
    (fun _ dom _ => twin_authzr dom STATUS_PENDING)
    (fun _ a => twin_authzr (identifier (body a)) STATUS_INVALID)
    (fun _ => [])
    (fun _ => [Concrete DNS])
    (fun _ achalls => answer_all achalls)
    (fun _ achalls => answer_all achalls)
    [[Concrete DVSNI; Concrete SimpleHTTP]].

Definition scenario_account : Account :=
  mkAccount (mkKey "keys/a@b.com" "PEM") (Some "a@b.com"%string) (Some "1234"%string)
    (Some (mkRegistrationResource
             (mkRegistration "JWK" ["tel:1234"; "mailto:a@b.com"]%string None None)
             "reg/1" "new-authz" (Some "tos"%string))).

Definition same_keys : relation AuthHandler :=
  fun s s' => dom (authzr s') = dom (authzr s).

(** A server that offers no challenge and reports [valid] at once. *)
Definition settled_authzr (dom : string) : AuthorizationResource :=
  mkAuthorizationResource (mkAuthorization dom [] [] STATUS_VALID) "authz/1" "new-cert".

Definition settled_world : World :=
  mkWorld
    (fun _ dom _ => settled_authzr dom)
    (fun _ a => a)
    (fun _ => [])
    (fun _ => [])
    (fun _ achalls => answer_all achalls)
    (fun _ achalls => answer_all achalls)
    [[Concrete DVSNI; Concrete SimpleHTTP]].

(** The calls full cleanup makes, newest first: the DV authenticator's
    on the whole of [dv_c], then the continuity authenticator's on the
    whole of [cont_c], each only for a list that is not empty. *)
Definition cleanup_events (dv cont : list AnnotatedChallenge) : list Event :=
  match cont with [] => [] | _ :: _ => [EvContCleanup cont] end ++
  match dv with [] => [] | _ :: _ => [EvDvCleanup dv] end.

Definition same_challenges : relation AuthHandler :=
  fun s s' => dv_c s' = dv_c s /\ cont_c s' = cont_c s /\ authzr s' = authzr s.

Definition dvsni_achall (dom : string) : AnnotatedChallenge :=
  mkAnnotatedChallenge
    (mkChallengeBody (mkChallenge DVSNI "N") "chall/0" STATUS_PENDING)
    dom (Some (mkKey "keys/a@b.com" "PEM")).

(** A DV authenticator whose [perform] raises [e]. *)
Definition failing_world (e : exn) : World :=
  mkWorld
    (fun _ dom _ => settled_authzr dom)
    (fun _ a => a)
    (fun _ => [])
    (fun _ => [Concrete DVSNI])
    (fun _ achalls => answer_all achalls)
    (fun _ _ => Raise e)
    [[Concrete DVSNI; Concrete SimpleHTTP]].

Definition one_dv_handler : AuthHandler :=
  mkAuthHandler ∅ [dvsni_achall "a.test"] [] [].

Definition same_rounds : relation AuthHandler :=
  fun s s' => rounds_slept (trace s') = rounds_slept (trace s).

Definition pending_handler : AuthHandler :=
  mkAuthHandler {["example.com"%string := scenario_authzr "example.com" STATUS_PENDING]}
    [] [] [].

Definition pending_update : gmap string (list AnnotatedChallenge) :=
  {["example.com"%string :=
      [mkAnnotatedChallenge
         (mkChallengeBody (mkChallenge SimpleHTTP "T") "chall/0" STATUS_PENDING)
         "example.com" (Some (mkKey "keys/a@b.com" "PEM"))]]}.

(** Authenticators that have no response for any challenge. *)
Definition silent_world : World :=
  mkWorld
    (fun _ dom _ => scenario_authzr dom STATUS_PENDING)
    (fun _ a => a)
    (fun _ => [Concrete RecoveryToken])
    (fun _ => [Concrete SimpleHTTP])
    (fun _ achalls => Ret (replicate (length achalls) None))
    (fun _ achalls => Ret (replicate (length achalls) None))
    [[Concrete DVSNI; Concrete SimpleHTTP]].

(** A server that turns the request down at once: the authorization it
    answers with is [invalid] and offers no challenge. *)
Definition refused_authzr (dom : string) : AuthorizationResource :=
  mkAuthorizationResource (mkAuthorization dom [] [] STATUS_INVALID) "authz/1" "new-cert".

Definition refusing_world : World :=
  mkWorld
    (fun _ dom _ => refused_authzr dom)
    (fun _ a => a)
    (fun _ => [])
    (fun _ => [Concrete SimpleHTTP])
    (fun _ achalls => answer_all achalls)
    (fun _ achalls => answer_all achalls)
    [[Concrete DVSNI; Concrete SimpleHTTP]].

(** The points of [get_authorizations] once the request loop has ended:
    before [_choose_challenges], at the test of the [while] loop,
    between [_solve_challenges] and [_respond] with the responses in
    hand, before [verify_authzr_complete], and after the call has ended,
    by a return or by an exception. *)
Inductive Point : Type :=
| at_choose
| at_while
| at_respond (cont_resp dv_resp : list (option string))
| at_verify
| at_end (r : res (list AuthorizationResource)).

(** One statement of [get_authorizations], from one point to the next;
    a call that never ends makes such steps for ever. [_respond] is
    given the rounds its polling needs. *)
Inductive step (w : World) (account : Account) (domains : list string)
    (best_effort : bool) : Point * AuthHandler -> Point * AuthHandler -> Prop :=
| step_choose s s' :
    _choose_challenges w account domains s = Some (Ret tt, s') ->
    step w account domains best_effort (at_choose, s) (at_while, s')
| step_choose_raise s e s' :
    _choose_challenges w account domains s = Some (Raise e, s') ->
    step w account domains best_effort (at_choose, s) (at_end (Raise e), s')
| step_solve s cont_resp dv_resp s' :
    dv_c s <> [] \/ cont_c s <> [] ->
    _solve_challenges w s = Some (Ret (cont_resp, dv_resp), s') ->
    step w account domains best_effort (at_while, s) (at_respond cont_resp dv_resp, s')
| step_solve_raise s e s' :
    dv_c s <> [] \/ cont_c s <> [] ->
    _solve_challenges w s = Some (Raise e, s') ->
    step w account domains best_effort (at_while, s) (at_end (Raise e), s')
| step_leave s :
    dv_c s = [] -> cont_c s = [] ->
    step w account domains best_effort (at_while, s) (at_verify, s)
| step_respond fuel s cont_resp dv_resp s' :
    _respond w fuel cont_resp dv_resp best_effort s = Some (Ret tt, s') ->
    step w account domains best_effort (at_respond cont_resp dv_resp, s) (at_while, s')
| step_respond_raise fuel s cont_resp dv_resp e s' :
    _respond w fuel cont_resp dv_resp best_effort s = Some (Raise e, s') ->
    step w account domains best_effort
      (at_respond cont_resp dv_resp, s) (at_end (Raise e), s')
| step_verify s s' :
    verify_authzr_complete s = Some (Ret tt, s') ->
    step w account domains best_effort (at_verify, s)
      (at_end (Ret (filter (fun a => status (body a) = STATUS_VALID) (authzr_values s'))), s')
| step_verify_raise s e s' :
    verify_authzr_complete s = Some (Raise e, s') ->
    step w account domains best_effort (at_verify, s) (at_end (Raise e), s').

End HandlerSpec.

Module AccountSpec.
Import AccountStore.

(** A store that keeps a registration body as it is. *)
Definition plain_disk : Disk Registration :=
  mkDisk Registration ∅ {["keys/a@b.com"%string := "PEM"%string]}.

Definition plain_save : Account -> Disk Registration -> Disk Registration :=
  save Registration (fun b => b).

Definition plain_load : Disk Registration -> option string -> res Account :=
  from_existing_account Registration (fun b => Ret b).

Definition scenario_registration : Registration :=
  mkRegistration "JWK" ["tel:1234"; "mailto:a@b.com"]%string None None.

Definition scenario_regr : RegistrationResource :=
  mkRegistrationResource scenario_registration "reg/1" "new-authz" (Some "tos"%string).

Definition scenario_key : Key := mkKey "keys/a@b.com" "PEM".

(** Scenario 4: the account of [a@b.com] with phone [1234]. *)
Definition stored_account : Account :=
  mkAccount scenario_key (Some "a@b.com"%string) (Some "1234"%string) (Some scenario_regr).

Definition none_phone_account : Account :=
  mkAccount scenario_key (Some "a@b.com"%string) (Some "None"%string) (Some scenario_regr).

Definition no_terms_account : Account :=
  mkAccount scenario_key (Some "a@b.com"%string) (Some "1234"%string)
    (Some (mkRegistrationResource scenario_registration "reg/1" "new-authz" None)).

Definition other_key_account : Account :=
  mkAccount (mkKey "keys/a@b.com" "OTHER") (Some "a@b.com"%string) (Some "1234"%string)
    (Some scenario_regr).

End AccountSpec.

Module ClientSpec.
Import Client.

Definition scenario_crypto : Crypto :=
  mkCrypto
    (fun _ => mkKey "keys/cert" "KEY-PEM")
    (fun _ k domains => mkCSR "csr/0" (String.append "CSR:" (String.concat "," domains)))
    (fun _ csr_der _ => mkCertificateResource "CERT-PEM" None)
    (fun _ _ => None).

Definition scenario_client : Client :=
  mkClient HandlerSpec.scenario_account (Some (init_handler [])).

End ClientSpec.

(** * Further vocabulary *)

Module PlannerNotions.
Import Planner.
Import PlannerSpec.

(** [[challbs[i] for i in path]], or nothing when an index is out of
    range. *)
Fixpoint index_all (challbs : list ChallengeBody) (path : list Z)
    : option (list ChallengeBody) :=
  match path with
  | [] => Some []
  | i :: rest =>
      match py_index challbs i, index_all challbs rest with
      | Some cb, Some cbs => Some (cb :: cbs)
      | _, _ => None
      end
  end.

Definition is_dv_achall (a : AnnotatedChallenge) : Prop :=
  isinstance (achall_chall a) DVChallenge = true.

Definition is_cont_achall (a : AnnotatedChallenge) : Prop :=
  isinstance (achall_chall a) ContinuityChallenge = true.

(** Some preference names a class the challenge is an instance of. *)
Definition preferred (preferences : list chall_class) (c : Challenge) : Prop :=
  exists p, p ∈ preferences /\ isinstance c p = true.

(** Every member of [satisfied] is the offered challenge of some chosen
    index. *)
Definition selection_invariant (challbs : list ChallengeBody)
    (path : list nat) (satisfied : list ChallengeBody) : Prop :=
  forall cb, cb ∈ satisfied -> exists j, j ∈ path /\ challbs !! j = Some cb.

(** The offered challenge at [i] is mutually exclusive with one the path
    has chosen. *)
Definition excluded_by (groups : list (list chall_class))
    (challbs : list ChallengeBody) (path : list nat) (cb : ChallengeBody) : Prop :=
  exists k ck, k ∈ path /\ challbs !! k = Some ck /\
               conflicting groups (chall cb) (chall ck).

End PlannerNotions.

Module HandlerNotions.
Import Handler.
Import PlannerNotions.
Import HandlerSpec.

#[global] Instance is_dv_achall_dec (a : AnnotatedChallenge) : Decision (is_dv_achall a).
Proof. unfold is_dv_achall. apply _. Defined.

#[global] Instance is_cont_achall_dec (a : AnnotatedChallenge) : Decision (is_cont_achall a).
Proof. unfold is_cont_achall. apply _. Defined.

(** The annotated challenges [_challenge_factory] makes of challenge
    bodies. *)
Definition annotate (k : Key) (dom : string) (cbs : list ChallengeBody)
    : list AnnotatedChallenge :=
  (fun cb => challb_to_achall cb k dom) <$> cbs.

(** The elements at the odd positions [1, 3, 5, ...] of a list. *)
Fixpoint odd_positions {A : Type} (l : list A) : list A :=
  match l with
  | _ :: b :: rest => b :: odd_positions rest
  | _ => []
  end.

(** The annotated challenges that got a truthy response, each with its
    response, up to the end of the shorter list. *)
Fixpoint answered (achalls : list AnnotatedChallenge) (resps : list (option string))
    : list (AnnotatedChallenge * string) :=
  match achalls, resps with
  | achall :: achalls', Some r :: resps' => (achall, r) :: answered achalls' resps'
  | _ :: achalls', None :: resps' => answered achalls' resps'
  | _, _ => []
  end.

Definition answer_event (p : AnnotatedChallenge * string) : Event :=
  EvAnswerChallenge (challb (fst p)) (snd p).

(** One more active challenge in [chall_update]. *)
Definition record_active (chall_update : gmap string (list AnnotatedChallenge))
    (achall : AnnotatedChallenge) : gmap string (list AnnotatedChallenge) :=
  match chall_update !! domain achall with
  | Some l => <[domain achall := l ++ [achall]]> chall_update
  | None => <[domain achall := [achall]]> chall_update
  end.

(** The status an authorization reports for an annotated challenge: that
    of its first challenge of the same class, if it has one. *)
Definition reported (a : AuthorizationResource) (achall : AnnotatedChallenge)
    : option Status :=
  cb_status <$>
    List.find (fun cb => bool_decide (class_of (chall cb) = class_of (achall_chall achall)))
      (challenges (body a)).

(** What [_handle_check] returns for a polled authorization. *)
Definition check_result (a : AuthorizationResource) (achalls : list AnnotatedChallenge)
    : res (list AnnotatedChallenge * list AnnotatedChallenge) :=
  if bool_decide (status (body a) = STATUS_VALID) then Ret (achalls, [])
  else if bool_decide (Forall (fun achall => is_Some (reported a achall)) achalls)
  then Ret (filter (fun achall => reported a achall = Some STATUS_VALID) achalls,
            filter (fun achall => reported a achall = Some STATUS_INVALID) achalls)
  else Raise (AuthorizationError target_not_found_msg).

Definition two_dv_handler : AuthHandler :=
  mkAuthHandler ∅ [dvsni_achall "a.test"; dvsni_achall "b.test"] [] [].

(** What polling the domains of [D] may change: nothing but the
    authorizations stored for them, and the history. *)
Definition polled_only (D : gset string) (s s' : AuthHandler) : Prop :=
  dv_c s' = dv_c s /\ cont_c s' = cont_c s /\
  (dom (authzr s') : gset string) = dom (authzr s) /\
  (forall d, d ∉ D -> authzr s' !! d = authzr s !! d).

(** The exceptions of [_poll_challenges] over the domains of [D] from
    the state [s]. *)
Definition poll_exception (best_effort : bool) (D : gset string) (s : AuthHandler)
    (e : exn) : Prop :=
  (e = KeyError /\ exists d, d ∈ D /\ authzr s !! d = None) \/
  e = AuthorizationError target_not_found_msg \/
  (best_effort = false /\
   exists d, d ∈ D /\ e = AuthorizationError (failed_procedure_msg d)).

(** Both lists of the handler hold challenges of their own family only. *)
Definition classified (s : AuthHandler) : Prop :=
  Forall is_dv_achall (dv_c s) /\ Forall is_cont_achall (cont_c s).

(** The lists of outstanding challenges only lose members, the rest
    staying in order. *)
Definition shrinks : relation AuthHandler :=
  fun s s' => dv_c s' `sublist_of` dv_c s /\ cont_c s' `sublist_of` cont_c s.

Definition simple_http_achall (dom : string) : AnnotatedChallenge :=
  mkAnnotatedChallenge
    (mkChallengeBody (mkChallenge SimpleHTTP "T") "chall/0" STATUS_PENDING)
    dom (Some (mkKey "keys/a@b.com" "PEM")).

(** A handler in the middle of a run: one DV challenge performed and
    waiting for its answer to be sent. *)
Definition active_handler : AuthHandler :=
  mkAuthHandler {["example.com"%string := scenario_authzr "example.com" STATUS_PENDING]}
    [simple_http_achall "example.com"] [] [].

Definition keeps_classes : relation AuthHandler :=
  fun s s' => classified s -> classified s'.

(** The calls the authorization handler makes: to the network for
    challenges, answers and polls, to the authenticators, and to
    [time.sleep]; not those of [crypto_util] or for issuance. *)
Definition handler_event (e : Event) : bool :=
  match e with
  | EvInitSaveKey | EvInitSaveCsr _ _ | EvRequestIssuance _ _ | EvFetchChain _ => false
  | _ => true
  end.

(** The history grows by calls of the handler's only. *)
Definition handler_only : relation AuthHandler :=
  fun s s' =>
    exists added, trace s' = added ++ trace s /\
                  Forall (fun e => handler_event e = true) added.

End HandlerNotions.

Module AccountNotions.
Import AccountStore.
Import AccountDirectory.

Definition chars (s : string) : list ascii := list_ascii_of_string s.

(** An answer that makes [from_prompts] ask again when key generation
    does not fail: an email is given, and it is not empty and not safe. *)
Definition asks_again (answer : bool * string) : Prop :=
  fst answer = true /\ snd answer <> EmptyString /\ safe_email (snd answer) = false.

(** The email [from_email] gives the account. *)
Definition entered_email (email : string) : option string :=
  if bool_decide (email = EmptyString) then None else Some email.

(** What can go wrong when an account file that exists is loaded: the
    key file is not there, or the stored registration does not parse. *)
Definition load_failure {json : Type} (from_json : json -> res Registration)
    (d : Disk json) (name : string) (e : exn) : Prop :=
  exists cfg,
    accounts_dir json d !! name = Some cfg /\
    ((files json d !! cfg_key json cfg = None /\ e = IOError) \/
     (exists sec, cfg_RegistrationResource json cfg = Some sec /\
                  from_json (sec_body json sec) = Raise e)).

(** A key generator that never raises. *)
Definition fresh_key (made : list string) (name : string) : res Key :=
  Ret (mkKey (String.append "keys/" name) "PEM").

End AccountNotions.

Module ClientNotions.
Import Client.

(** The calls [obtain_certificate] makes once the authorizations are
    in, newest first: a key, a CSR, the request for issuance, and the
    request for the chain when the certificate names one. *)
Definition issuance_calls (cu : Crypto) (tr : list Event) (domains : list string)
    (authzrs : list AuthorizationResource) : list Event :=
  let cert_key := init_save_key cu tr in
  let csr := init_save_csr cu (EvInitSaveKey :: tr) cert_key domains in
  let certr := request_issuance cu (EvInitSaveCsr cert_key domains :: EvInitSaveKey :: tr)
                 (csr_data csr) authzrs in
  match cert_chain_uri_of certr with
  | Some u => [EvFetchChain u]
  | None => []
  end ++
  [EvRequestIssuance (csr_data csr) authzrs; EvInitSaveCsr cert_key domains; EvInitSaveKey].

End ClientNotions.

Module InstallationNotions.
Import Installation.

(** The calls of [redirect_to_ssl] to [enhance], newest first. *)
Definition redirect_calls (domains : list string) : list InstallerEvent :=
  rev ((fun dom => EvEnhance dom "redirect") <$> domains).

(** The calls of [deploy_certificate] to [deploy_cert], newest first. *)
Definition deploy_calls (domains : list string) (cert_path privkey_path : string)
    (chain_path : option string) : list InstallerEvent :=
  rev ((fun dom => EvDeployCert dom cert_path privkey_path chain_path) <$> domains).

(** An installer that can redirect no domain. *)
Definition no_redirect_installer : Installer :=
  mkInstaller (fun _ _ _ _ _ => Ret tt) (fun _ _ _ => Enhanced_configurator_error)
    (fun _ _ => Ret tt) (fun _ => Ret tt).

(** An installer that cannot deploy to [b.test]. *)
Definition failing_installer : Installer :=
  mkInstaller
    (fun _ dom _ _ _ => if bool_decide (dom = "b.test"%string) then Raise IOError else Ret tt)
    (fun _ _ _ => Enhanced_ok) (fun _ _ => Ret tt) (fun _ => Ret tt).

Definition plain_abspath (p : string) : string := String.append "/cwd/" p.

End InstallationNotions.

Module EnrollmentNotions.
Import AccountStore.
Import Enrollment.

(** The account as [register] leaves it once the terms are agreed. *)
Definition agreed_account (acc : Account) (r : RegistrationResource) : Account :=
  mkAccount (key acc) (email acc) (phone acc) (Some r).

End EnrollmentNotions.

Module NginxNotions.
Import NginxConfigurator.

(** The ranks of the wildcard matches: [xrange(2, 6)]. *)
Definition wildcard_rank (r : Z) : Prop := 2 <= r < 6.

Definition name_length (m : Match) : nat := String.length (m_name m).

(** The head of a list is of the least rank in it. *)
Definition least_first (l : list Match) : Prop :=
  match l with
  | [] => True
  | h :: t => forall x, x ∈ t -> m_rank h <= m_rank x
  end.

(** [m] is the choice among [ms], the matches in the order of the
    virtual hosts: no match ranks lower; with a wildcard rank it is the
    first longest name of its rank, otherwise the first of its rank. *)
Definition first_best (ms : list Match) (m : Match) : Prop :=
  exists before after,
    ms = before ++ m :: after /\
    (forall x, x ∈ ms -> m_rank m <= m_rank x) /\
    (wildcard_rank (m_rank m) ->
     (forall x, x ∈ before -> m_rank x = m_rank m -> (name_length x < name_length m)%nat) /\
     (forall x, x ∈ after -> m_rank x = m_rank m -> (name_length x <= name_length m)%nat)) /\
    (~ wildcard_rank (m_rank m) -> forall x, x ∈ before -> m_rank m < m_rank x).

(** A parser that knows exact names and names of the shape [*.rest]. *)
Definition suffix_match (target : string) (names : list string)
    : option (name_type * string) :=
  if bool_decide (target ∈ names) then Some (exact, target)
  else match names with
       | n :: _ => Some (wildcard_start, n)
       | [] => None
       end.

Definition example_vhosts : list VirtualHost :=
  [mkVirtualHost "a.conf" false ["*.w.example.com"%string];
   mkVirtualHost "b.conf" true ["*.com"%string];
   mkVirtualHost "c.conf" true ["*.example.com"%string]].

(** The nginx configurator as the client's installer, with what else
    the installer does left open. *)
Definition nginx_installer
    (choose_vhost : list Installation.InstallerEvent -> string -> res VirtualHost)
    (deploy : list Installation.InstallerEvent -> string -> string -> string ->
              option string -> res unit)
    (save : list Installation.InstallerEvent -> string -> res unit)
    (restart : list Installation.InstallerEvent -> res unit) : Installation.Installer :=
  Installation.mkInstaller deploy
    (fun tr domain enhancement =>
       enhance (choose_vhost tr) initial_enhance_func domain enhancement)
    save restart.

End NginxNotions.

(** * Properties *)

(** ** Python indexing *)

Lemma py_index_is_Some {A : Type} (l : list A) (i : Z) :
  is_Some (py_index l i) <-> index_in_range (length l) i.
Proof.
  unfold py_index, index_in_range.
  destruct (0 <=? i) eqn:Hnonneg.
  - apply Z.leb_le in Hnonneg. rewrite lookup_lt_is_Some. lia.
  - apply Z.leb_gt in Hnonneg.
    destruct (- Z.of_nat (length l) <=? i) eqn:Hlow.
    + apply Z.leb_le in Hlow. rewrite lookup_lt_is_Some. lia.
    + apply Z.leb_gt in Hlow. split; [intros [x Hx]; discriminate | lia].
Qed.

Lemma py_index_None {A : Type} (l : list A) (i : Z) :
  py_index l i = None <-> ~ index_in_range (length l) i.
Proof.
  rewrite <- py_index_is_Some, <- eq_None_not_Some. reflexivity.
Qed.

(** ** The smart path *)

Module PlannerFacts.
Import Planner.
Import PlannerSpec.

Lemma rank_loop_spec preferences : forall i chall_cost max_cost,
  rank_loop i preferences chall_cost max_cost =
  (fst (rank_loop i preferences chall_cost max_cost),
   max_cost + spec_sum_ranks i preferences) /\
  forall k, fst (rank_loop i preferences chall_cost max_cost) !! k =
            match spec_rank_from i preferences k with
            | Some j => Some j
            | None => chall_cost !! k
            end.
Proof.
  induction preferences as [|p rest IH]; intros i cc mc; simpl.
  - split; [f_equal; lia | reflexivity].
  - destruct (IH (i + 1) (<[p := i]> cc) (mc + i)) as [Heq Hlk]. split.
    + rewrite Heq at 1. simpl. f_equal. lia.
    + intros k. rewrite Hlk.
      destruct (spec_rank_from (i + 1) rest k); [reflexivity|].
      destruct (decide (p = k)) as [->|Hne].
      * apply lookup_insert_eq.
      * apply lookup_insert_ne. exact Hne.
Qed.

Lemma rank_loop_table preferences :
  rank_loop 0 preferences ∅ 1 =
  (fst (rank_loop 0 preferences ∅ 1), spec_max_cost preferences) /\
  forall k, fst (rank_loop 0 preferences ∅ 1) !! k = spec_rank preferences k.
Proof.
  destruct (rank_loop_spec preferences 0 ∅ 1) as [Heq Hlk]. split.
  - rewrite Heq at 1. simpl. f_equal. unfold spec_max_cost. lia.
  - intros k. rewrite Hlk. unfold spec_rank.
    destruct (spec_rank_from 0 preferences k); [reflexivity | apply lookup_empty].
Qed.

(** A rank is a position of the class in the list, and the only one when
    the list does not repeat it. *)
Lemma spec_rank_from_position preferences : forall i k j,
  spec_rank_from i preferences k = Some j ->
  i <= j /\ preferences !! Z.to_nat (j - i) = Some k.
Proof.
  induction preferences as [|p rest IH]; intros i k j; simpl; [discriminate|].
  destruct (spec_rank_from (i + 1) rest k) as [j'|] eqn:Hrest.
  - intros [= <-]. destruct (IH _ _ _ Hrest) as [Hle Hlk]. split; [lia|].
    replace (Z.to_nat (j' - i)) with (S (Z.to_nat (j' - (i + 1)))) by lia. exact Hlk.
  - destruct (decide (p = k)) as [->|]; [|discriminate].
    intros [= <-]. split; [lia|]. replace (Z.to_nat (i - i)) with O by lia. reflexivity.
Qed.

Lemma spec_rank_from_None preferences : forall i k,
  spec_rank_from i preferences k = None <-> k ∉ preferences.
Proof.
  induction preferences as [|p rest IH]; intros i k; simpl.
  - split; [intros _; apply not_elem_of_nil | reflexivity].
  - rewrite not_elem_of_cons.
    destruct (spec_rank_from (i + 1) rest k) as [j|] eqn:Hrest.
    + split; [discriminate|]. intros [_ Hnot]. apply (IH (i + 1)) in Hnot. congruence.
    + apply IH in Hrest. destruct (decide (p = k)) as [->|Hne].
      * split; [discriminate | intros [Hk _]; congruence].
      * split; [intros _; split; [congruence | exact Hrest] | reflexivity].
Qed.

Lemma spec_rank_position preferences k j :
  spec_rank preferences k = Some j ->
  0 <= j /\ preferences !! Z.to_nat j = Some k.
Proof.
  intros H. apply spec_rank_from_position in H. destruct H as [Hle Hlk].
  split; [exact Hle|]. replace (j - 0) with j in Hlk by lia. exact Hlk.
Qed.

Lemma spec_rank_unsupported preferences k :
  spec_rank preferences k = None <-> k ∉ preferences.
Proof. apply spec_rank_from_None. Qed.

Lemma combo_loop_cost challbs preferences combo : forall total,
  (forall i, i ∈ combo -> index_in_range (length challbs) i) ->
  combo_loop challbs (fst (rank_loop 0 preferences ∅ 1)) (spec_max_cost preferences)
    combo total = Ret (total + spec_combo_cost challbs preferences combo).
Proof.
  induction combo as [|i rest IH]; intros total Hrange; simpl.
  - f_equal. lia.
  - assert (Hi : is_Some (py_index challbs i)).
    { apply py_index_is_Some, Hrange. left. }
    destruct Hi as [cb Hcb]. rewrite Hcb.
    rewrite IH by (intros j Hj; apply Hrange; right; exact Hj).
    f_equal. unfold spec_chall_cost.
    destruct (rank_loop_table preferences) as [_ Hlk]. rewrite Hlk. lia.
Qed.

Lemma combo_loop_fault challbs chall_cost max_cost combo : forall total,
  match combo_loop challbs chall_cost max_cost combo total with
  | Ret _ => forall i, i ∈ combo -> index_in_range (length challbs) i
  | Raise e => e = IndexError /\ exists i, i ∈ combo /\ ~ index_in_range (length challbs) i
  end.
Proof.
  induction combo as [|i rest IH]; intros total; simpl.
  - intros i Hi. apply elem_of_nil in Hi. contradiction.
  - destruct (py_index challbs i) as [cb|] eqn:Hcb.
    + specialize (IH (total + default max_cost (chall_cost !! class_of (chall cb)))).
      destruct (combo_loop _ _ _ rest _).
      * intros j Hj. apply elem_of_cons in Hj. destruct Hj as [->|Hj].
        -- apply py_index_is_Some. eauto.
        -- apply IH, Hj.
      * destruct IH as [-> [j [Hj Hout]]]. split; [reflexivity|].
        exists j. split; [right; exact Hj | exact Hout].
    + split; [reflexivity|]. exists i. split; [left|]. apply py_index_None, Hcb.
Qed.

Lemma combinations_loop_fault challbs chall_cost max_cost combos : forall best best_cost,
  match combinations_loop challbs chall_cost max_cost combos best best_cost with
  | Ret _ => combos_in_range challbs combos
  | Raise e => e = IndexError /\
               exists combo i, combo ∈ combos /\ i ∈ combo /\
                               ~ index_in_range (length challbs) i
  end.
Proof.
  induction combos as [|combo rest IH]; intros best best_cost; simpl.
  - intros combo i Hc. apply elem_of_nil in Hc. contradiction.
  - pose proof (combo_loop_fault challbs chall_cost max_cost combo 0) as Hcombo.
    destruct (combo_loop challbs chall_cost max_cost combo 0) as [total|e].
    + assert (Hstep : forall b c,
        match combinations_loop challbs chall_cost max_cost rest b c with
        | Ret _ => combos_in_range challbs (combo :: rest)
        | Raise e => e = IndexError /\
                     exists combo0 i, combo0 ∈ combo :: rest /\ i ∈ combo0 /\
                                      ~ index_in_range (length challbs) i
        end).
      { intros b c. specialize (IH b c).
        destruct (combinations_loop challbs chall_cost max_cost rest b c).
        - intros combo0 i Hc Hi. apply elem_of_cons in Hc. destruct Hc as [->|Hc].
          + apply Hcombo, Hi.
          + eapply IH; eauto.
        - destruct IH as [-> [combo0 [i [Hc [Hi Hout]]]]]. split; [reflexivity|].
          exists combo0, i. split; [right; exact Hc | auto]. }
      destruct (total <? best_cost); apply Hstep.
    + destruct Hcombo as [-> [i [Hi Hout]]]. split; [reflexivity|].
      exists combo, i. split; [left | auto].
Qed.

Lemma smart_path_outcomes challbs preferences combos :
  match _find_smart_path challbs preferences combos with
  | Ret best => combos_in_range challbs combos
  | Raise e =>
      (e = AuthorizationError no_combination_msg /\ combos_in_range challbs combos) \/
      (e = IndexError /\
       exists combo i, combo ∈ combos /\ i ∈ combo /\ ~ index_in_range (length challbs) i)
  end.
Proof.
  unfold _find_smart_path.
  destruct (rank_loop 0 preferences ∅ 1) as [chall_cost max_cost].
  pose proof (combinations_loop_fault challbs chall_cost max_cost combos [] max_cost) as H.
  destruct (combinations_loop challbs chall_cost max_cost combos [] max_cost) as [[best c]|e].
  - destruct best; [left; split; [reflexivity | exact H] | exact H].
  - right. exact H.
Qed.

Lemma combinations_loop_best challbs preferences combos : forall best best_cost,
  combos_in_range challbs combos ->
  exists best' cost',
    combinations_loop challbs (fst (rank_loop 0 preferences ∅ 1))
      (spec_max_cost preferences) combos best best_cost = Ret (best', cost') /\
    ((best' = best /\ cost' = best_cost /\
      forall c, c ∈ combos -> best_cost <= spec_combo_cost challbs preferences c) \/
     (exists pre post,
        combos = pre ++ best' :: post /\
        cost' = spec_combo_cost challbs preferences best' /\
        cost' < best_cost /\
        (forall c, c ∈ pre -> cost' < spec_combo_cost challbs preferences c) /\
        (forall c, c ∈ post -> cost' <= spec_combo_cost challbs preferences c))).
Proof.
  induction combos as [|combo rest IH]; intros best best_cost Hrange; simpl.
  - exists best, best_cost. split; [reflexivity|]. left.
    repeat split. intros c Hc. apply elem_of_nil in Hc. contradiction.
  - rewrite combo_loop_cost by (intros i Hi; eapply Hrange; [left | exact Hi]).
    rewrite Z.add_0_l. set (total := spec_combo_cost challbs preferences combo).
    assert (Hrest : combos_in_range challbs rest).
    { intros c i Hc Hi. eapply Hrange; [right; exact Hc | exact Hi]. }
    destruct (total <? best_cost) eqn:Hlt.
    + apply Z.ltb_lt in Hlt.
      destruct (IH combo total Hrest) as [b [c [Heq Hcase]]].
      exists b, c. split; [exact Heq|]. right.
      destruct Hcase as [[-> [-> Hall]] | [pre [post [-> [Hc [Hlt' [Hpre Hpost]]]]]]].
      * exists [], rest. repeat split; auto.
        intros c Hc. apply elem_of_nil in Hc. contradiction.
      * exists (combo :: pre), post. repeat split; auto; [lia|].
        intros c' Hc'. apply elem_of_cons in Hc'. destruct Hc' as [->|Hc']; [exact Hlt'|auto].
    + apply Z.ltb_ge in Hlt.
      destruct (IH best best_cost Hrest) as [b [c [Heq Hcase]]].
      exists b, c. split; [exact Heq|].
      destruct Hcase as [[-> [-> Hall]] | [pre [post [-> [Hc [Hlt' [Hpre Hpost]]]]]]].
      * left. repeat split. intros c Hc. apply elem_of_cons in Hc.
        destruct Hc as [->|Hc]; [exact Hlt | auto].
      * right. exists (combo :: pre), post. repeat split; auto.
        intros c' Hc'. apply elem_of_cons in Hc'.
        destruct Hc' as [->|Hc']; [fold total; lia | auto].
Qed.

Lemma combos_in_range_check challbs combos :
  forallb (forallb (index_in_rangeb (length challbs))) combos = true ->
  combos_in_range challbs combos.
Proof.
  intros H combo i Hc Hi.
  rewrite forallb_forall in H. apply list_elem_of_In in Hc. specialize (H _ Hc).
  rewrite forallb_forall in H. apply list_elem_of_In in Hi. specialize (H _ Hi).
  unfold index_in_rangeb in H. apply andb_true_iff in H. destruct H as [H1 H2].
  apply Z.leb_le in H1. apply Z.ltb_lt in H2. split; assumption.
Qed.

Lemma nonempty_check (combos : list (list Z)) :
  forallb (fun c => negb (bool_decide (c = []))) combos = true ->
  forall combo, combo ∈ combos -> combo <> [].
Proof.
  intros H combo Hc. rewrite forallb_forall in H.
  apply list_elem_of_In in Hc. specialize (H _ Hc).
  apply negb_true_iff, bool_decide_eq_false in H. exact H.
Qed.

(** ** The dumb path *)

Lemma conflicting_sym groups c1 c2 :
  conflicting groups c1 c2 -> conflicting groups c2 c1.
Proof.
  intros [g [Hg [H1 [H2 Hne]]]]. exists g. repeat split; auto.
Qed.

Lemma conflicting_irrefl groups c : ~ conflicting groups c c.
Proof. intros [g [_ [_ [_ Hne]]]]. apply Hne. reflexivity. Qed.

Lemma group_loop_hit obj1 obj2 group : forall p1 p2,
  typ obj1 <> typ obj2 ->
  p1 = true \/ in_group obj1 group ->
  p2 = true \/ in_group obj2 group ->
  group <> [] ->
  group_loop obj1 obj2 true group p1 p2 = true.
Proof.
  induction group as [|k rest IH]; intros p1 p2 Hne H1 H2 Hnil; [congruence|].
  cbn [group_loop].
  assert (Hcond : negb (isinstance obj1 (class_of obj2)) = true).
  { unfold class_of. simpl. apply negb_true_iff, bool_decide_eq_false. exact Hne. }
  rewrite Hcond. cbn [negb orb].
  destruct ((p1 || isinstance obj1 k) && (p2 || isinstance obj2 k) && true) eqn:Hnow;
    [reflexivity|].
  assert (Hp1 : p1 || isinstance obj1 k = true \/ in_group obj1 rest).
  { destruct H1 as [->|[k' [Hk' Hi]]]; [left; reflexivity|].
    apply elem_of_cons in Hk'. destruct Hk' as [->|Hk'].
    - left. rewrite Hi. apply orb_true_r.
    - right. exists k'. auto. }
  assert (Hp2 : p2 || isinstance obj2 k = true \/ in_group obj2 rest).
  { destruct H2 as [->|[k' [Hk' Hi]]]; [left; reflexivity|].
    apply elem_of_cons in Hk'. destruct Hk' as [->|Hk'].
    - left. rewrite Hi. apply orb_true_r.
    - right. exists k'. auto. }
  destruct rest as [|k2 rest'].
  - exfalso.
    assert (E1 : p1 || isinstance obj1 k = true).
    { destruct Hp1 as [E|[k' [Hk' _]]]; [exact E | apply elem_of_nil in Hk'; contradiction]. }
    assert (E2 : p2 || isinstance obj2 k = true).
    { destruct Hp2 as [E|[k' [Hk' _]]]; [exact E | apply elem_of_nil in Hk'; contradiction]. }
    rewrite E1, E2 in Hnow. discriminate.
  - apply IH; auto; discriminate.
Qed.

Lemma mutually_exclusive_sound obj1 obj2 groups :
  mutually_exclusive obj1 obj2 groups true = true ->
  ~ conflicting groups obj1 obj2.
Proof.
  induction groups as [|g rest IH]; simpl; intros Hme [g' [Hg' [H1 [H2 Hne]]]].
  - apply elem_of_nil in Hg'. contradiction.
  - destruct (group_loop obj1 obj2 true g false false) eqn:Hloop; [discriminate|].
    apply elem_of_cons in Hg'. destruct Hg' as [->|Hg'].
    + assert (Hnil : g <> []).
      { destruct H1 as [k [Hk _]]. intros ->. apply elem_of_nil in Hk. contradiction. }
      rewrite group_loop_hit in Hloop by auto. discriminate.
    + apply IH; [exact Hme|]. exists g'. auto.
Qed.

Lemma is_preferred_sound offered satisfied groups :
  is_preferred offered satisfied groups = true ->
  forall cb, cb ∈ satisfied -> ~ conflicting groups (chall offered) (chall cb).
Proof.
  induction satisfied as [|cb0 rest IH]; simpl; intros Hpref cb Hcb.
  - apply elem_of_nil in Hcb. contradiction.
  - destruct (mutually_exclusive (chall offered) (chall cb0) groups true) eqn:Hme;
      simpl in Hpref; [|discriminate].
    apply elem_of_cons in Hcb. destruct Hcb as [->|Hcb].
    + apply mutually_exclusive_sound, Hme.
    + apply IH; assumption.
Qed.

Lemma elem_of_set_add x y s : y ∈ set_add x s <-> y = x \/ y ∈ s.
Proof.
  unfold set_add. destruct (decide (x ∈ s)) as [Hin|Hnot].
  - split; [auto|]. intros [->|H]; assumption.
  - rewrite elem_of_app, list_elem_of_singleton. tauto.
Qed.

Lemma offered_loop_invariant groups challbs pref_c suffix : forall i path satisfied,
  (forall j cb, suffix !! j = Some cb -> challbs !! (i + j)%nat = Some cb) ->
  path_invariant groups challbs path satisfied ->
  path_invariant groups challbs
    (fst (offered_loop groups pref_c i suffix path satisfied))
    (snd (offered_loop groups pref_c i suffix path satisfied)).
Proof.
  induction suffix as [|cb rest IH]; intros i path satisfied Hsuf Hinv; simpl; [exact Hinv|].
  assert (Hrest : forall j cb', rest !! j = Some cb' -> challbs !! (S i + j)%nat = Some cb').
  { intros j cb' Hj. replace (S i + j)%nat with (i + S j)%nat by lia. apply Hsuf. exact Hj. }
  destruct (isinstance (chall cb) pref_c && is_preferred cb satisfied groups) eqn:Hsel.
  - apply IH; [exact Hrest|].
    apply andb_true_iff in Hsel. destruct Hsel as [_ Hpref].
    pose proof (is_preferred_sound _ _ _ Hpref) as Hok.
    destruct Hinv as [Hpath Hsat]. split.
    + intros k Hk. apply elem_of_app in Hk. destruct Hk as [Hk|Hk].
      * destruct (Hpath k Hk) as [cb' [Hlk Hin]]. exists cb'. split; [exact Hlk|].
        apply elem_of_set_add. right. exact Hin.
      * apply list_elem_of_singleton in Hk. subst k. exists cb. split.
        -- replace i with (i + 0)%nat by lia. apply Hsuf. reflexivity.
        -- apply elem_of_set_add. left. reflexivity.
    + intros a b Ha Hb. apply elem_of_set_add in Ha. apply elem_of_set_add in Hb.
      destruct Ha as [->|Ha], Hb as [->|Hb].
      * apply conflicting_irrefl.
      * apply Hok, Hb.
      * intros Hc. apply conflicting_sym in Hc. revert Hc. apply Hok, Ha.
      * apply Hsat; assumption.
  - apply IH; [exact Hrest | exact Hinv].
Qed.

Lemma preferences_loop_invariant groups challbs preferences : forall path satisfied,
  path_invariant groups challbs path satisfied ->
  path_invariant groups challbs
    (fst (preferences_loop groups preferences challbs path satisfied))
    (snd (preferences_loop groups preferences challbs path satisfied)).
Proof.
  induction preferences as [|pref_c rest IH]; intros path satisfied Hinv; simpl; [exact Hinv|].
  pose proof (offered_loop_invariant groups challbs pref_c challbs 0 path satisfied
                (fun j cb H => H) Hinv) as Hstep.
  destruct (offered_loop groups pref_c 0 challbs path satisfied) as [path' satisfied'].
  apply IH. exact Hstep.
Qed.

Example smart_path_scenario :
  _find_smart_path offered_example preferences_example combinations_example = Ret [0; 2].
Proof. vm_compute. reflexivity. Qed.

(** C4, as amended. When every index of every combination is in range
    and no combination is empty, the smart path charges each combination
    the sum of the ranks of its challenges' variants, [max_cost] (the sum
    of all ranks plus one) for a variant no preference names; it returns
    the first combination of strictly least cost, provided that cost is
    below [max_cost], and raises [AuthorizationError] exactly when no
    combination costs less than [max_cost]. *)
Theorem smart_path_least_cost challbs preferences combos :
  combos_in_range challbs combos ->
  (forall combo, combo ∈ combos -> combo <> []) ->
  snd (rank_loop 0 preferences ∅ 1) = spec_max_cost preferences /\
  (forall combo, combo ∈ combos ->
     combo_loop challbs (fst (rank_loop 0 preferences ∅ 1))
       (snd (rank_loop 0 preferences ∅ 1)) combo 0 =
     Ret (spec_combo_cost challbs preferences combo)) /\
  match _find_smart_path challbs preferences combos with
  | Ret best =>
      exists pre post,
        combos = pre ++ best :: post /\
        spec_combo_cost challbs preferences best < spec_max_cost preferences /\
        (forall c, c ∈ pre ->
           spec_combo_cost challbs preferences best < spec_combo_cost challbs preferences c) /\
        (forall c, c ∈ post ->
           spec_combo_cost challbs preferences best <= spec_combo_cost challbs preferences c)
  | Raise e =>
      e = AuthorizationError no_combination_msg /\
      forall c, c ∈ combos ->
        spec_max_cost preferences <= spec_combo_cost challbs preferences c
  end /\
  ((exists msg, _find_smart_path challbs preferences combos = Raise (AuthorizationError msg)) <->
   (forall c, c ∈ combos ->
      spec_max_cost preferences <= spec_combo_cost challbs preferences c)).
Proof.
  intros Hrange Hnonempty.
  destruct (rank_loop_table preferences) as [Htable _].
  assert (Hmax : snd (rank_loop 0 preferences ∅ 1) = spec_max_cost preferences).
  { rewrite Htable. reflexivity. }
  assert (Hmain :
    match _find_smart_path challbs preferences combos with
    | Ret best =>
        exists pre post,
          combos = pre ++ best :: post /\
          spec_combo_cost challbs preferences best < spec_max_cost preferences /\
          (forall c, c ∈ pre ->
             spec_combo_cost challbs preferences best < spec_combo_cost challbs preferences c) /\
          (forall c, c ∈ post ->
             spec_combo_cost challbs preferences best <= spec_combo_cost challbs preferences c)
    | Raise e =>
        e = AuthorizationError no_combination_msg /\
        forall c, c ∈ combos ->
          spec_max_cost preferences <= spec_combo_cost challbs preferences c
    end).
  { unfold _find_smart_path. rewrite Htable.
    destruct (combinations_loop_best challbs preferences combos [] (spec_max_cost preferences)
                Hrange) as [best [cost [Heq Hcase]]].
    rewrite Heq.
    destruct Hcase as [[-> [-> Hall]] | [pre [post [Hsplit [-> [Hlt [Hpre Hpost]]]]]]].
    - split; [reflexivity | exact Hall].
    - destruct best as [|i best'].
      + exfalso. apply (Hnonempty []); [|reflexivity].
        rewrite Hsplit. apply elem_of_app. right. left.
      + exists pre, post. auto. }
  split; [exact Hmax|]. split.
  - intros combo Hc. rewrite Hmax.
    rewrite combo_loop_cost by (intros i Hi; eapply Hrange; eauto).
    reflexivity.
  - split; [exact Hmain|]. split.
    + intros [msg Hraise]. rewrite Hraise in Hmain. apply Hmain.
    + intros Hall. destruct (_find_smart_path challbs preferences combos) as [best|e].
      * exfalso. destruct Hmain as [pre [post [Hsplit [Hlt _]]]].
        assert (Hin : best ∈ combos).
        { rewrite Hsplit. apply elem_of_app. right. left. }
        specialize (Hall _ Hin). lia.
      * destruct Hmain as [-> _]. eauto.
Qed.

Lemma smart_path_least_cost_witness :
  combos_in_range offered_example combinations_example /\
  (forall combo, combo ∈ combinations_example -> combo <> []) /\
  match _find_smart_path offered_example preferences_example combinations_example with
  | Ret best =>
      exists pre post,
        combinations_example = pre ++ best :: post /\
        spec_combo_cost offered_example preferences_example best <
          spec_max_cost preferences_example /\
        (forall c, c ∈ pre ->
           spec_combo_cost offered_example preferences_example best <
           spec_combo_cost offered_example preferences_example c) /\
        (forall c, c ∈ post ->
           spec_combo_cost offered_example preferences_example best <=
           spec_combo_cost offered_example preferences_example c)
  | Raise e =>
      e = AuthorizationError no_combination_msg /\
      forall c, c ∈ combinations_example ->
        spec_max_cost preferences_example <=
        spec_combo_cost offered_example preferences_example c
  end.
Proof.
  assert (H1 : combos_in_range offered_example combinations_example).
  { apply combos_in_range_check. vm_compute. reflexivity. }
  assert (H2 : forall combo, combo ∈ combinations_example -> combo <> []).
  { apply nonempty_check. vm_compute. reflexivity. }
  split; [exact H1|]. split; [exact H2|].
  apply (smart_path_least_cost offered_example preferences_example combinations_example H1 H2).
Defined.

(** C4 as stated fails: with an empty combination first among the
    cheapest, [AuthorizationError] is raised although a combination costs
    less than [max_cost]; and an index out of range ends the call with
    [IndexError], neither a combination nor an [AuthorizationError]. *)
Lemma smart_path_least_cost_counterexample :
  ~ ((exists msg,
        _find_smart_path [offered SimpleHTTP "T"] [Concrete SimpleHTTP] [[]; [0]] =
        Raise (AuthorizationError msg)) <->
     (forall c, c ∈ [[]; [0]] ->
        spec_max_cost [Concrete SimpleHTTP] <=
        spec_combo_cost [offered SimpleHTTP "T"] [Concrete SimpleHTTP] c)) /\
  _find_smart_path [offered SimpleHTTP "T"] [Concrete SimpleHTTP] [[1]] = Raise IndexError.
Proof.
  split; [|vm_compute; reflexivity].
  intros [Hforward _].
  assert (Hraise : exists msg,
            _find_smart_path [offered SimpleHTTP "T"] [Concrete SimpleHTTP] [[]; [0]] =
            Raise (AuthorizationError msg)).
  { eexists. vm_compute. reflexivity. }
  specialize (Hforward Hraise [0]).
  assert (Hin : [0] ∈ [[]; [0]]) by (right; left).
  specialize (Hforward Hin). vm_compute in Hforward. apply Hforward. reflexivity.
Qed.

(** C10. The smart path ends in [IndexError] exactly when some index of
    some combination is outside the offered sequence; so it yields a
    result only when every index is below the number of offered
    challenges, and an index at or past that number makes it fault. *)
Theorem smart_path_index_fault :
  (forall challbs preferences combos,
     _find_smart_path challbs preferences combos = Raise IndexError <->
     exists combo i, combo ∈ combos /\ i ∈ combo /\ ~ index_in_range (length challbs) i) /\
  (forall challbs preferences combos,
     _find_smart_path challbs preferences combos <> Raise IndexError ->
     forall combo i, combo ∈ combos -> i ∈ combo -> i < Z.of_nat (length challbs)) /\
  _find_smart_path offered_example preferences_example [[0; 3]] = Raise IndexError.
Proof.
  assert (Hiff : forall challbs preferences combos,
     _find_smart_path challbs preferences combos = Raise IndexError <->
     exists combo i, combo ∈ combos /\ i ∈ combo /\ ~ index_in_range (length challbs) i).
  { intros challbs preferences combos.
    pose proof (smart_path_outcomes challbs preferences combos) as H.
    destruct (_find_smart_path challbs preferences combos) as [best|e].
    - split; [discriminate|]. intros [combo [i [Hc [Hi Hout]]]].
      exfalso. apply Hout. eapply H; eauto.
    - destruct H as [[-> Hin] | [-> Hex]].
      + split; [discriminate|]. intros [combo [i [Hc [Hi Hout]]]].
        exfalso. apply Hout. eapply Hin; eauto.
      + split; [intros _; exact Hex | reflexivity]. }
  split; [exact Hiff|]. split; [|vm_compute; reflexivity].
  intros challbs preferences combos Hok combo i Hc Hi.
  destruct (decide (i < Z.of_nat (length challbs))) as [Hlt|Hge]; [exact Hlt|].
  exfalso. apply Hok, Hiff. exists combo, i. repeat split; auto.
  unfold index_in_range. lia.
Qed.

Lemma smart_path_index_fault_witness :
  _find_smart_path offered_example preferences_example combinations_example <> Raise IndexError /\
  forall combo i, combo ∈ combinations_example -> i ∈ combo ->
    i < Z.of_nat (length offered_example).
Proof.
  assert (H : _find_smart_path offered_example preferences_example combinations_example
              <> Raise IndexError) by (vm_compute; discriminate).
  split; [exact H|].
  exact (proj1 (proj2 smart_path_index_fault) offered_example preferences_example
           combinations_example H).
Defined.

Example dumb_path_scenario :
  gen_challenge_path groups_example dumb_offered_example dumb_preferences_example [] =
  Ret [1; 2].
Proof. vm_compute. reflexivity. Qed.

(** C5. For a preference list without repetition and no combinations,
    the planner takes the dumb path, which returns a selection no two
    members of which are mutually exclusive: no configured exclusive
    group holds two selected challenges of different variants. *)
Theorem dumb_path_no_mutually_exclusive groups challbs preferences :
  NoDup preferences ->
  exists path,
    gen_challenge_path groups challbs preferences [] = Ret path /\
    forall i j ci cj,
      i ∈ path -> j ∈ path ->
      py_index challbs i = Some ci -> py_index challbs j = Some cj ->
      ~ conflicting groups (chall ci) (chall cj).
Proof.
  intros Hnodup. unfold gen_challenge_path, _find_dumb_path.
  rewrite bool_decide_eq_true_2 by exact Hnodup.
  eexists. split; [reflexivity|].
  assert (Hinit : path_invariant groups challbs [] []).
  { split; [intros i H | intros a b H _]; apply elem_of_nil in H; contradiction. }
  pose proof (preferences_loop_invariant groups challbs preferences [] [] Hinit) as [Hpath Hsat].
  intros i j ci cj Hi Hj Hci Hcj.
  apply list_elem_of_fmap in Hi. destruct Hi as [ni [-> Hni]].
  apply list_elem_of_fmap in Hj. destruct Hj as [nj [-> Hnj]].
  unfold py_index in Hci, Hcj.
  rewrite (proj2 (Z.leb_le 0 (Z.of_nat ni))) in Hci by lia.
  rewrite (proj2 (Z.leb_le 0 (Z.of_nat nj))) in Hcj by lia.
  rewrite Nat2Z.id in Hci, Hcj.
  destruct (Hpath ni Hni) as [ci' [Hlki Hini]].
  destruct (Hpath nj Hnj) as [cj' [Hlkj Hinj]].
  assert (ci' = ci) by congruence. assert (cj' = cj) by congruence. subst.
  apply Hsat; assumption.
Qed.

Lemma dumb_path_no_mutually_exclusive_witness :
  NoDup dumb_preferences_example /\
  exists path,
    gen_challenge_path groups_example dumb_offered_example dumb_preferences_example [] =
    Ret path /\
    forall i j ci cj,
      i ∈ path -> j ∈ path ->
      py_index dumb_offered_example i = Some ci ->
      py_index dumb_offered_example j = Some cj ->
      ~ conflicting groups_example (chall ci) (chall cj).
Proof.
  assert (H : NoDup dumb_preferences_example).
  { apply (bool_decide_unpack (NoDup dumb_preferences_example)). vm_compute. exact I. }
  split; [exact H|].
  apply (dumb_path_no_mutually_exclusive groups_example dumb_offered_example
           dumb_preferences_example H).
Defined.

End PlannerFacts.

(** ** The handler: what each operation leaves alone *)

Module HandlerFacts.
Import Handler.
Import HandlerSpec.

Lemma bind_Some {A B : Type} (m : M A) (k : A -> M B) s r s' :
  bind m k s = Some (r, s') ->
  (exists a s1, m s = Some (Ret a, s1) /\ k a s1 = Some (r, s')) \/
  (exists e, m s = Some (Raise e, s') /\ r = Raise e).
Proof.
  unfold bind. destruct (m s) as [[[a|e] s1]|]; intros H.
  - left. eauto.
  - right. inversion H; subst. eauto.
  - discriminate.
Qed.

Lemma bind_Ret {A B : Type} (m : M A) (k : A -> M B) s b s' :
  bind m k s = Some (Ret b, s') ->
  exists a s1, m s = Some (Ret a, s1) /\ k a s1 = Some (Ret b, s').
Proof.
  intros H. apply bind_Some in H. destruct H as [H|[e [_ H]]]; [exact H | discriminate].
Qed.

Lemma total_bind {A B : Type} (m : M A) (k : A -> M B) :
  total m -> (forall a, total (k a)) -> total (bind m k).
Proof.
  intros Hm Hk s. unfold bind. destruct (Hm s) as [[[a|e] s1] ->]; [apply Hk | eauto].
Qed.

Lemma total_for_each {A : Type} (l : list A) (body : A -> M unit) :
  (forall x, total (body x)) -> total (for_each l body).
Proof.
  intros Hbody. induction l as [|x l IH]; simpl.
  - intros s. eexists. reflexivity.
  - apply total_bind; [apply Hbody | intros _; exact IH].
Qed.

Lemma list_remove_lookup {A : Type} `{EqDecision A} (l : list A) : forall i x,
  l !! i = Some x -> is_Some (list_remove x l).
Proof.
  induction l as [|y l IH]; intros i x Hlk; [discriminate|]. simpl.
  destruct (decide (x = y)); [eauto|].
  destruct i as [|i]; simpl in Hlk; [congruence|].
  destruct (IH _ _ Hlk) as [r ->]. eauto.
Qed.

Lemma list_remove_length {A : Type} `{EqDecision A} (x : A) (l : list A) : forall l',
  list_remove x l = Some l' -> length l = S (length l').
Proof.
  induction l as [|y l IH]; intros l'; simpl; [discriminate|].
  destruct (decide (x = y)).
  - intros [= <-]. reflexivity.
  - destruct (list_remove x l) as [r|]; [|discriminate].
    intros [= <-]. simpl. f_equal. apply IH. reflexivity.
Qed.

(** The budget of [length l] rounds is never what stops the walk: any
    larger budget gives the same list. *)
Lemma remove_while_iterating_budget {A : Type} `{EqDecision A} (n : nat) :
  forall m i (l : list A),
    (length l <= n + i)%nat -> (length l <= m + i)%nat ->
    remove_while_iterating n i l = remove_while_iterating m i l.
Proof.
  induction n as [|n IH]; intros m i l Hn Hm.
  - simpl. destruct m as [|m]; [reflexivity|]. simpl.
    rewrite (proj2 (lookup_ge_None l i)) by lia. reflexivity.
  - simpl. destruct (l !! i) as [x|] eqn:Hlk.
    + apply lookup_lt_Some in Hlk as Hlt.
      destruct m as [|m]; [simpl in Hm; lia|]. simpl. rewrite Hlk.
      destruct (list_remove x l) as [l'|] eqn:Hrm; [|reflexivity].
      apply list_remove_length in Hrm. apply IH; lia.
    + destruct m as [|m]; simpl; [reflexivity | rewrite Hlk; reflexivity].
Qed.

(** Removing what the iterator itself yields never fails. *)
Lemma remove_while_iterating_Ret {A : Type} `{EqDecision A} (rounds : nat) :
  forall i (l : list A), exists l', remove_while_iterating rounds i l = Ret l'.
Proof.
  induction rounds as [|n IH]; intros i l; simpl; [eauto|].
  destruct (l !! i) as [x|] eqn:Hlk; [|eauto].
  destruct (list_remove_lookup l i x Hlk) as [l' ->]. apply IH.
Qed.

Section Frame.

Variable R : relation AuthHandler.
Context `{!PreOrder R}.
Variable sleep_ok : bool.

Hypothesis R_trace : forall s e,
  (is_sleep e = true -> sleep_ok = true) ->
  R s (mkAuthHandler (authzr s) (dv_c s) (cont_c s) (e :: trace s)).
Hypothesis R_dv_c : forall s l,
  R s (mkAuthHandler (authzr s) l (cont_c s) (trace s)).
Hypothesis R_cont_c : forall s l,
  R s (mkAuthHandler (authzr s) (dv_c s) l (trace s)).
Hypothesis R_authzr : forall s d a,
  is_Some (authzr s !! d) ->
  R s (mkAuthHandler (<[d := a]> (authzr s)) (dv_c s) (cont_c s) (trace s)).

Variable w : World.
Variable account : Account.

Lemma ensures_ret {A : Type} (a : A) : ensures R (ret a).
Proof. intros s r s' [= <- <-]. reflexivity. Qed.

Lemma ensures_raise {A : Type} (e : exn) : ensures R (@raise A e).
Proof. intros s r s' [= <- <-]. reflexivity. Qed.

Lemma ensures_lift {A : Type} (x : res A) : ensures R (lift x).
Proof. intros s r s' [= <- <-]. reflexivity. Qed.

Lemma ensures_get_state : ensures R get_state.
Proof. intros s r s' [= <- <-]. reflexivity. Qed.

Lemma ensures_get_authzr d : ensures R (get_authzr d).
Proof.
  intros s r s'. unfold get_authzr.
  destruct (authzr s !! d); intros [= <- <-]; reflexivity.
Qed.

Lemma ensures_diverge {A : Type} : ensures R (fun _ => @None (res A * AuthHandler)).
Proof. intros s r s' H. discriminate. Qed.

Lemma ensures_emit e :
  (is_sleep e = true -> sleep_ok = true) -> ensures R (emit e).
Proof. intros He s r s' [= <- <-]. apply R_trace, He. Qed.

Lemma ensures_set_dv_c l : ensures R (set_dv_c l).
Proof. intros s r s' [= <- <-]. apply R_dv_c. Qed.

Lemma ensures_set_cont_c l : ensures R (set_cont_c l).
Proof. intros s r s' [= <- <-]. apply R_cont_c. Qed.

Lemma ensures_bind {A B : Type} (m : M A) (k : A -> M B) :
  ensures R m -> (forall a, ensures R (k a)) -> ensures R (bind m k).
Proof.
  intros Hm Hk s r s' H. apply bind_Some in H.
  destruct H as [[a [s1 [H1 H2]]] | [e [H1 _]]].
  - transitivity s1; [eapply Hm | eapply Hk]; eauto.
  - eapply Hm; eauto.
Qed.

Lemma ensures_for_each {A : Type} (l : list A) (body : A -> M unit) :
  (forall x, ensures R (body x)) -> ensures R (for_each l body).
Proof.
  intros Hbody. induction l as [|x l IH]; simpl.
  - apply ensures_ret.
  - apply ensures_bind; [apply Hbody | intros _; exact IH].
Qed.

Lemma ensures_try_except {A : Type} (body : M A) (handler : exn -> M A) :
  ensures R body -> (forall e, ensures R (handler e)) ->
  ensures R (try_except_AuthorizationError body handler).
Proof.
  intros Hb Hh s r s'. unfold try_except_AuthorizationError.
  destruct (body s) as [[[a|e] s1]|] eqn:Hbody; intros H.
  - inversion H; subst. eapply Hb; eauto.
  - destruct (is_AuthorizationError e).
    + transitivity s1; [eapply Hb | eapply Hh]; eauto.
    + inversion H; subst. eapply Hb; eauto.
  - discriminate.
Qed.

Lemma ensures_try_finally {A : Type} (body : M A) (fin : M unit) :
  ensures R body -> ensures R fin -> ensures R (try_finally body fin).
Proof.
  intros Hb Hf s r s'. unfold try_finally.
  destruct (body s) as [[r1 s1]|] eqn:Hbody; [|discriminate].
  destruct (fin s1) as [[[u|e] s2]|] eqn:Hfin; intros H; inversion H; subst;
    (transitivity s1; [eapply Hb | eapply Hf]; eauto).
Qed.

Ltac frame_step :=
  lazymatch goal with
  | |- ensures _ (bind _ _) => apply ensures_bind; [|intros ?]
  | |- ensures _ (ret _) => apply ensures_ret
  | |- ensures _ (raise _) => apply ensures_raise
  | |- ensures _ (lift _) => apply ensures_lift
  | |- ensures _ get_state => apply ensures_get_state
  | |- ensures _ (get_authzr _) => apply ensures_get_authzr
  | |- ensures _ (emit _) => apply ensures_emit; simpl; first [discriminate | auto]
  | |- ensures _ (set_dv_c _) => apply ensures_set_dv_c
  | |- ensures _ (set_cont_c _) => apply ensures_set_cont_c
  | |- ensures _ (for_each _ _) => apply ensures_for_each; intros ?
  | |- ensures _ (match ?x with _ => _ end) => destruct x
  end.

Ltac frame := repeat frame_step.

Lemma ensures_challenge_factory d path : ensures R (_challenge_factory account d path).
Proof. unfold _challenge_factory. frame. Qed.

Lemma ensures_choose_challenges domains : ensures R (_choose_challenges w account domains).
Proof.
  unfold _choose_challenges. frame_step. do 3 frame_step.
  - apply ensures_challenge_factory.
  - frame.
Qed.

Lemma ensures_cleanup_challenges achall_list : ensures R (_cleanup_challenges achall_list).
Proof. unfold _cleanup_challenges. frame. Qed.

Lemma ensures_perform_both : ensures R (perform_both w).
Proof. unfold perform_both. frame. Qed.

Lemma ensures_solve_challenges : ensures R (_solve_challenges w).
Proof.
  unfold _solve_challenges. frame_step.
  - apply ensures_try_except; [apply ensures_perform_both|].
    intros e. frame_step; [apply ensures_cleanup_challenges | frame].
  - frame.
Qed.

Lemma ensures_send_responses achalls : forall resps chall_update,
  ensures R (_send_responses achalls resps chall_update).
Proof.
  induction achalls as [|achall rest IH]; intros resps chall_update; simpl.
  - destruct resps; apply ensures_ret.
  - destruct resps as [|[r|] resps]; [apply ensures_ret| |apply IH].
    frame_step; [frame|]. frame_step; [apply IH | frame].
Qed.

Lemma ensures_handle_check d achalls : ensures R (_handle_check w d achalls).
Proof.
  intros s r s' H. unfold _handle_check in H.
  unfold bind at 1 in H. unfold get_authzr at 1 in H.
  destruct (authzr s !! d) as [old|] eqn:Hold; [|inversion H; subst; reflexivity].
  cbn [bind get_state emit set_authzr] in H.
  unfold bind, get_authzr in H. cbn [authzr dv_c cont_c trace] in H.
  rewrite lookup_insert_eq in H.
  assert (Hstep : R s (mkAuthHandler (<[d := poll w (trace s) old]> (authzr s))
                         (dv_c s) (cont_c s) (EvPoll old :: trace s))).
  { transitivity (mkAuthHandler (authzr s) (dv_c s) (cont_c s) (EvPoll old :: trace s)).
    - apply R_trace. discriminate.
    - apply (R_authzr (mkAuthHandler (authzr s) (dv_c s) (cont_c s) (EvPoll old :: trace s))).
      simpl. rewrite Hold. eauto. }
  destruct (bool_decide _) in H; inversion H; subst; exact Hstep.
Qed.

Lemma ensures_check_domains best_effort doms : forall chall_update comp_domains,
  ensures R (check_domains w best_effort doms chall_update comp_domains).
Proof.
  induction doms as [|d rest IH]; intros chall_update comp_domains; simpl.
  - apply ensures_ret.
  - frame_step; [frame|]. frame_step; [apply ensures_handle_check|].
    destruct a0 as [comp_challs failed_challs].
    destruct (length comp_challs =? length a)%nat; [apply IH|].
    destruct failed_challs.
    + frame_step; [frame | apply IH].
    + destruct best_effort; [apply IH | frame].
Qed.

Lemma ensures_poll_while best_effort min_sleep max_rounds fuel :
  sleep_ok = true ->
  forall chall_update dom_to_check rounds,
    ensures R (poll_while w fuel best_effort min_sleep max_rounds
                 chall_update dom_to_check rounds).
Proof.
  intros Hsleep. induction fuel as [|fuel IH]; intros chall_update dom_to_check rounds; simpl.
  - destruct (_ && _); [apply ensures_diverge | apply ensures_ret].
  - destruct (_ && _); [|apply ensures_ret].
    frame_step; [unfold sleep; frame|]. frame_step; [apply ensures_check_domains|].
    destruct a0. apply IH.
Qed.

Lemma ensures_respond fuel cont_resp dv_resp best_effort :
  sleep_ok = true ->
  ensures R (_respond w fuel cont_resp dv_resp best_effort).
Proof.
  intros Hsleep. unfold _respond.
  frame_step; [frame|]. frame_step; [apply ensures_send_responses|].
  destruct a0. frame_step; [frame|]. frame_step; [apply ensures_send_responses|].
  destruct a1. apply ensures_try_finally.
  - apply ensures_poll_while, Hsleep.
  - apply ensures_cleanup_challenges.
Qed.

Lemma ensures_challenges_while best_effort fuel :
  sleep_ok = true ->
  ensures R (challenges_while w fuel best_effort).
Proof.
  intros Hsleep. induction fuel as [|fuel IH]; intros s r s'; simpl.
  - destruct (dv_c s), (cont_c s); intros H; inversion H; subst; reflexivity.
  - assert (Hbody : ensures R
      (let! '(cont_resp, dv_resp) := _solve_challenges w in
       let! _ := _respond w (S fuel) cont_resp dv_resp best_effort in
       challenges_while w fuel best_effort)).
    { frame_step; [apply ensures_solve_challenges|]. destruct a.
      frame_step; [apply ensures_respond, Hsleep | exact IH]. }
    destruct (dv_c s), (cont_c s); intros H;
      first [inversion H; subst; reflexivity | eapply Hbody; exact H].
Qed.

Lemma ensures_verify_authzr_complete : ensures R verify_authzr_complete.
Proof. intros s r s' [= <- <-]. reflexivity. Qed.

End Frame.

(** ** The completeness check and the returned list *)

Lemma elem_of_authzr_values s a :
  a ∈ authzr_values s <-> exists d, authzr s !! d = Some a.
Proof.
  unfold authzr_values. rewrite list_elem_of_fmap. split.
  - intros [[d a'] [-> H]]. exists d. apply elem_of_map_to_list in H. exact H.
  - intros [d H]. exists (d, a). split; [reflexivity|]. apply elem_of_map_to_list. exact H.
Qed.

Lemma verify_loop_spec values :
  match verify_loop values with
  | Ret _ => forall a, a ∈ values -> decided a
  | Raise e => e = AuthorizationError incomplete_msg /\
               exists a, a ∈ values /\ ~ decided a
  end.
Proof.
  induction values as [|a rest IH]; simpl.
  - intros a Ha. apply elem_of_nil in Ha. contradiction.
  - destruct (bool_decide (status (body a) = STATUS_VALID)) eqn:Hv; simpl.
    + apply bool_decide_eq_true in Hv. destruct (verify_loop rest).
      * intros b Hb. apply elem_of_cons in Hb. destruct Hb as [->|Hb]; [left; exact Hv | auto].
      * destruct IH as [-> [b [Hb Hnot]]]. split; [reflexivity|]. exists b. split; [right|]; auto.
    + apply bool_decide_eq_false in Hv.
      destruct (bool_decide (status (body a) = STATUS_INVALID)) eqn:Hi; simpl.
      * apply bool_decide_eq_true in Hi. destruct (verify_loop rest).
        -- intros b Hb. apply elem_of_cons in Hb.
           destruct Hb as [->|Hb]; [right; exact Hi | auto].
        -- destruct IH as [-> [b [Hb Hnot]]]. split; [reflexivity|].
           exists b. split; [right|]; auto.
      * apply bool_decide_eq_false in Hi. split; [reflexivity|].
        exists a. split; [left|]. intros [H|H]; contradiction.
Qed.

Lemma verify_authzr_complete_cases s :
  (verify_authzr_complete s = Some (Ret tt, s) <->
   forall d a, authzr s !! d = Some a -> decided a) /\
  (verify_authzr_complete s = Some (Raise (AuthorizationError incomplete_msg), s) <->
   ~ forall d a, authzr s !! d = Some a -> decided a).
Proof.
  unfold verify_authzr_complete.
  pose proof (verify_loop_spec (authzr_values s)) as H.
  destruct (verify_loop (authzr_values s)) as [[]|e].
  - assert (Hall : forall d a, authzr s !! d = Some a -> decided a).
    { intros d a Hlk. apply H, elem_of_authzr_values. eauto. }
    split; split; auto; [discriminate | intros Hnot; contradiction].
  - destruct H as [-> [a [Ha Hnot]]].
    apply elem_of_authzr_values in Ha. destruct Ha as [d Hd].
    assert (Hnall : ~ forall d a, authzr s !! d = Some a -> decided a).
    { intros Hall. apply Hnot. eapply Hall. exact Hd. }
    split; split; auto; [discriminate | intros Hall; contradiction].
Qed.

(** C3, as amended. [verify_authzr_complete] returns normally exactly
    when every authorization of the handler's map has status [valid] or
    [invalid]; in every other case, a [revoked] authorization included,
    it raises [AuthorizationError("Incomplete authorizations")]. *)
Theorem verify_authzr_complete_decided s :
  (verify_authzr_complete s = Some (Ret tt, s) <->
   forall d a, authzr s !! d = Some a -> decided a) /\
  (verify_authzr_complete s = Some (Raise (AuthorizationError incomplete_msg), s) <->
   ~ forall d a, authzr s !! d = Some a -> decided a).
Proof. exact (verify_authzr_complete_cases s). Qed.

(** C3 as stated fails: a [revoked] authorization is terminal, and the
    check raises all the same. *)
Lemma verify_authzr_complete_counterexample :
  (forall d a, authzr revoked_handler !! d = Some a -> spec_terminal (status (body a))) /\
  verify_authzr_complete revoked_handler =
    Some (Raise (AuthorizationError incomplete_msg), revoked_handler).
Proof.
  split.
  - intros d a H. simpl in H. apply lookup_singleton_Some in H. destruct H as [_ <-].
    right. right. reflexivity.
  - vm_compute. reflexivity.
Qed.

(** What a call with [best_effort=False] does ensure: when it returns
    normally it returns exactly the authorizations of the map whose
    status is [valid], and has seen the completeness check pass, so each
    authorization of the map is [valid] or [invalid]; when the challenge
    loop has ended and some authorization is neither, the call raises
    [AuthorizationError("Incomplete authorizations")] instead of
    returning. *)
Lemma get_authorizations_valid_only w account fuel domains s :
  (forall l s',
     get_authorizations w account fuel domains false s = Some (Ret l, s') ->
     Forall (fun a => status (body a) = STATUS_VALID) l /\
     l = filter (fun a => status (body a) = STATUS_VALID) (authzr_values s') /\
     (forall d a, authzr s' !! d = Some a -> decided a)) /\
  (forall s2,
     (let! _ := request_authorizations w account domains in
      let! _ := _choose_challenges w account domains in
      challenges_while w fuel false) s = Some (Ret tt, s2) ->
     (~ forall d a, authzr s2 !! d = Some a -> decided a) ->
     get_authorizations w account fuel domains false s =
       Some (Raise (AuthorizationError incomplete_msg), s2)).
Proof.
  split.
  - intros l s' H. unfold get_authorizations in H.
    apply bind_Ret in H. destruct H as [[] [s1 [_ H]]].
    apply bind_Ret in H. destruct H as [[] [s2 [_ H]]].
    apply bind_Ret in H. destruct H as [[] [s3 [_ H]]].
    apply bind_Ret in H. destruct H as [[] [s4 [Hverify H]]].
    assert (s4 = s3) by (unfold verify_authzr_complete in Hverify; congruence). subst s4.
    cbn in H. inversion H; subst l s'. clear H.
    split; [|split].
    + apply Forall_forall. intros a Ha. apply list_elem_of_filter in Ha. apply Ha.
    + reflexivity.
    + apply (proj1 (verify_authzr_complete_cases s3)). exact Hverify.
  - intros s2 Hloop Hnot. unfold get_authorizations.
    apply (proj2 (verify_authzr_complete_cases s2)) in Hnot.
    unfold bind in *.
    destruct (request_authorizations w account domains s) as [[[[]|e1] s1]|]; try discriminate.
    destruct (_choose_challenges w account domains s1) as [[[[]|e2] s1']|]; try discriminate.
    rewrite Hloop. rewrite Hnot. reflexivity.
Qed.

(** Scenario 1: one answer round, one poll showing [valid]. *)
Example get_authorizations_scenario_valid :
  fst <$> get_authorizations (scenario_world STATUS_VALID) scenario_account 2
            ["example.com"%string] false (init_handler []) =
  Some (Ret [scenario_authzr "example.com" STATUS_VALID]).
Proof. vm_compute. reflexivity. Qed.

(** Scenario 3: the server keeps reporting [pending]; the rounds run out
    and the completeness check raises. *)
Example get_authorizations_scenario_pending :
  fst <$> get_authorizations (scenario_world STATUS_PENDING) scenario_account 16
            ["example.com"%string] false (init_handler []) =
  Some (Raise (AuthorizationError incomplete_msg)).
Proof. vm_compute. reflexivity. Qed.

(** C1 fails in the code: with [best_effort=False] the call can return
    although an authorization was not retrieved. In the first run the
    server answers the request for example.com with an authorization
    that is already [invalid] and offers no challenge; in the second it
    offers two DNS challenges and asks for the second, then fails that
    one and with it the authorization, while the status the handler
    reads is that of the first challenge of the class, still pending.
    In both the completeness check passes on [invalid] and the call
    returns the empty list for the one requested domain, raising
    nothing; the map holds the [invalid] authorization when it ends. *)
Theorem get_authorizations_returns_on_invalid :
  (match get_authorizations refusing_world scenario_account 16 ["example.com"%string] false
           (init_handler []) with
   | Some (r, s') =>
       r = Ret [] /\
       authzr s' !! "example.com"%string = Some (refused_authzr "example.com")
   | None => False
   end) /\
  (match get_authorizations twin_world scenario_account 16 ["example.com"%string] false
           (init_handler []) with
   | Some (r, s') =>
       r = Ret [] /\
       authzr s' !! "example.com"%string = Some (twin_authzr "example.com" STATUS_INVALID)
   | None => False
   end).
Proof. vm_compute. repeat split; reflexivity. Qed.

Lemma get_authorizations_valid_only_witness :
  exists l s',
    get_authorizations (scenario_world STATUS_VALID) scenario_account 2
      ["example.com"%string] false (init_handler []) = Some (Ret l, s') /\
    Forall (fun a => status (body a) = STATUS_VALID) l /\
    l = filter (fun a => status (body a) = STATUS_VALID) (authzr_values s') /\
    (forall d a, authzr s' !! d = Some a -> decided a).
Proof.
  destruct (get_authorizations (scenario_world STATUS_VALID) scenario_account 2
              ["example.com"%string] false (init_handler [])) as [[[l|e] s']|] eqn:Hrun;
    [| vm_compute in Hrun; discriminate | vm_compute in Hrun; discriminate].
  exists l, s'. split; [reflexivity|].
  exact (proj1 (get_authorizations_valid_only (scenario_world STATUS_VALID) scenario_account 2
                  ["example.com"%string] (init_handler [])) l s' Hrun).
Defined.

(** ** The keys of the authorization map *)

#[local] Instance same_keys_preorder : PreOrder same_keys.
Proof.
  split.
  - intros s. reflexivity.
  - intros s1 s2 s3 H12 H23. unfold same_keys in *. congruence.
Qed.

Lemma same_keys_authzr s d a :
  is_Some (authzr s !! d) ->
  same_keys s (mkAuthHandler (<[d := a]> (authzr s)) (dv_c s) (cont_c s) (trace s)).
Proof.
  intros Hd. unfold same_keys. simpl. rewrite dom_insert_L.
  apply elem_of_dom in Hd. set_solver.
Qed.

Lemma request_authorizations_keys w account domains : forall s,
  exists s1,
    request_authorizations w account domains s = Some (Ret tt, s1) /\
    dom (authzr s1) = dom (authzr s) ∪ list_to_set domains.
Proof.
  unfold request_authorizations.
  induction domains as [|d rest IH]; intros s; simpl.
  - exists s. split; [reflexivity | set_solver].
  - cbn [bind get_state emit set_authzr].
    match goal with
    | |- context [for_each rest ?body ?s0] => destruct (IH s0) as [s1 [Hrun Hdom]]
    end.
    exists s1. split; [exact Hrun|].
    rewrite Hdom. simpl. rewrite dom_insert_L. set_solver.
Qed.

Lemma after_request_same_keys w account fuel domains best_effort :
  ensures same_keys
    (let! _ := _choose_challenges w account domains in
     let! _ := challenges_while w fuel best_effort in
     let! _ := verify_authzr_complete in
     let! s := get_state in
     ret (filter (fun a => status (body a) = STATUS_VALID) (authzr_values s))).
Proof.
  apply (ensures_bind same_keys); [|intros ?].
  - apply (ensures_choose_challenges same_keys); intros; unfold same_keys; reflexivity.
  - apply (ensures_bind same_keys); [|intros ?].
    + apply (ensures_challenges_while same_keys true);
        try (intros; unfold same_keys; reflexivity).
      intros s0 d a0. apply same_keys_authzr.
    + apply (ensures_bind same_keys); [|intros ?];
        [apply (ensures_verify_authzr_complete same_keys)|].
      apply (ensures_bind same_keys); [|intros ?];
        [apply (ensures_get_state same_keys) | apply (ensures_ret same_keys)].
Qed.

(** C6 as stated fails, twice. A second call on the same handler still
    holds the entry of the first call's domain, and returns its
    authorization too. And within a call the entries come one by one:
    the request loop for a.test and b.test is the one for a.test
    followed by the one for b.test, and between the two the map of a new
    handler holds a.test alone. *)
Lemma get_authorizations_authzr_keys_counterexample :
  (match get_authorizations settled_world scenario_account 1 ["a.test"%string] false
           (init_handler []) with
   | Some (_, s1) =>
       match get_authorizations settled_world scenario_account 1 ["b.test"%string] false s1 with
       | Some (r, s2) =>
           elements (dom (authzr s2)) = ["a.test"; "b.test"]%string /\
           elements (list_to_set ["b.test"%string] : gset string) = ["b.test"%string] /\
           r = Ret [settled_authzr "a.test"; settled_authzr "b.test"]
       | None => False
       end
   | None => False
   end) /\
  request_authorizations settled_world scenario_account ["a.test"; "b.test"]%string
    (init_handler []) =
  (let! _ := request_authorizations settled_world scenario_account ["a.test"%string] in
   request_authorizations settled_world scenario_account ["b.test"%string])
    (init_handler []) /\
  (match request_authorizations settled_world scenario_account ["a.test"%string]
           (init_handler []) with
   | Some (_, s1) =>
       elements (dom (authzr s1)) = ["a.test"%string] /\
       elements (list_to_set ["a.test"; "b.test"]%string : gset string) =
         ["a.test"; "b.test"]%string
   | None => False
   end).
Proof. vm_compute. repeat split. Qed.

(** ** Cleanup after a failed [perform] *)

#[local] Instance same_challenges_preorder : PreOrder same_challenges.
Proof.
  split.
  - intros s. repeat split.
  - intros s1 s2 s3 [H1 [H2 H3]] [H4 [H5 H6]]. unfold same_challenges. repeat split; congruence.
Qed.

Lemma perform_both_same_challenges w : ensures same_challenges (perform_both w).
Proof.
  apply (ensures_perform_both same_challenges true).
  intros s e _. repeat split.
Qed.

Lemma cleanup_all_spec s :
  exists l1 l2,
    _cleanup_challenges None s =
    Some (Ret tt, mkAuthHandler (authzr s) l1 l2
                    (cleanup_events (dv_c s) (cont_c s) ++ trace s)).
Proof.
  unfold _cleanup_challenges, cleanup_events. destruct s as [az dv cont tr]. simpl.
  destruct dv as [|a dv]; destruct cont as [|b cont].
  - exists [], []. reflexivity.
  - destruct (remove_while_iterating_Ret (length (b :: cont)) 0 (b :: cont)) as [l2 Hl2].
    exists [], l2. cbn [bind get_state ret emit lift set_cont_c dv_c cont_c authzr trace].
    unfold bind, lift. cbn [dv_c cont_c authzr trace]. rewrite Hl2. reflexivity.
  - destruct (remove_while_iterating_Ret (length (a :: dv)) 0 (a :: dv)) as [l1 Hl1].
    exists l1, []. cbn [bind get_state ret emit lift set_dv_c dv_c cont_c authzr trace].
    unfold bind, lift. cbn [dv_c cont_c authzr trace]. rewrite Hl1. reflexivity.
  - destruct (remove_while_iterating_Ret (length (a :: dv)) 0 (a :: dv)) as [l1 Hl1].
    destruct (remove_while_iterating_Ret (length (b :: cont)) 0 (b :: cont)) as [l2 Hl2].
    exists l1, l2.
    cbn [bind get_state ret emit lift set_dv_c set_cont_c dv_c cont_c authzr trace].
    unfold bind, lift. cbn [dv_c cont_c authzr trace]. rewrite Hl1.
    cbn [set_dv_c emit dv_c cont_c authzr trace]. rewrite Hl2. reflexivity.
Qed.

(** C2, as amended. When a [perform] call raises inside the handler: an
    [AuthorizationError] makes the handler call the authenticators'
    cleanup on the whole of [dv_c] and of [cont_c] and raise the same
    exception again; an exception of any other class leaves the handler
    as [perform] left it, the challenges in place and no cleanup run. *)
Theorem solve_challenges_cleanup w s e s1 :
  perform_both w s = Some (Raise e, s1) ->
  (is_AuthorizationError e = true ->
   exists s2,
     _solve_challenges w s = Some (Raise e, s2) /\
     trace s2 = cleanup_events (dv_c s) (cont_c s) ++ trace s1) /\
  (is_AuthorizationError e = false ->
   _solve_challenges w s = Some (Raise e, s1) /\
   dv_c s1 = dv_c s /\ cont_c s1 = cont_c s).
Proof.
  intros Hperform.
  destruct (perform_both_same_challenges w s _ _ Hperform) as [Hdv [Hcont _]].
  split; intros Hclass.
  - destruct (cleanup_all_spec s1) as [l1 [l2 Hclean]].
    eexists. split.
    + unfold _solve_challenges, bind, try_except_AuthorizationError.
      rewrite Hperform, Hclass. rewrite Hclean. cbn [raise]. reflexivity.
    + simpl. rewrite Hdv, Hcont. reflexivity.
  - split; [|split; assumption].
    unfold _solve_challenges, bind, try_except_AuthorizationError.
    rewrite Hperform, Hclass. reflexivity.
Qed.

Lemma solve_challenges_cleanup_witness :
  exists e s1,
    perform_both (failing_world e) one_dv_handler = Some (Raise e, s1) /\
    is_AuthorizationError e = true /\
    exists s2,
      _solve_challenges (failing_world e) one_dv_handler = Some (Raise e, s2) /\
      trace s2 =
        cleanup_events (dv_c one_dv_handler) (cont_c one_dv_handler) ++ trace s1.
Proof.
  exists (AuthorizationError "no vhost").
  destruct (perform_both (failing_world (AuthorizationError "no vhost")) one_dv_handler)
    as [[[x|e] s1]|] eqn:Hrun;
    [vm_compute in Hrun; discriminate | | vm_compute in Hrun; discriminate].
  assert (He : e = AuthorizationError "no vhost").
  { vm_compute in Hrun. congruence. }
  subst e. exists s1. split; [reflexivity|]. split; [reflexivity|].
  exact (proj1 (solve_challenges_cleanup (failing_world (AuthorizationError "no vhost"))
                  one_dv_handler _ s1 Hrun) eq_refl).
Defined.

(** C2 as stated fails: an exception that is not an
    [AuthorizationError] passes through with no cleanup call, and the
    challenge still in [dv_c]. *)
Lemma solve_challenges_cleanup_counterexample :
  _solve_challenges (failing_world (LetsEncryptMisconfigurationError "no HTTP block"))
    one_dv_handler =
  Some (Raise (LetsEncryptMisconfigurationError "no HTTP block"),
        mkAuthHandler ∅ [dvsni_achall "a.test"] []
          [EvDvPerform [dvsni_achall "a.test"]]).
Proof. vm_compute. reflexivity. Qed.

(** Full cleanup walks the very list it removes from: of two outstanding
    challenges it cleans up both and takes only the first off the list. *)
Example full_cleanup_leaves_second :
  _solve_challenges (failing_world (AuthorizationError "no vhost"))
    (mkAuthHandler ∅ [dvsni_achall "a.test"; dvsni_achall "b.test"] [] []) =
  Some (Raise (AuthorizationError "no vhost"),
        mkAuthHandler ∅ [dvsni_achall "b.test"] []
          [EvDvCleanup [dvsni_achall "a.test"; dvsni_achall "b.test"];
           EvDvPerform [dvsni_achall "a.test"; dvsni_achall "b.test"]]).
Proof. vm_compute. reflexivity. Qed.

(** ** Polling *)

#[local] Instance same_rounds_preorder : PreOrder same_rounds.
Proof.
  split.
  - intros s. reflexivity.
  - intros s1 s2 s3 H12 H23. unfold same_rounds in *. congruence.
Qed.

Lemma same_rounds_trace s e :
  (is_sleep e = true -> false = true) ->
  same_rounds s (mkAuthHandler (authzr s) (dv_c s) (cont_c s) (e :: trace s)).
Proof.
  intros He. unfold same_rounds, rounds_slept. simpl.
  destruct (is_sleep e); [specialize (He eq_refl); discriminate | reflexivity].
Qed.

Lemma check_domains_same_rounds w best_effort doms chall_update comp_domains :
  ensures same_rounds (check_domains w best_effort doms chall_update comp_domains).
Proof.
  apply (ensures_check_domains same_rounds false).
  - apply same_rounds_trace.
  - intros s d a _. reflexivity.
Qed.

Lemma total_handle_check w d achalls : total (_handle_check w d achalls).
Proof.
  intros s. unfold _handle_check, bind, get_authzr.
  destruct (authzr s !! d) as [old|]; [|eauto].
  cbn [get_state emit set_authzr authzr dv_c cont_c trace].
  rewrite lookup_insert_eq. destruct (bool_decide _); eauto.
Qed.

Lemma total_check_domains w best_effort doms : forall chall_update comp_domains,
  total (check_domains w best_effort doms chall_update comp_domains).
Proof.
  induction doms as [|d rest IH]; intros chall_update comp_domains; simpl.
  - intros s. eauto.
  - apply total_bind; [intros s; eauto|]. intros achalls.
    apply total_bind; [apply total_handle_check|]. intros [comp_challs failed_challs].
    destruct (length comp_challs =? length achalls)%nat; [apply IH|].
    destruct failed_challs.
    + apply total_bind; [intros s; eauto | intros l; apply IH].
    + destruct best_effort; [apply IH | intros s; eauto].
Qed.

(** The loop of [_poll_challenges] ends within the rounds that are left,
    whatever the polls report, and sleeps once a round. *)
Lemma poll_while_bounded w best_effort min_sleep max_rounds fuel :
  forall chall_update dom_to_check rounds s,
    (Z.to_nat (max_rounds - rounds) <= fuel)%nat ->
    exists r s',
      poll_while w fuel best_effort min_sleep max_rounds chall_update dom_to_check rounds s =
        Some (r, s') /\
      (rounds_slept (trace s') <= rounds_slept (trace s) + Z.to_nat (max_rounds - rounds))%nat.
Proof.
  induction fuel as [|fuel IH]; intros chall_update dom_to_check rounds s Hfuel.
  - simpl. destruct (rounds <? max_rounds) eqn:Hlt.
    + apply Z.ltb_lt in Hlt. lia.
    + rewrite andb_false_r. exists (Ret tt), s. split; [reflexivity | lia].
  - simpl. destruct (negb (bool_decide (dom_to_check = ∅)) && (rounds <? max_rounds)) eqn:Hcond.
    + apply andb_true_iff in Hcond. destruct Hcond as [_ Hlt]. apply Z.ltb_lt in Hlt.
      unfold bind at 1. unfold sleep. unfold bind at 1. cbn [emit].
      set (s1 := mkAuthHandler (authzr s) (dv_c s) (cont_c s) (EvSleep min_sleep :: trace s)).
      assert (Hs1 : rounds_slept (trace s1) = S (rounds_slept (trace s))) by reflexivity.
      destruct (min_sleep <? 0).
      { exists (Raise sleep_error), s1. split; [reflexivity | lia]. }
      cbn [ret]. unfold bind at 1.
      destruct (total_check_domains w best_effort (elements dom_to_check) chall_update ∅ s1)
        as [[r2 s2] Hcheck].
      pose proof (check_domains_same_rounds w best_effort _ _ _ _ _ _ Hcheck) as Hsame.
      unfold same_rounds in Hsame. rewrite Hcheck.
      destruct r2 as [[chall_update' comp_domains]|e].
      * destruct (IH chall_update' (dom_to_check ∖ comp_domains) (rounds + 1) s2)
          as [r [s' [Hrun Hbound]]]; [lia|].
        exists r, s'. split; [exact Hrun | lia].
      * exists (Raise e), s2. split; [reflexivity | lia].
    + exists (Ret tt), s. split; [reflexivity | lia].
Qed.

(** C7. Given a loop budget of [max_rounds], [_poll_challenges] always
    ends, by a return or an exception, whatever statuses the server
    reports, after at most [max_rounds] polling rounds; the defaults of
    [min_sleep] and [max_rounds] are 3 and 15. *)
Theorem poll_challenges_terminates w fuel chall_update best_effort min_sleep max_rounds s :
  (Z.to_nat max_rounds <= fuel)%nat ->
  (exists r s',
     _poll_challenges w fuel chall_update best_effort min_sleep max_rounds s = Some (r, s') /\
     (rounds_slept (trace s') <= rounds_slept (trace s) + Z.to_nat max_rounds)%nat) /\
  default_min_sleep = 3 /\ default_max_rounds = 15.
Proof.
  intros Hfuel. split; [|split; reflexivity].
  unfold _poll_challenges.
  destruct (poll_while_bounded w best_effort min_sleep max_rounds fuel chall_update
              (dom chall_update) 0 s) as [r [s' [Hrun Hbound]]].
  - replace (max_rounds - 0) with max_rounds by lia. exact Hfuel.
  - exists r, s'. split; [exact Hrun|].
    replace (max_rounds - 0) with max_rounds in Hbound by lia. exact Hbound.
Qed.

(** With the server stuck on [pending] the default fifteen rounds are all
    run, and the call returns. *)
Example poll_challenges_pending_rounds :
  match _poll_challenges (scenario_world STATUS_PENDING) 15 pending_update false
          default_min_sleep default_max_rounds pending_handler with
  | Some (r, s') => r = Ret tt /\ rounds_slept (trace s') = 15%nat
  | None => False
  end.
Proof. vm_compute. split; reflexivity. Qed.

Lemma poll_challenges_terminates_witness :
  (Z.to_nat default_max_rounds <= 15)%nat /\
  exists r s',
    _poll_challenges (scenario_world STATUS_PENDING) 15 pending_update false
      default_min_sleep default_max_rounds pending_handler = Some (r, s') /\
    (rounds_slept (trace s') <=
     rounds_slept (trace pending_handler) + Z.to_nat default_max_rounds)%nat.
Proof.
  assert (H : (Z.to_nat default_max_rounds <= 15)%nat) by (vm_compute; lia).
  split; [exact H|].
  exact (proj1 (poll_challenges_terminates (scenario_world STATUS_PENDING) 15 pending_update
                  false default_min_sleep default_max_rounds pending_handler H)).
Defined.

(** ** The keys of the map at every point of the call *)

Lemma total_ret {A : Type} (a : A) : total (ret a).
Proof. intros s. eexists. reflexivity. Qed.

Lemma total_raise {A : Type} (e : exn) : total (@raise A e).
Proof. intros s. eexists. reflexivity. Qed.

Lemma total_lift {A : Type} (x : res A) : total (lift x).
Proof. intros s. eexists. reflexivity. Qed.

Lemma total_get_state : total get_state.
Proof. intros s. eexists. reflexivity. Qed.

Lemma total_get_authzr d : total (get_authzr d).
Proof. intros s. unfold get_authzr. destruct (authzr s !! d); eexists; reflexivity. Qed.

Lemma total_emit e : total (emit e).
Proof. intros s. eexists. reflexivity. Qed.

Lemma total_set_dv_c l : total (set_dv_c l).
Proof. intros s. eexists. reflexivity. Qed.

Lemma total_set_cont_c l : total (set_cont_c l).
Proof. intros s. eexists. reflexivity. Qed.

Lemma total_try_except {A : Type} (body : M A) (handler : exn -> M A) :
  total body -> (forall e, total (handler e)) ->
  total (try_except_AuthorizationError body handler).
Proof.
  intros Hb Hh s. unfold try_except_AuthorizationError.
  destruct (Hb s) as [[[a|e] s1] ->]; [eauto|].
  destruct (is_AuthorizationError e); [apply Hh | eauto].
Qed.

Lemma total_try_finally {A : Type} (body : M A) (fin : M unit) :
  total body -> total fin -> total (try_finally body fin).
Proof.
  intros Hb Hf s. unfold try_finally.
  destruct (Hb s) as [[r s1] ->]. destruct (Hf s1) as [[[u|e] s2] ->]; eauto.
Qed.

Ltac total_step :=
  lazymatch goal with
  | |- total (bind _ _) => apply total_bind; [|intros ?]
  | |- total (ret _) => apply total_ret
  | |- total (raise _) => apply total_raise
  | |- total (lift _) => apply total_lift
  | |- total get_state => apply total_get_state
  | |- total (get_authzr _) => apply total_get_authzr
  | |- total (emit _) => apply total_emit
  | |- total (set_dv_c _) => apply total_set_dv_c
  | |- total (set_cont_c _) => apply total_set_cont_c
  | |- total (for_each _ _) => apply total_for_each; intros ?
  | |- total (try_finally _ _) => apply total_try_finally
  | |- total (try_except_AuthorizationError _ _) => apply total_try_except; [|intros ?]
  | |- total (match ?x with _ => _ end) => destruct x
  end.

Lemma total_choose_challenges w account domains :
  total (_choose_challenges w account domains).
Proof. unfold _choose_challenges, _challenge_factory. repeat total_step. Qed.

Lemma total_cleanup_challenges achall_list : total (_cleanup_challenges achall_list).
Proof. unfold _cleanup_challenges. repeat total_step. Qed.

Lemma total_solve_challenges w : total (_solve_challenges w).
Proof.
  unfold _solve_challenges, perform_both. total_step.
  - total_step; [repeat total_step|].
    total_step; [apply total_cleanup_challenges | total_step].
  - repeat total_step.
Qed.

Lemma total_send_responses achalls : forall resps chall_update,
  total (_send_responses achalls resps chall_update).
Proof.
  induction achalls as [|achall rest IH]; intros resps chall_update; cbn [_send_responses].
  - destruct resps; total_step.
  - destruct resps as [|[r|] resps]; [total_step| |apply IH].
    total_step; [total_step|]. total_step; [apply IH | repeat total_step].
Qed.

Lemma total_poll_challenges w chall_update best_effort :
  total (_poll_challenges w (Z.to_nat default_max_rounds) chall_update best_effort
           default_min_sleep default_max_rounds).
Proof.
  intros s. unfold _poll_challenges.
  destruct (poll_while_bounded w best_effort default_min_sleep default_max_rounds
              (Z.to_nat default_max_rounds) chall_update (dom chall_update) 0 s)
    as (r & s' & Hrun & _); [vm_compute; lia|].
  rewrite Hrun. eauto.
Qed.

Lemma total_respond w cont_resp dv_resp best_effort :
  total (_respond w (Z.to_nat default_max_rounds) cont_resp dv_resp best_effort).
Proof.
  unfold _respond. total_step; [total_step|].
  total_step; [apply total_send_responses|].
  destruct a0. total_step; [total_step|].
  total_step; [apply total_send_responses|].
  destruct a1. total_step; [apply total_poll_challenges | apply total_cleanup_challenges].
Qed.

Lemma solve_challenges_same_keys w : ensures same_keys (_solve_challenges w).
Proof.
  apply (ensures_solve_challenges same_keys true); intros; unfold same_keys; reflexivity.
Qed.

Lemma respond_same_keys w fuel cont_resp dv_resp best_effort :
  ensures same_keys (_respond w fuel cont_resp dv_resp best_effort).
Proof.
  apply (ensures_respond same_keys true); try (intros; unfold same_keys; reflexivity).
  intros s0 d a0. apply same_keys_authzr.
Qed.

Lemma handle_check_same_keys w d achalls : ensures same_keys (_handle_check w d achalls).
Proof.
  apply (ensures_handle_check same_keys true); try (intros; unfold same_keys; reflexivity).
  intros s0 d0 a0. apply same_keys_authzr.
Qed.

Lemma step_same_keys w account domains best_effort p s p' s' :
  step w account domains best_effort (p, s) (p', s') -> same_keys s s'.
Proof.
  intros Hstep. inversion Hstep; subst.
  - eapply (ensures_choose_challenges same_keys);
      [intros; unfold same_keys; reflexivity.. | eassumption].
  - eapply (ensures_choose_challenges same_keys);
      [intros; unfold same_keys; reflexivity.. | eassumption].
  - eapply solve_challenges_same_keys. eassumption.
  - eapply solve_challenges_same_keys. eassumption.
  - reflexivity.
  - eapply respond_same_keys. eassumption.
  - eapply respond_same_keys. eassumption.
  - eapply (ensures_verify_authzr_complete same_keys). eassumption.
  - eapply (ensures_verify_authzr_complete same_keys). eassumption.
Qed.

Lemma reach_same_keys w account domains best_effort : forall x y,
  rtc (step w account domains best_effort) x y -> same_keys (snd x) (snd y).
Proof.
  induction 1 as [x|[p s] [p' s'] z Hstep _ IH]; [reflexivity|].
  apply step_same_keys in Hstep. cbn [snd] in *. etransitivity; eassumption.
Qed.

Lemma challenges_while_steps w account domains best_effort fuel : forall s r s',
  challenges_while w fuel best_effort s = Some (r, s') ->
  rtc (step w account domains best_effort) (at_while, s)
    (match r with Ret _ => at_verify | Raise e => at_end (Raise e) end, s').
Proof.
  induction fuel as [|fuel IH]; intros s r s'; cbn [challenges_while].
  - destruct (dv_c s) eqn:Hd, (cont_c s) eqn:Hc; intros H; try discriminate.
    injection H as <- <-. apply rtc_once. apply step_leave; assumption.
  - assert (Hbody :
      dv_c s <> [] \/ cont_c s <> [] ->
      (let! '(cont_resp, dv_resp) := _solve_challenges w in
       let! _ := _respond w (S fuel) cont_resp dv_resp best_effort in
       challenges_while w fuel best_effort) s = Some (r, s') ->
      rtc (step w account domains best_effort) (at_while, s)
        (match r with Ret _ => at_verify | Raise e => at_end (Raise e) end, s')).
    { intros Hout H. apply bind_Some in H.
      destruct H as [([cont_resp dv_resp] & s1 & Hsolve & H)|(e & Hsolve & ->)].
      - eapply rtc_l; [eapply step_solve; eassumption|].
        apply bind_Some in H. destruct H as [([] & s2 & Hresp & H)|(e & Hresp & ->)].
        + eapply rtc_l; [eapply step_respond; eassumption|]. apply IH. exact H.
        + apply rtc_once. eapply step_respond_raise. eassumption.
      - apply rtc_once. eapply step_solve_raise; eassumption. }
    destruct (dv_c s) eqn:Hd, (cont_c s) eqn:Hc; intros H.
    + injection H as <- <-. apply rtc_once. apply step_leave; assumption.
    + apply Hbody; [right; discriminate | exact H].
    + apply Hbody; [left; discriminate | exact H].
    + apply Hbody; [left; discriminate | exact H].
Qed.

Lemma get_authorizations_steps w account fuel domains best_effort s s1 r s' :
  request_authorizations w account domains s = Some (Ret tt, s1) ->
  get_authorizations w account fuel domains best_effort s = Some (r, s') ->
  rtc (step w account domains best_effort) (at_choose, s1) (at_end r, s').
Proof.
  intros Hreq Hrun. unfold get_authorizations in Hrun.
  unfold bind at 1 in Hrun. rewrite Hreq in Hrun.
  apply bind_Some in Hrun. destruct Hrun as [([] & s2 & Hchoose & Hrun)|(e & Hchoose & ->)].
  2:{ apply rtc_once. apply step_choose_raise. exact Hchoose. }
  eapply rtc_l; [apply step_choose; exact Hchoose|].
  apply bind_Some in Hrun. destruct Hrun as [([] & s3 & Hloop & Hrun)|(e & Hloop & ->)].
  2:{ apply (challenges_while_steps w account domains) in Hloop. exact Hloop. }
  apply (challenges_while_steps w account domains) in Hloop.
  etransitivity; [exact Hloop|]. apply rtc_once.
  apply bind_Some in Hrun. destruct Hrun as [([] & s4 & Hverify & Hrun)|(e & Hverify & ->)].
  2:{ apply step_verify_raise. exact Hverify. }
  cbn [bind get_state ret] in Hrun. injection Hrun as <- <-.
  apply step_verify. exact Hverify.
Qed.

Lemma step_progress w account domains best_effort p s :
  (forall r, p <> at_end r) ->
  exists p' s', step w account domains best_effort (p, s) (p', s').
Proof.
  intros Hopen. destruct p as [| |cont_resp dv_resp| |r].
  - destruct (total_choose_challenges w account domains s) as [[[[]|e] s'] Hrun].
    + eexists. eexists. apply step_choose. exact Hrun.
    + eexists. eexists. apply step_choose_raise. exact Hrun.
  - destruct (dv_c s) eqn:Hd; [destruct (cont_c s) eqn:Hc|].
    + eexists. eexists. apply step_leave; assumption.
    + destruct (total_solve_challenges w s) as [[[[c d]|e] s'] Hrun].
      * eexists. eexists. eapply step_solve; [right; rewrite Hc; discriminate | exact Hrun].
      * eexists. eexists. eapply step_solve_raise;
          [right; rewrite Hc; discriminate | exact Hrun].
    + destruct (total_solve_challenges w s) as [[[[c d]|e] s'] Hrun].
      * eexists. eexists. eapply step_solve; [left; rewrite Hd; discriminate | exact Hrun].
      * eexists. eexists. eapply step_solve_raise;
          [left; rewrite Hd; discriminate | exact Hrun].
  - destruct (total_respond w cont_resp dv_resp best_effort s) as [[[[]|e] s'] Hrun].
    + eexists. eexists. eapply step_respond. exact Hrun.
    + eexists. eexists. eapply step_respond_raise. exact Hrun.
  - destruct (verify_authzr_complete s) as [[[[]|e] s']|] eqn:Hrun.
    + eexists. eexists. apply step_verify. exact Hrun.
    + eexists. eexists. apply step_verify_raise. exact Hrun.
    + discriminate.
  - exfalso. apply (Hopen r). reflexivity.
Qed.

(** C6, as amended. The request loop always ends, with the keys of the
    map being the keys it held when the call began together with the
    requested domains. From then on the keys are these at every point
    the call reaches, whatever the number of rounds of its loop and also
    when the loop never ends; they are the requested domains alone on a
    handler whose map was empty, as a new handler's is. The points are
    those of the call: a call that ends has gone through them to its
    end, and at a point before the end there is always a next step.
    Inside a step, the one assignment to the map after the request loop,
    that of [_handle_check], keeps the keys in every state. *)
Theorem get_authorizations_authzr_keys w account domains best_effort s :
  exists s1,
    request_authorizations w account domains s = Some (Ret tt, s1) /\
    dom (authzr s1) = dom (authzr s) ∪ list_to_set domains /\
    (forall p s',
       rtc (step w account domains best_effort) (at_choose, s1) (p, s') ->
       dom (authzr s') = dom (authzr s) ∪ list_to_set domains /\
       (authzr s = ∅ -> dom (authzr s') = list_to_set domains)) /\
    (forall fuel r s',
       get_authorizations w account fuel domains best_effort s = Some (r, s') ->
       rtc (step w account domains best_effort) (at_choose, s1) (at_end r, s')) /\
    (forall p s', (forall r, p <> at_end r) ->
       exists p' s'', step w account domains best_effort (p, s') (p', s'')) /\
    (forall d achalls t r t',
       _handle_check w d achalls t = Some (r, t') -> dom (authzr t') = dom (authzr t)).
Proof.
  destruct (request_authorizations_keys w account domains s) as [s1 [Hreq Hdom]].
  exists s1. split; [exact Hreq|]. split; [exact Hdom|]. split; [|split; [|split]].
  - intros p s' Hreach. apply reach_same_keys in Hreach. cbn [snd] in Hreach.
    unfold same_keys in Hreach.
    assert (Hall : dom (authzr s') = dom (authzr s) ∪ list_to_set domains) by congruence.
    split; [exact Hall|]. intros Hempty. rewrite Hall, Hempty, dom_empty_L. set_solver.
  - intros fuel r s' Hrun. eapply get_authorizations_steps; eassumption.
  - intros p s' Hopen. apply step_progress. exact Hopen.
  - intros d achalls t r t' Hrun. apply handle_check_same_keys in Hrun. exact Hrun.
Qed.

Lemma get_authorizations_authzr_keys_witness :
  exists s1 s',
    request_authorizations silent_world scenario_account ["example.com"%string]
      (init_handler []) = Some (Ret tt, s1) /\
    rtc (step silent_world scenario_account ["example.com"%string] false)
      (at_choose, s1) (at_while, s') /\
    dv_c s' <> [] /\
    dom (authzr s') = dom (authzr (init_handler [])) ∪ list_to_set ["example.com"%string].
Proof.
  destruct (get_authorizations_authzr_keys silent_world scenario_account
              ["example.com"%string] false (init_handler []))
    as (s1 & Hreq & _ & Hinv & _).
  assert (Hs1 : request_authorizations silent_world scenario_account ["example.com"%string]
                  (init_handler []) = Some (Ret tt, s1)) by exact Hreq.
  vm_compute in Hreq. injection Hreq as Hreq.
  assert (Hreach : exists s',
             rtc (step silent_world scenario_account ["example.com"%string] false)
               (at_choose, s1) (at_while, s') /\ dv_c s' <> []).
  { rewrite <- Hreq. eexists. split.
    - eapply rtc_l; [apply step_choose; vm_compute; reflexivity|].
      eapply rtc_l; [eapply step_solve; [left; discriminate | vm_compute; reflexivity]|].
      eapply rtc_l; [eapply (step_respond _ _ _ _ 1%nat); vm_compute; reflexivity|].
      apply rtc_refl.
    - discriminate. }
  destruct Hreach as (s' & Hreach & Hout).
  exists s1, s'. split; [exact Hs1|]. split; [exact Hreach|]. split; [exact Hout|].
  exact (proj1 (Hinv at_while s' Hreach)).
Defined.

End HandlerFacts.

(** ** The account store *)

Module AccountFacts.
Import AccountStore.
Import AccountSpec.

Lemma safe_email_not_empty e : safe_email e = true -> e <> EmptyString.
Proof. intros H ->. vm_compute in H. discriminate. Qed.

Lemma safe_email_not_default e : safe_email e = true -> e <> "default"%string.
Proof. intros H ->. vm_compute in H. discriminate. Qed.

Section RoundTrip.

Variable json : Type.
Variable to_json : Registration -> json.
Variable from_json : json -> res Registration.

(** C8, as amended. For an account with a valid email, a phone other
    than the literal string [None], a key whose file holds its PEM text,
    and a registration resource that has its terms of service and whose
    body [from_json] reads back from [to_json]: [save] followed by
    [from_existing_account] gives the account back; and a file whose
    phone entry is the literal string [None] loads with no phone. *)
Theorem save_from_existing_account_roundtrip (acc : Account) (d : Disk json) e p r t :
  email acc = Some e -> safe_email e = true ->
  phone acc = Some p -> p <> "None"%string ->
  regr acc = Some r -> regr_terms_of_service r = Some t ->
  files json d !! file (key acc) = Some (pem (key acc)) ->
  from_json (to_json (regr_body r)) = Ret (regr_body r) ->
  from_existing_account json from_json (save json to_json acc d) (Some e) = Ret acc /\
  (forall d' name acc_config acc',
     accounts_dir json d' !! name = Some acc_config ->
     cfg_phone json acc_config = "None"%string ->
     _from_config_fp json from_json d' name = Ret acc' ->
     phone acc' = None).
Proof.
  intros Hemail Hsafe Hphone Hp Hregr Htos Hfile Hjson. split.
  - unfold from_existing_account, _from_config_fp, save, _get_config_filename.
    rewrite Hemail.
    rewrite (bool_decide_eq_false_2 (e = EmptyString)) by (apply safe_email_not_empty, Hsafe).
    cbn [accounts_dir files]. rewrite lookup_insert_eq.
    cbn [cfg_key cfg_phone cfg_RegistrationResource].
    rewrite Hfile, Hregr, Hphone, Htos.
    cbn [sec_body sec_uri sec_new_authzr_uri sec_terms_of_service py_str default].
    rewrite Hjson.
    rewrite (bool_decide_eq_true_2 (e <> "default"%string))
      by (apply safe_email_not_default, Hsafe).
    rewrite (bool_decide_eq_true_2 (p <> "None"%string)) by exact Hp.
    unfold Account_init. rewrite Hsafe.
    destruct acc as [[kf kp] em ph rg]. destruct r as [b u n tos].
    simpl in *. subst. reflexivity.
  - intros d' name acc_config acc' Hcfg Hnone Hload.
    unfold _from_config_fp in Hload. rewrite Hcfg, Hnone in Hload.
    rewrite (bool_decide_eq_false_2 ("None"%string <> "None"%string)) in Hload
      by (intros H; apply H; reflexivity).
    destruct (files json d' !! cfg_key json acc_config); [|discriminate].
    destruct (cfg_RegistrationResource json acc_config) as [rr|].
    + destruct (from_json (sec_body json rr)); inversion Hload; reflexivity.
    + inversion Hload; reflexivity.
Qed.

End RoundTrip.

Lemma save_from_existing_account_roundtrip_witness :
  safe_email "a@b.com" = true /\
  plain_load (plain_save stored_account plain_disk) (Some "a@b.com"%string) = Ret stored_account.
Proof.
  split; [reflexivity|].
  refine (proj1 (save_from_existing_account_roundtrip Registration (fun b => b)
                   (fun b => Ret b) stored_account plain_disk
                   "a@b.com" "1234" scenario_regr "tos"
                   eq_refl eq_refl eq_refl _ eq_refl eq_refl eq_refl eq_refl)).
  discriminate.
Defined.

(** C8 as stated fails on three accounts with a valid email, a phone and
    a registration resource: one whose phone is the string [None] (it
    loads with no phone), one whose registration resource has no terms of
    service (it loads with the string [None] for them), and one whose key
    is not the text of its key file (it loads with the text of the
    file). *)
Lemma save_from_existing_account_counterexample :
  safe_email "a@b.com" = true /\
  (exists acc',
     plain_load (plain_save none_phone_account plain_disk) (Some "a@b.com"%string) = Ret acc' /\
     phone acc' = None /\ acc' <> none_phone_account) /\
  (exists acc',
     plain_load (plain_save no_terms_account plain_disk) (Some "a@b.com"%string) = Ret acc' /\
     terms_of_service acc' = Some "None"%string /\ acc' <> no_terms_account) /\
  (exists acc',
     plain_load (plain_save other_key_account plain_disk) (Some "a@b.com"%string) = Ret acc' /\
     pem (key acc') = "PEM"%string /\ acc' <> other_key_account).
Proof.
  split; [reflexivity|].
  repeat split; eexists; (split; [vm_compute; reflexivity|]); (split; [reflexivity|]);
    discriminate.
Qed.

End AccountFacts.

(** ** The client facade *)

Module ClientFacts.
Import Client.
Import ClientSpec.

(** C9. The [csr] argument of [obtain_certificate] has no bearing on
    what the call does: for any two values of it the outcome, the state
    the handler is left in and the whole history of calls made to the
    network, the authenticators and [crypto_util] are the same; and in a
    call that returns, the request for issuance carries the CSR that
    [init_save_csr] made from the domains and the new key, whose PEM text
    is the key returned. *)
Theorem obtain_certificate_ignores_csr w cu fuel c domains :
  (forall csr1 csr2,
     obtain_certificate w cu fuel c domains csr1 =
     obtain_certificate w cu fuel c domains csr2) /\
  (forall csr cert_pem key_pem chain_pem c',
     obtain_certificate w cu fuel c domains csr =
       Some (Ret (cert_pem, key_pem, chain_pem), c') ->
     exists h' tr authzrs,
       auth_handler c' = Some h' /\
       EvRequestIssuance
         (csr_data (init_save_csr cu (EvInitSaveKey :: tr) (init_save_key cu tr) domains))
         authzrs ∈ trace h' /\
       key_pem = pem (init_save_key cu tr)).
Proof.
  split; [reflexivity|].
  intros csr cert_pem key_pem chain_pem c' Hrun.
  unfold obtain_certificate in Hrun.
  destruct (auth_handler c) as [h|]; [|discriminate].
  destruct (regr (account c)); [|discriminate].
  unfold issue in Hrun. unfold bind at 1 in Hrun.
  destruct (Handler.get_authorizations w (account c) fuel domains false h)
    as [[[authzrs|e] s1]|]; [|discriminate|discriminate].
  cbn [bind get_state emit ret authzr dv_c cont_c trace] in Hrun.
  exists (match c' with mkClient _ (Some h') => h' | _ => s1 end), (trace s1), authzrs.
  destruct (cert_chain_uri_of _) in Hrun;
    cbn [bind get_state emit ret authzr dv_c cont_c trace] in Hrun;
    inversion Hrun; subst; cbn [auth_handler trace];
    (split; [reflexivity|]); (split; [|reflexivity]).
  - apply elem_of_cons. right. apply elem_of_cons. left. reflexivity.
  - apply elem_of_cons. left. reflexivity.
Qed.


(** Scenario 1 end to end, with a CSR of the caller's passed in: the
    request for issuance carries the CSR made from the domains, and the
    chain is the empty string. *)
Example obtain_certificate_scenario :
  match obtain_certificate (HandlerSpec.scenario_world STATUS_VALID) scenario_crypto 2
          scenario_client ["example.com"%string] (Some (mkCSR "csr/mine" "MINE")) with
  | Some (r, c') =>
      r = Ret ("CERT-PEM", "KEY-PEM", EmptyString)%string /\
      (trace <$> auth_handler c') ≫= head =
      Some (EvRequestIssuance "CSR:example.com"
              [HandlerSpec.scenario_authzr "example.com" STATUS_VALID])
  | None => False
  end.
Proof. vm_compute. split; reflexivity. Qed.

Lemma obtain_certificate_ignores_csr_witness :
  exists cert_pem key_pem chain_pem c',
    obtain_certificate (HandlerSpec.scenario_world STATUS_VALID) scenario_crypto 2
      scenario_client ["example.com"%string] (Some (mkCSR "csr/mine" "MINE")) =
      Some (Ret (cert_pem, key_pem, chain_pem), c') /\
    exists h' tr authzrs,
      auth_handler c' = Some h' /\
      EvRequestIssuance
        (csr_data (init_save_csr scenario_crypto (EvInitSaveKey :: tr)
                     (init_save_key scenario_crypto tr) ["example.com"%string]))
        authzrs ∈ trace h' /\
      key_pem = pem (init_save_key scenario_crypto tr).
Proof.
  destruct (obtain_certificate (HandlerSpec.scenario_world STATUS_VALID) scenario_crypto 2
              scenario_client ["example.com"%string] (Some (mkCSR "csr/mine" "MINE")))
    as [[[[[cert_pem key_pem] chain_pem]|e] c']|] eqn:Hrun;
    [| vm_compute in Hrun; discriminate | vm_compute in Hrun; discriminate].
  exists cert_pem, key_pem, chain_pem, c'. split; [reflexivity|].
  exact (proj2 (obtain_certificate_ignores_csr (HandlerSpec.scenario_world STATUS_VALID)
                  scenario_crypto 2 scenario_client ["example.com"%string])
           _ _ _ _ _ Hrun).
Defined.

End ClientFacts.

(** * Further properties *)

(** ** The planner's helpers *)

Module PlannerLaws.
Import Planner.
Import PlannerSpec.
Import PlannerNotions.
Import PlannerFacts.

Lemma different_variant obj1 obj2 different :
  negb different || negb (isinstance obj1 (class_of obj2)) = true <->
  (different = true -> typ obj1 <> typ obj2).
Proof.
  unfold class_of. simpl. destruct different; simpl.
  - rewrite negb_true_iff, bool_decide_eq_false. split; auto.
  - split; [discriminate | reflexivity].
Qed.

Lemma in_group_cons c k g :
  in_group c (k :: g) <-> isinstance c k = true \/ in_group c g.
Proof.
  unfold in_group. split.
  - intros [k' [Hk' Hi]]. apply elem_of_cons in Hk'. destruct Hk' as [->|Hk']; eauto.
  - intros [Hi|[k' [Hk' Hi]]]; [exists k | exists k']; split; auto; [left | right; auto].
Qed.

Lemma in_group_nil c : ~ in_group c [].
Proof. intros [k [Hk _]]. apply elem_of_nil in Hk. exact Hk. Qed.

Lemma group_loop_true obj1 obj2 different group : forall p1 p2,
  group_loop obj1 obj2 different group p1 p2 = true <->
  group <> [] /\
  (p1 = true \/ in_group obj1 group) /\
  (p2 = true \/ in_group obj2 group) /\
  (different = true -> typ obj1 <> typ obj2).
Proof.
  induction group as [|k rest IH]; intros p1 p2.
  - simpl. split; [discriminate | intros [H _]; congruence].
  - cbn [group_loop].
    destruct (negb different || negb (isinstance obj1 (class_of obj2))) eqn:Hcond.
    + pose proof (proj1 (different_variant obj1 obj2 different) Hcond) as Hdiff.
      rewrite andb_true_r.
      destruct ((p1 || isinstance obj1 k) && (p2 || isinstance obj2 k)) eqn:Hnow.
      * apply andb_true_iff in Hnow. destruct Hnow as [H1 H2].
        apply orb_true_iff in H1. apply orb_true_iff in H2.
        split; [intros _ | reflexivity].
        split; [discriminate|]. rewrite !in_group_cons. tauto.
      * rewrite IH. rewrite !in_group_cons.
        apply andb_false_iff in Hnow. rewrite !orb_false_iff in Hnow.
        rewrite !orb_true_iff.
        split.
        -- intros (Hnil & H1 & H2 & Hd). split; [discriminate|]. tauto.
        -- intros (_ & H1 & H2 & Hd).
           destruct rest as [|k2 rest'].
           ++ exfalso. destruct Hnow as [[Hp Hi]|[Hp Hi]].
              ** destruct H1 as [H1|[H1|H1]]; [congruence | congruence |].
                 exact (in_group_nil _ H1).
              ** destruct H2 as [H2|[H2|H2]]; [congruence | congruence |].
                 exact (in_group_nil _ H2).
           ++ split; [discriminate|]. tauto.
    + rewrite andb_false_r. rewrite IH.
      split; intros (_ & _ & _ & Hd);
        pose proof (proj2 (different_variant obj1 obj2 different) Hd); congruence.
Qed.

Lemma mutually_exclusive_false obj1 obj2 groups different :
  mutually_exclusive obj1 obj2 groups different = false <->
  exists g, g ∈ groups /\ in_group obj1 g /\ in_group obj2 g /\
            (different = true -> typ obj1 <> typ obj2).
Proof.
  induction groups as [|g rest IH]; simpl.
  - split; [discriminate|]. intros [g [Hg _]]. apply elem_of_nil in Hg. contradiction.
  - destruct (group_loop obj1 obj2 different g false false) eqn:Hloop.
    + apply group_loop_true in Hloop. destruct Hloop as (_ & H1 & H2 & Hd).
      split; [intros _ | reflexivity].
      exists g. split; [left|].
      destruct H1 as [H1|H1]; [discriminate|]. destruct H2 as [H2|H2]; [discriminate|]. auto.
    + rewrite IH. split.
      * intros [g' [Hg' H]]. exists g'. split; [right|]; auto.
      * intros [g' [Hg' (H1 & H2 & Hd)]]. apply elem_of_cons in Hg'.
        destruct Hg' as [->|Hg']; [|exists g'; auto].
        exfalso. assert (Htrue : group_loop obj1 obj2 different g false false = true).
        { apply group_loop_true. split; [|auto].
          intros ->. exact (in_group_nil _ H1). }
        congruence.
Qed.

(** X1. [mutually_exclusive] answers [False] exactly when some group
    names a class of each of the two objects and, under
    [different=True], the objects are of different variants; so the order
    of the groups and of the classes in a group does not matter, and the
    answer is the same with the two objects exchanged. *)
Theorem mutually_exclusive_common_group obj1 obj2 groups different :
  (mutually_exclusive obj1 obj2 groups different = false <->
   exists g, g ∈ groups /\ in_group obj1 g /\ in_group obj2 g /\
             (different = true -> typ obj1 <> typ obj2)) /\
  mutually_exclusive obj1 obj2 groups different =
  mutually_exclusive obj2 obj1 groups different.
Proof.
  split; [apply mutually_exclusive_false|].
  destruct (mutually_exclusive obj1 obj2 groups different) eqn:H12;
    destruct (mutually_exclusive obj2 obj1 groups different) eqn:H21; try reflexivity.
  - apply mutually_exclusive_false in H21. destruct H21 as [g (Hg & H1 & H2 & Hd)].
    assert (mutually_exclusive obj1 obj2 groups different = false); [|congruence].
    apply mutually_exclusive_false. exists g.
    split; [exact Hg|]. split; [exact H2|]. split; [exact H1|].
    intros Ht Heq. apply (Hd Ht). symmetry. exact Heq.
  - apply mutually_exclusive_false in H12. destruct H12 as [g (Hg & H1 & H2 & Hd)].
    assert (mutually_exclusive obj2 obj1 groups different = false); [|congruence].
    apply mutually_exclusive_false. exists g.
    split; [exact Hg|]. split; [exact H2|]. split; [exact H1|].
    intros Ht Heq. apply (Hd Ht). symmetry. exact Heq.
Qed.

Lemma conflicting_iff groups c1 c2 :
  conflicting groups c1 c2 <-> mutually_exclusive c1 c2 groups true = false.
Proof.
  rewrite mutually_exclusive_false. unfold conflicting. split.
  - intros [g (Hg & H1 & H2 & Hne)]. exists g. auto.
  - intros [g (Hg & H1 & H2 & Hne)]. exists g. auto.
Qed.

Lemma is_preferred_false offered satisfied groups :
  is_preferred offered satisfied groups = false ->
  exists cb, cb ∈ satisfied /\ conflicting groups (chall offered) (chall cb).
Proof.
  induction satisfied as [|cb0 rest IH]; simpl; [discriminate|].
  destruct (mutually_exclusive (chall offered) (chall cb0) groups true) eqn:Hme; simpl.
  - intros H. destruct (IH H) as [cb [Hcb Hc]]. exists cb. split; [right|]; auto.
  - intros _. exists cb0. split; [left|]. apply conflicting_iff. exact Hme.
Qed.

Lemma offered_loop_selects groups challbs pref_c suffix : forall i path satisfied,
  (forall j cb, suffix !! j = Some cb -> challbs !! (i + j)%nat = Some cb) ->
  selection_invariant challbs path satisfied ->
  selection_invariant challbs
    (fst (offered_loop groups pref_c i suffix path satisfied))
    (snd (offered_loop groups pref_c i suffix path satisfied)) /\
  (forall k, k ∈ path -> k ∈ fst (offered_loop groups pref_c i suffix path satisfied)) /\
  (forall k, k ∈ fst (offered_loop groups pref_c i suffix path satisfied) ->
     k ∈ path \/
     exists cb, challbs !! k = Some cb /\ isinstance (chall cb) pref_c = true) /\
  (forall j cb, suffix !! j = Some cb -> isinstance (chall cb) pref_c = true ->
     (i + j)%nat ∈ fst (offered_loop groups pref_c i suffix path satisfied) \/
     excluded_by groups challbs
       (fst (offered_loop groups pref_c i suffix path satisfied)) cb).
Proof.
  induction suffix as [|cb rest IH]; intros i path satisfied Hsuf Hinv.
  - simpl. repeat split; auto. intros j cb Hj. discriminate.
  - assert (Hrest : forall j cb', rest !! j = Some cb' -> challbs !! (S i + j)%nat = Some cb').
    { intros j cb' Hj. replace (S i + j)%nat with (i + S j)%nat by lia. apply Hsuf. exact Hj. }
    assert (Hhead : challbs !! i = Some cb).
    { replace i with (i + 0)%nat by lia. apply Hsuf. reflexivity. }
    cbn [offered_loop].
    destruct (isinstance (chall cb) pref_c) eqn:Hinst; cbn [andb].
    + destruct (is_preferred cb satisfied groups) eqn:Hpref.
      * assert (Hinv' : selection_invariant challbs (path ++ [i]) (set_add cb satisfied)).
        { intros cb' Hcb'. apply elem_of_set_add in Hcb'. destruct Hcb' as [->|Hcb'].
          - exists i. split; [apply elem_of_app; right; left | exact Hhead].
          - destruct (Hinv cb' Hcb') as [j [Hj Hlk]]. exists j.
            split; [apply elem_of_app; left; exact Hj | exact Hlk]. }
        destruct (IH (S i) (path ++ [i]) (set_add cb satisfied) Hrest Hinv')
          as (Hi1 & Hmono & Hsound & Hcomp).
        split; [exact Hi1|]. split; [|split].
        -- intros k Hk. apply Hmono. apply elem_of_app. left. exact Hk.
        -- intros k Hk. destruct (Hsound k Hk) as [Hk'|Hk']; [|right; exact Hk'].
           apply elem_of_app in Hk'. destruct Hk' as [Hk'|Hk']; [left; exact Hk'|].
           apply list_elem_of_singleton in Hk'. subst k. right. exists cb. auto.
        -- intros j cb' Hj Hcb'. destruct j as [|j].
           ++ left. replace (i + 0)%nat with i by lia. apply Hmono.
              apply elem_of_app. right. left.
           ++ replace (i + S j)%nat with (S i + j)%nat by lia. apply Hcomp; assumption.
      * destruct (IH (S i) path satisfied Hrest Hinv) as (Hi1 & Hmono & Hsound & Hcomp).
        split; [exact Hi1|]. split; [exact Hmono|]. split; [exact Hsound|].
        intros j cb' Hj Hcb'. destruct j as [|j].
        -- right. simpl in Hj. injection Hj as <-.
           destruct (is_preferred_false _ _ _ Hpref) as [cs [Hcs Hconf]].
           destruct (Hinv cs Hcs) as [k [Hk Hlk]].
           exists k, cs. split; [apply Hmono; exact Hk|]. split; assumption.
        -- replace (i + S j)%nat with (S i + j)%nat by lia. apply Hcomp; assumption.
    + destruct (IH (S i) path satisfied Hrest Hinv) as (Hi1 & Hmono & Hsound & Hcomp).
      split; [exact Hi1|]. split; [exact Hmono|]. split; [exact Hsound|].
      intros j cb' Hj Hcb'. destruct j as [|j].
      * simpl in Hj. injection Hj as <-. congruence.
      * replace (i + S j)%nat with (S i + j)%nat by lia. apply Hcomp; assumption.
Qed.

Lemma excluded_by_mono groups challbs path path' cb :
  (forall k, k ∈ path -> k ∈ path') ->
  excluded_by groups challbs path cb -> excluded_by groups challbs path' cb.
Proof. intros Hsub [k [ck (Hk & Hlk & Hc)]]. exists k, ck. auto. Qed.

Lemma preferences_loop_selects groups challbs preferences : forall path satisfied,
  selection_invariant challbs path satisfied ->
  (forall k, k ∈ path -> k ∈ fst (preferences_loop groups preferences challbs path satisfied)) /\
  (forall k, k ∈ fst (preferences_loop groups preferences challbs path satisfied) ->
     k ∈ path \/
     exists cb, challbs !! k = Some cb /\ preferred preferences (chall cb)) /\
  (forall i cb, challbs !! i = Some cb -> preferred preferences (chall cb) ->
     i ∈ fst (preferences_loop groups preferences challbs path satisfied) \/
     excluded_by groups challbs
       (fst (preferences_loop groups preferences challbs path satisfied)) cb).
Proof.
  induction preferences as [|pref_c rest IH]; intros path satisfied Hinv.
  - simpl. split; [auto|]. split; [auto|].
    intros i cb _ [p [Hp _]]. apply elem_of_nil in Hp. contradiction.
  - cbn [preferences_loop].
    destruct (offered_loop_selects groups challbs pref_c challbs 0 path satisfied
                (fun j cb H => H) Hinv) as (Hinv1 & Hmono1 & Hsound1 & Hcomp1).
    destruct (offered_loop groups pref_c 0 challbs path satisfied) as [path1 sat1].
    cbn [fst snd] in *.
    destruct (IH path1 sat1 Hinv1) as (Hmono & Hsound & Hcomp).
    split; [auto|]. split.
    + intros k Hk. destruct (Hsound k Hk) as [Hk1|[cb [Hlk [p [Hp Hi]]]]].
      * destruct (Hsound1 k Hk1) as [Hk0|[cb [Hlk Hi]]]; [left; exact Hk0|].
        right. exists cb. split; [exact Hlk|]. exists pref_c. split; [left | exact Hi].
      * right. exists cb. split; [exact Hlk|]. exists p. split; [right; exact Hp | exact Hi].
    + intros i cb Hlk [p [Hp Hi]]. apply elem_of_cons in Hp. destruct Hp as [->|Hp].
      * destruct (Hcomp1 i cb Hlk Hi) as [Hin|Hex].
        -- left. apply Hmono. exact Hin.
        -- right. eapply excluded_by_mono; [exact Hmono | exact Hex].
      * apply Hcomp; [exact Hlk|]. exists p. auto.
Qed.

Lemma dumb_path_only_preferred_cases groups challbs preferences :
  match _find_dumb_path groups challbs preferences with
  | Ret path =>
      NoDup preferences /\
      forall i, i ∈ path ->
        exists cb, challbs !! i = Some cb /\ preferred preferences (chall cb)
  | Raise e => e = AssertionError /\ ~ NoDup preferences
  end.
Proof.
  unfold _find_dumb_path. destruct (bool_decide (NoDup preferences)) eqn:Hnd.
  - apply bool_decide_eq_true in Hnd. split; [exact Hnd|].
    assert (Hinit : selection_invariant challbs [] []).
    { intros cb H. apply elem_of_nil in H. contradiction. }
    destruct (preferences_loop_selects groups challbs preferences [] [] Hinit)
      as (_ & Hsound & _).
    intros i Hi. destruct (Hsound i Hi) as [H|H]; [|exact H].
    apply elem_of_nil in H. contradiction.
  - apply bool_decide_eq_false in Hnd. split; [reflexivity | exact Hnd].
Qed.

(** X2. [_find_dumb_path] fails its assertion exactly on a preference
    list with a repeated class; otherwise every index it returns is an
    index of the offered sequence, and the challenge there is an instance
    of some preferred class. *)
Theorem dumb_path_only_preferred groups challbs preferences :
  match _find_dumb_path groups challbs preferences with
  | Ret path =>
      NoDup preferences /\
      forall i, i ∈ path ->
        exists cb, challbs !! i = Some cb /\ preferred preferences (chall cb)
  | Raise e => e = AssertionError /\ ~ NoDup preferences
  end.
Proof. exact (dumb_path_only_preferred_cases groups challbs preferences). Qed.

(** X3. The dumb path leaves out no challenge it could have taken: an
    offered challenge that is an instance of a preferred class is either
    on the path or mutually exclusive with a challenge on the path. *)
Theorem dumb_path_maximal groups challbs preferences :
  NoDup preferences ->
  exists path,
    _find_dumb_path groups challbs preferences = Ret path /\
    forall i cb, challbs !! i = Some cb -> preferred preferences (chall cb) ->
      i ∈ path \/ excluded_by groups challbs path cb.
Proof.
  intros Hnd. unfold _find_dumb_path. rewrite bool_decide_eq_true_2 by exact Hnd.
  eexists. split; [reflexivity|].
  assert (Hinit : selection_invariant challbs [] []).
  { intros cb H. apply elem_of_nil in H. contradiction. }
  destruct (preferences_loop_selects groups challbs preferences [] [] Hinit)
    as (_ & _ & Hcomp).
  exact Hcomp.
Qed.

Lemma dumb_path_maximal_witness :
  NoDup dumb_preferences_example /\
  exists path,
    _find_dumb_path groups_example dumb_offered_example dumb_preferences_example = Ret path /\
    forall i cb, dumb_offered_example !! i = Some cb ->
      preferred dumb_preferences_example (chall cb) ->
      i ∈ path \/ excluded_by groups_example dumb_offered_example path cb.
Proof.
  assert (H : NoDup dumb_preferences_example).
  { apply (bool_decide_unpack (NoDup dumb_preferences_example)). vm_compute. exact I. }
  split; [exact H|].
  apply (dumb_path_maximal groups_example dumb_offered_example dumb_preferences_example H).
Defined.

Lemma combinations_loop_member challbs chall_cost max_cost combos :
  forall best best_cost best' cost',
    combinations_loop challbs chall_cost max_cost combos best best_cost = Ret (best', cost') ->
    best' = best \/ best' ∈ combos.
Proof.
  induction combos as [|combo rest IH]; intros best best_cost best' cost'; simpl.
  - intros [= <- <-]. left. reflexivity.
  - destruct (combo_loop challbs chall_cost max_cost combo 0) as [total|e]; [|discriminate].
    destruct (total <? best_cost); intros H; apply IH in H.
    + destruct H as [->|H]; right; [left | right; exact H].
    + destruct H as [->|H]; [left; reflexivity | right; right; exact H].
Qed.

Lemma smart_path_member challbs preferences combos best :
  _find_smart_path challbs preferences combos = Ret best ->
  best ∈ combos /\ best <> [].
Proof.
  unfold _find_smart_path.
  destruct (rank_loop 0 preferences ∅ 1) as [chall_cost max_cost].
  destruct (combinations_loop challbs chall_cost max_cost combos [] max_cost)
    as [[b c]|e] eqn:Hloop; [|discriminate].
  destruct b as [|i b]; [discriminate|]. intros [= <-].
  apply combinations_loop_member in Hloop. destruct Hloop as [H|H]; [discriminate|].
  split; [exact H | discriminate].
Qed.

(** Whatever path the planner returns, each of its indices is an index
    of the offered sequence. *)
Lemma gen_challenge_path_in_range groups challbs preferences combos path :
  gen_challenge_path groups challbs preferences combos = Ret path ->
  forall i, i ∈ path -> index_in_range (length challbs) i.
Proof.
  unfold gen_challenge_path. destruct combos as [|combo rest].
  - pose proof (dumb_path_only_preferred_cases groups challbs preferences) as Hdumb.
    destruct (_find_dumb_path groups challbs preferences) as [p|e]; [|discriminate].
    intros [= <-] i Hi. apply list_elem_of_fmap in Hi. destruct Hi as [n [-> Hn]].
    destruct Hdumb as [_ Hsound]. destruct (Hsound n Hn) as [cb [Hlk _]].
    apply lookup_lt_Some in Hlk. unfold index_in_range. lia.
  - intros Hsmart i Hi.
    pose proof (smart_path_outcomes challbs preferences (combo :: rest)) as Hout.
    destruct (smart_path_member _ _ _ _ Hsmart) as [Hmem _].
    rewrite Hsmart in Hout. eapply Hout; eauto.
Qed.

End PlannerLaws.

(** ** The handler's helpers *)

Module HandlerLaws.
Import Handler.
Import PlannerSpec.
Import PlannerNotions.
Import HandlerSpec.
Import HandlerNotions.
Import HandlerFacts.

Lemma achall_chall_annotated cb k dom :
  achall_chall (challb_to_achall cb k dom) = chall cb.
Proof. unfold challb_to_achall, achall_chall. destruct (typ (chall cb)); reflexivity. Qed.

Lemma domain_annotated cb k dom : domain (challb_to_achall cb k dom) = dom.
Proof. unfold challb_to_achall. destruct (typ (chall cb)); reflexivity. Qed.

Lemma cont_or_dv (c : Challenge) :
  isinstance c ContinuityChallenge = negb (isinstance c DVChallenge).
Proof. reflexivity. Qed.

Lemma is_cont_not_dv (a : AnnotatedChallenge) : is_cont_achall a <-> ~ is_dv_achall a.
Proof.
  unfold is_cont_achall, is_dv_achall. rewrite cont_or_dv.
  destruct (isinstance (achall_chall a) DVChallenge); simpl; split; congruence.
Qed.

Lemma filter_cont_dv_length (l : list AnnotatedChallenge) :
  (length (filter is_cont_achall l) + length (filter is_dv_achall l) = length l)%nat.
Proof.
  induction l as [|a l IH]; [reflexivity|].
  rewrite !filter_cons.
  destruct (decide (is_cont_achall a)) as [Hc|Hc], (decide (is_dv_achall a)) as [Hd|Hd];
    simpl; try lia.
  - apply is_cont_not_dv in Hc. contradiction.
  - exfalso. apply Hc. apply is_cont_not_dv. exact Hd.
Qed.

Lemma factory_loop_cases az a k dom path :
  az !! dom = Some a ->
  forall dv cont,
  factory_loop az k dom path dv cont =
  match index_all (challenges (body a)) path with
  | Some cbs =>
      Ret (cont ++ filter is_cont_achall (annotate k dom cbs),
           dv ++ filter is_dv_achall (annotate k dom cbs))
  | None => Raise IndexError
  end.
Proof.
  intros Haz.
  induction path as [|i rest IH]; intros dv cont; cbn [factory_loop index_all].
  - unfold annotate. rewrite fmap_nil, !filter_nil, !app_nil_r. reflexivity.
  - rewrite Haz.
    destruct (py_index (challenges (body a)) i) as [cb|]; [|reflexivity].
    pose proof (achall_chall_annotated cb k dom) as Hch.
    destruct (isinstance (chall cb) ContinuityChallenge) eqn:Hcont.
    + rewrite IH. destruct (index_all (challenges (body a)) rest) as [cbs|]; [|reflexivity].
      unfold annotate. rewrite fmap_cons, !filter_cons.
      rewrite decide_True by (unfold is_cont_achall; rewrite Hch; exact Hcont).
      rewrite decide_False.
      * rewrite <- app_assoc. reflexivity.
      * unfold is_dv_achall. rewrite Hch. rewrite cont_or_dv in Hcont.
        destruct (isinstance (chall cb) DVChallenge); simpl in Hcont; congruence.
    + assert (Hdv : isinstance (chall cb) DVChallenge = true).
      { rewrite cont_or_dv in Hcont.
        destruct (isinstance (chall cb) DVChallenge); simpl in Hcont; congruence. }
      rewrite Hdv, IH.
      destruct (index_all (challenges (body a)) rest) as [cbs|]; [|reflexivity].
      unfold annotate. rewrite fmap_cons, !filter_cons.
      rewrite decide_False by (unfold is_cont_achall; rewrite Hch, Hcont; discriminate).
      rewrite decide_True by (unfold is_dv_achall; rewrite Hch; exact Hdv).
      rewrite <- app_assoc. reflexivity.
Qed.

Lemma index_all_None_iff (challbs : list ChallengeBody) path :
  index_all challbs path = None <->
  exists i, i ∈ path /\ ~ index_in_range (length challbs) i.
Proof.
  induction path as [|i rest IH]; simpl.
  - split; [discriminate|]. intros [i [Hi _]]. apply elem_of_nil in Hi. contradiction.
  - destruct (py_index challbs i) as [cb|] eqn:Hcb.
    + destruct (index_all challbs rest) as [cbs|].
      * split; [discriminate|]. intros [j [Hj Hout]]. apply elem_of_cons in Hj.
        destruct Hj as [->|Hj].
        -- exfalso. apply Hout. apply py_index_is_Some. eauto.
        -- assert (Hnone : Some cbs = None) by (apply IH; eauto). discriminate.
      * split; [intros _ | reflexivity].
        destruct (proj1 IH eq_refl) as [j [Hj Hout]]. exists j. split; [right|]; auto.
    + split; [intros _ | reflexivity]. exists i. split; [left|]. apply py_index_None. exact Hcb.
Qed.

Lemma index_all_length (challbs : list ChallengeBody) path : forall cbs,
  index_all challbs path = Some cbs -> length cbs = length path.
Proof.
  induction path as [|i rest IH]; intros cbs; simpl.
  - intros [= <-]. reflexivity.
  - destruct (py_index challbs i); [|discriminate].
    destruct (index_all challbs rest) as [cbs'|]; [|discriminate].
    intros [= <-]. simpl. f_equal. apply IH. reflexivity.
Qed.

(** X4. [_challenge_factory] never changes the handler. For a path
    without index it returns two empty lists, whatever the domain; for
    any other path it raises [KeyError] for a domain the map lacks and
    [IndexError] exactly when an index of the path is outside the
    authorization's challenges, and else returns the annotated
    challenges of the path split in two, the continuity ones and the DV
    ones, each in path order and together as many as the path is long. *)
Theorem challenge_factory_partition account dom path s :
  _challenge_factory account dom path s =
    Some (match path, authzr s !! dom with
          | [], _ => Ret ([], [])
          | _ :: _, None => Raise KeyError
          | _ :: _, Some a =>
              match index_all (challenges (body a)) path with
              | Some cbs =>
                  Ret (filter is_cont_achall (annotate (key account) dom cbs),
                       filter is_dv_achall (annotate (key account) dom cbs))
              | None => Raise IndexError
              end
          end, s) /\
  (forall a, index_all (challenges (body a)) path = None <->
             exists i, i ∈ path /\ ~ index_in_range (length (challenges (body a))) i) /\
  (forall a cbs, index_all (challenges (body a)) path = Some cbs ->
     (length (filter is_cont_achall (annotate (key account) dom cbs)) +
      length (filter is_dv_achall (annotate (key account) dom cbs)) = length path)%nat).
Proof.
  split; [|split].
  - unfold _challenge_factory, bind, get_state, lift.
    destruct path as [|i rest]; [reflexivity|].
    destruct (authzr s !! dom) as [a|] eqn:Haz.
    + rewrite (factory_loop_cases _ a _ _ _ Haz). reflexivity.
    + cbn [factory_loop]. rewrite Haz. reflexivity.
  - intros a. apply index_all_None_iff.
  - intros a cbs Hcbs. rewrite filter_cont_dv_length. unfold annotate.
    rewrite length_fmap. eapply index_all_length. exact Hcbs.
Qed.

(** X5. A path the planner returns for an authorization's challenges
    never makes [_challenge_factory] fail: the factory returns one
    annotated challenge per index of the path, each for the domain, the
    first list of the continuity family and the second of the DV
    family. *)
Theorem planned_path_builds groups account dom preferences combos path s a :
  authzr s !! dom = Some a ->
  Planner.gen_challenge_path groups (challenges (body a)) preferences combos = Ret path ->
  exists cont_chall dv_chall,
    _challenge_factory account dom path s = Some (Ret (cont_chall, dv_chall), s) /\
    (length cont_chall + length dv_chall = length path)%nat /\
    Forall is_cont_achall cont_chall /\ Forall is_dv_achall dv_chall /\
    Forall (fun achall => domain achall = dom) (cont_chall ++ dv_chall).
Proof.
  intros Hlk Hpath.
  pose proof (PlannerLaws.gen_challenge_path_in_range _ _ _ _ _ Hpath) as Hrange.
  destruct (index_all (challenges (body a)) path) as [cbs|] eqn:Hall.
  - exists (filter is_cont_achall (annotate (key account) dom cbs)),
           (filter is_dv_achall (annotate (key account) dom cbs)).
    split; [|split; [|split; [|split]]].
    + unfold _challenge_factory, bind, get_state, lift.
      rewrite (factory_loop_cases _ a _ _ _ Hlk), Hall. reflexivity.
    + rewrite filter_cont_dv_length. unfold annotate. rewrite length_fmap.
      eapply index_all_length. exact Hall.
    + apply Forall_forall. intros x Hx. apply list_elem_of_filter in Hx. apply Hx.
    + apply Forall_forall. intros x Hx. apply list_elem_of_filter in Hx. apply Hx.
    + apply Forall_forall. intros x Hx. apply elem_of_app in Hx.
      assert (Hin : x ∈ annotate (key account) dom cbs).
      { destruct Hx as [Hx|Hx]; apply list_elem_of_filter in Hx; apply Hx. }
      unfold annotate in Hin. apply list_elem_of_fmap in Hin.
      destruct Hin as [cb [-> _]]. apply domain_annotated.
  - exfalso. apply index_all_None_iff in Hall. destruct Hall as [i [Hi Hout]].
    apply Hout. apply Hrange. exact Hi.
Qed.

Lemma planned_path_builds_witness :
  exists cont_chall dv_chall,
    _challenge_factory scenario_account "example.com" [0; 2] pending_handler =
      Some (Ret (cont_chall, dv_chall), pending_handler) /\
    (length cont_chall + length dv_chall = length [0; 2])%nat /\
    Forall is_cont_achall cont_chall /\ Forall is_dv_achall dv_chall /\
    Forall (fun achall => domain achall = "example.com"%string) (cont_chall ++ dv_chall).
Proof.
  apply (planned_path_builds [[Concrete DVSNI; Concrete SimpleHTTP]] scenario_account
           "example.com" [Concrete RecoveryToken; Concrete SimpleHTTP] [[0; 2]; [1; 2]]
           [0; 2] pending_handler (scenario_authzr "example.com" STATUS_PENDING)).
  - reflexivity.
  - vm_compute. reflexivity.
Defined.

Lemma handler_eta s : mkAuthHandler (authzr s) (dv_c s) (cont_c s) (trace s) = s.
Proof. destruct s. reflexivity. Qed.

Lemma list_remove_fresh_prefix {A : Type} `{EqDecision A} (x : A) (kept rest : list A) :
  x ∉ kept -> list_remove x (kept ++ x :: rest) = Some (kept ++ rest).
Proof.
  induction kept as [|y kept IH]; intros Hnot; simpl.
  - rewrite decide_True by reflexivity. reflexivity.
  - apply not_elem_of_cons in Hnot. destruct Hnot as [Hne Hnot].
    rewrite decide_False by exact Hne. rewrite IH by exact Hnot. reflexivity.
Qed.

Lemma remove_while_iterating_past {A : Type} `{EqDecision A} (n i : nat) (l : list A) :
  (length l <= i)%nat -> remove_while_iterating n i l = Ret l.
Proof.
  intros Hlen. destruct n as [|n]; simpl; [reflexivity|].
  rewrite (proj2 (lookup_ge_None l i)) by exact Hlen. reflexivity.
Qed.

Lemma remove_while_iterating_odd {A : Type} `{EqDecision A} (n : nat) :
  forall kept rest : list A,
    NoDup (kept ++ rest) -> (length rest <= n)%nat ->
    remove_while_iterating n (length kept) (kept ++ rest) = Ret (kept ++ odd_positions rest).
Proof.
  induction n as [|n IH]; intros kept rest Hnd Hlen.
  - destruct rest; [|simpl in Hlen; lia]. reflexivity.
  - destruct rest as [|x rest].
    + simpl odd_positions. apply remove_while_iterating_past. rewrite app_nil_r. lia.
    + cbn [remove_while_iterating].
      rewrite lookup_app_r by lia. rewrite Nat.sub_diag. cbn [lookup list_lookup].
      apply NoDup_app in Hnd as Hparts. destruct Hparts as (Hk & Hdisj & Hrest).
      assert (Hx : x ∉ kept).
      { intros Hin. apply (Hdisj x Hin). left. }
      rewrite list_remove_fresh_prefix by exact Hx.
      destruct rest as [|y rest].
      * simpl odd_positions. apply remove_while_iterating_past. rewrite app_nil_r. lia.
      * replace (kept ++ y :: rest) with ((kept ++ [y]) ++ rest)
          by (rewrite <- app_assoc; reflexivity).
        replace (S (length kept)) with (length (kept ++ [y]))
          by (rewrite length_app; simpl; lia).
        rewrite IH.
        -- simpl odd_positions. rewrite <- app_assoc. reflexivity.
        -- rewrite <- app_assoc. simpl.
           apply NoDup_app. split; [exact Hk|]. split.
           ++ intros z Hz Hz'. apply (Hdisj z Hz). right. exact Hz'.
           ++ apply NoDup_cons in Hrest. apply Hrest.
        -- simpl in Hlen. lia.
Qed.

(** X6. Full cleanup walks the list it removes from. On lists without
    repetition, [_cleanup_challenges()] calls both authenticators'
    cleanup on the whole lists and then leaves in [dv_c] and [cont_c]
    the challenges that stood at the odd positions 1, 3, 5, ...; the
    lists end up empty only when they held at most one challenge each. *)
Theorem full_cleanup_leaves_odd_positions s :
  NoDup (dv_c s) -> NoDup (cont_c s) ->
  _cleanup_challenges None s =
  Some (Ret tt,
        mkAuthHandler (authzr s) (odd_positions (dv_c s)) (odd_positions (cont_c s))
          (cleanup_events (dv_c s) (cont_c s) ++ trace s)).
Proof.
  intros Hdv Hcont. destruct s as [az dv cont tr]. simpl in *.
  pose proof (remove_while_iterating_odd (length dv) [] dv Hdv (le_n _)) as Hrdv.
  pose proof (remove_while_iterating_odd (length cont) [] cont Hcont (le_n _)) as Hrcont.
  simpl in Hrdv, Hrcont.
  unfold _cleanup_challenges, cleanup_events.
  destruct dv as [|a dv]; destruct cont as [|b cont];
    cbn [bind get_state ret emit lift set_dv_c set_cont_c dv_c cont_c authzr trace];
    unfold bind, lift; cbn [dv_c cont_c authzr trace];
    try rewrite Hrdv; cbn [set_dv_c emit dv_c cont_c authzr trace];
    try rewrite Hrcont; reflexivity.
Qed.

Lemma full_cleanup_leaves_odd_positions_witness :
  NoDup (dv_c two_dv_handler) /\ NoDup (cont_c two_dv_handler) /\
  _cleanup_challenges None two_dv_handler =
  Some (Ret tt,
        mkAuthHandler ∅ [dvsni_achall "b.test"] []
          [EvDvCleanup [dvsni_achall "a.test"; dvsni_achall "b.test"]]).
Proof.
  assert (H1 : NoDup (dv_c two_dv_handler)).
  { apply (bool_decide_unpack (NoDup (dv_c two_dv_handler))). vm_compute. exact I. }
  assert (H2 : NoDup (cont_c two_dv_handler)) by constructor.
  split; [exact H1|]. split; [exact H2|].
  exact (full_cleanup_leaves_odd_positions two_dv_handler H1 H2).
Defined.

Lemma send_responses_run achalls : forall resps chall_update s,
  _send_responses achalls resps chall_update s =
  Some (Ret (fst <$> answered achalls resps,
             foldl record_active chall_update (fst <$> answered achalls resps)),
        mkAuthHandler (authzr s) (dv_c s) (cont_c s)
          (rev (answer_event <$> answered achalls resps) ++ trace s)).
Proof.
  induction achalls as [|achall rest IH]; intros resps chall_update s.
  - simpl. destruct resps; cbn; rewrite handler_eta; reflexivity.
  - destruct resps as [|[r|] resps].
    + cbn. rewrite handler_eta. reflexivity.
    + cbn [_send_responses answered]. unfold bind at 1. cbn [emit].
      unfold bind at 1. rewrite IH. cbn [authzr dv_c cont_c trace ret fmap list_fmap fst].
      cbn [foldl]. simpl rev. rewrite <- app_assoc. reflexivity.
    + cbn [_send_responses answered]. apply IH.
Qed.

Lemma record_active_lookup chall_update achall d :
  record_active chall_update achall !! d =
  if decide (domain achall = d)
  then Some (default [] (chall_update !! d) ++ [achall])
  else chall_update !! d.
Proof.
  unfold record_active. destruct (decide (domain achall = d)) as [<-|Hne].
  - destruct (chall_update !! domain achall); rewrite lookup_insert_eq; reflexivity.
  - destruct (chall_update !! domain achall); rewrite lookup_insert_ne by exact Hne;
      reflexivity.
Qed.

Lemma foldl_record_active_lookup (l : list AnnotatedChallenge) : forall chall_update d,
  foldl record_active chall_update l !! d =
  match filter (fun achall => domain achall = d) l with
  | [] => chall_update !! d
  | _ :: _ =>
      Some (default [] (chall_update !! d) ++ filter (fun achall => domain achall = d) l)
  end.
Proof.
  induction l as [|a l IH]; intros chall_update d; [reflexivity|].
  cbn [foldl]. rewrite IH, filter_cons, record_active_lookup.
  destruct (decide (domain a = d)) as [Heq|Hne].
  - destruct (filter (fun achall => domain achall = d) l); simpl.
    + reflexivity.
    + rewrite <- app_assoc. reflexivity.
  - reflexivity.
Qed.

Lemma answered_sublist achalls : forall resps,
  (fst <$> answered achalls resps) `sublist_of` achalls.
Proof.
  induction achalls as [|a rest IH]; intros resps.
  - destruct resps; constructor.
  - destruct resps as [|[r|] resps]; simpl.
    + apply sublist_nil_l.
    + apply sublist_skip, IH.
    + apply sublist_cons, IH.
Qed.

(** X7. [_send_responses] posts an answer for each annotated challenge
    whose response is truthy, in order and for no other, and changes
    nothing else in the handler; it returns exactly those challenges as
    active, and [chall_update] gains, under each domain, that domain's
    active challenges in order after what it held. *)
Theorem send_responses_only_truthy achalls resps chall_update s :
  exists active chall_update',
    _send_responses achalls resps chall_update s =
      Some (Ret (active, chall_update'),
            mkAuthHandler (authzr s) (dv_c s) (cont_c s)
              (rev (answer_event <$> answered achalls resps) ++ trace s)) /\
    active = fst <$> answered achalls resps /\
    active `sublist_of` achalls /\
    forall d,
      chall_update' !! d =
      match filter (fun achall => domain achall = d) active with
      | [] => chall_update !! d
      | _ :: _ =>
          Some (default [] (chall_update !! d) ++
                filter (fun achall => domain achall = d) active)
      end.
Proof.
  exists (fst <$> answered achalls resps),
         (foldl record_active chall_update (fst <$> answered achalls resps)).
  split; [apply send_responses_run|]. split; [reflexivity|].
  split; [apply answered_sublist|]. intros d. apply foldl_record_active_lookup.
Qed.

Lemma chall_status_loop_reported cbs achall :
  chall_status_loop cbs achall =
  match cb_status <$>
          List.find (fun cb => bool_decide (class_of (chall cb) = class_of (achall_chall achall)))
            cbs with
  | Some st => Ret st
  | None => Raise (AuthorizationError target_not_found_msg)
  end.
Proof.
  induction cbs as [|cb rest IH]; simpl; [reflexivity|].
  destruct (bool_decide (class_of (chall cb) = class_of (achall_chall achall)));
    [reflexivity | exact IH].
Qed.

Lemma status_loop_cases a achalls : forall completed failed,
  status_loop a achalls completed failed =
  if bool_decide (Forall (fun achall => is_Some (reported a achall)) achalls)
  then Ret (completed ++ filter (fun achall => reported a achall = Some STATUS_VALID) achalls,
            failed ++ filter (fun achall => reported a achall = Some STATUS_INVALID) achalls)
  else Raise (AuthorizationError target_not_found_msg).
Proof.
  induction achalls as [|achall rest IH]; intros completed failed.
  - cbn [status_loop]. rewrite bool_decide_eq_true_2 by constructor.
    rewrite !filter_nil, !app_nil_r. reflexivity.
  - cbn [status_loop]. unfold _get_chall_status. rewrite chall_status_loop_reported.
    fold (reported a achall).
    destruct (reported a achall) as [st|] eqn:Hrep.
    + assert (Hall : bool_decide (Forall (fun x => is_Some (reported a x)) (achall :: rest)) =
                     bool_decide (Forall (fun x => is_Some (reported a x)) rest)).
      { apply bool_decide_ext. rewrite Forall_cons. rewrite Hrep. split; [tauto|].
        intros H. split; [eauto | exact H]. }
      rewrite Hall, !filter_cons, Hrep.
      destruct st; rewrite IH;
        destruct (bool_decide (Forall (fun x => is_Some (reported a x)) rest));
        try reflexivity;
        repeat (first [rewrite decide_True by reflexivity
                      | rewrite decide_False by discriminate]);
        rewrite <- ?app_assoc; reflexivity.
    + rewrite bool_decide_eq_false_2; [reflexivity|].
      intros H. apply Forall_cons in H. destruct H as [[st Hst] _]. congruence.
Qed.

Lemma handle_check_run w dom achalls s :
  _handle_check w dom achalls s =
  match authzr s !! dom with
  | None => Some (Raise KeyError, s)
  | Some old =>
      Some (check_result (poll w (trace s) old) achalls,
            mkAuthHandler (<[dom := poll w (trace s) old]> (authzr s)) (dv_c s) (cont_c s)
              (EvPoll old :: trace s))
  end.
Proof.
  unfold _handle_check. unfold bind at 1. unfold get_authzr at 1.
  destruct (authzr s !! dom) as [old|]; [|reflexivity].
  cbn [bind get_state emit set_authzr]. unfold bind, get_authzr.
  cbn [authzr dv_c cont_c trace]. rewrite lookup_insert_eq.
  unfold check_result.
  destruct (bool_decide (status (body (poll w (trace s) old)) = STATUS_VALID));
    [reflexivity|].
  unfold lift. rewrite status_loop_cases. reflexivity.
Qed.

Lemma check_result_sublists a achalls completed failed :
  check_result a achalls = Ret (completed, failed) ->
  completed `sublist_of` achalls /\ failed `sublist_of` achalls /\
  (forall x, x ∈ completed -> x ∈ failed -> False) /\
  (status (body a) <> STATUS_VALID ->
   completed = filter (fun achall => reported a achall = Some STATUS_VALID) achalls).
Proof.
  unfold check_result.
  destruct (bool_decide (status (body a) = STATUS_VALID)) eqn:Hvalid.
  - intros [= <- <-]. apply bool_decide_eq_true in Hvalid.
    split; [reflexivity|]. split; [apply sublist_nil_l|]. split.
    + intros x _ Hx. apply elem_of_nil in Hx. exact Hx.
    + intros Hne. contradiction.
  - destruct (bool_decide (Forall _ achalls)); [|discriminate].
    intros [= <- <-]. split; [apply sublist_filter|]. split; [apply sublist_filter|]. split.
    + intros x Hc Hf. apply list_elem_of_filter in Hc. apply list_elem_of_filter in Hf.
      destruct Hc as [Hc _]. destruct Hf as [Hf _]. congruence.
    + reflexivity.
Qed.

(** X8. [_handle_check] raises [KeyError] for a domain the map lacks;
    otherwise it polls the domain's authorization once and stores the
    answer in the map. A [valid] answer makes every challenge passed in
    completed, whatever the challenge statuses say; any other answer
    gives the challenges reported [valid] and those reported [invalid],
    two disjoint sublists in order, or [AuthorizationError] when the
    answer has no challenge of the class of one passed in. *)
Theorem handle_check_cases w dom achalls s :
  _handle_check w dom achalls s =
  match authzr s !! dom with
  | None => Some (Raise KeyError, s)
  | Some old =>
      Some (check_result (poll w (trace s) old) achalls,
            mkAuthHandler (<[dom := poll w (trace s) old]> (authzr s)) (dv_c s) (cont_c s)
              (EvPoll old :: trace s))
  end /\
  (forall a completed failed,
     check_result a achalls = Ret (completed, failed) ->
     completed `sublist_of` achalls /\ failed `sublist_of` achalls /\
     (forall x, x ∈ completed -> x ∈ failed -> False)) /\
  (forall a, status (body a) = STATUS_VALID -> check_result a achalls = Ret (achalls, [])) /\
  (forall a e, check_result a achalls = Raise e ->
     e = AuthorizationError target_not_found_msg /\
     exists achall, achall ∈ achalls /\ reported a achall = None).
Proof.
  split; [apply handle_check_run|]. split; [|split].
  - intros a completed failed H. apply check_result_sublists in H. tauto.
  - intros a Hvalid. unfold check_result. rewrite bool_decide_eq_true_2 by exact Hvalid.
    reflexivity.
  - intros a e. unfold check_result.
    destruct (bool_decide (status (body a) = STATUS_VALID)); [discriminate|].
    destruct (bool_decide (Forall (fun achall => is_Some (reported a achall)) achalls))
      eqn:Hall; [discriminate|].
    intros [= <-]. split; [reflexivity|].
    apply bool_decide_eq_false in Hall. apply not_Forall_Exists in Hall; [|apply _].
    apply Exists_exists in Hall. destruct Hall as [x [Hx Hnone]]. exists x.
    split; [exact Hx|]. apply eq_None_not_Some. exact Hnone.
Qed.

Lemma list_remove_elem_of {A : Type} `{EqDecision A} (x : A) (l : list A) :
  x ∈ l -> exists l', list_remove x l = Some l' /\ l ≡ₚ x :: l'.
Proof.
  induction l as [|y l IH]; intros Hin; [apply elem_of_nil in Hin; contradiction|].
  simpl. destruct (decide (x = y)) as [->|Hne]; [eauto|].
  apply elem_of_cons in Hin. destruct Hin as [Heq|Hin]; [contradiction|].
  destruct (IH Hin) as [l' [-> Hperm]]. eexists. split; [reflexivity|].
  rewrite Hperm. apply Permutation_swap.
Qed.

Lemma remove_each_submseteq {A : Type} `{EqDecision A} (todo : list A) : forall l,
  todo ⊆+ l -> exists l', remove_each todo l = Ret l' /\ l ≡ₚ todo ++ l'.
Proof.
  induction todo as [|x todo IH]; intros l Hsub; simpl; [eauto|].
  apply submseteq_cons_l in Hsub. destruct Hsub as [k [Hperm Hsub]].
  destruct (list_remove_elem_of x l) as [l1 [-> Hl1]].
  { rewrite Hperm. apply elem_of_cons. left. reflexivity. }
  assert (Hk : k ≡ₚ l1).
  { apply (Permutation_cons_inv (a := x)). rewrite <- Hperm. exact Hl1. }
  rewrite Hk in Hsub. destruct (IH l1 Hsub) as [l' [-> Hl']].
  eexists. split; [reflexivity|]. rewrite Hl1, Hl'. reflexivity.
Qed.

Lemma polled_only_refl D s : polled_only D s s.
Proof. unfold polled_only. auto. Qed.

Lemma polled_only_trans D s1 s2 s3 :
  polled_only D s1 s2 -> polled_only D s2 s3 -> polled_only D s1 s3.
Proof.
  intros (Hdv1 & Hc1 & Hd1 & Ho1) (Hdv2 & Hc2 & Hd2 & Ho2). unfold polled_only.
  split; [congruence|]. split; [congruence|]. split; [congruence|].
  intros d Hd. rewrite Ho2, Ho1 by exact Hd. reflexivity.
Qed.

Lemma polled_only_trace D s tr :
  polled_only D s (mkAuthHandler (authzr s) (dv_c s) (cont_c s) tr).
Proof. unfold polled_only. simpl. auto. Qed.

Lemma polled_only_insert D s d old a tr :
  d ∈ D -> authzr s !! d = Some old ->
  polled_only D s (mkAuthHandler (<[d := a]> (authzr s)) (dv_c s) (cont_c s) tr).
Proof.
  intros Hd Hold. unfold polled_only. cbn [authzr dv_c cont_c].
  split; [reflexivity|]. split; [reflexivity|]. split.
  - apply dom_insert_lookup_L. eauto.
  - intros d' Hd'. apply lookup_insert_ne. intros ->. contradiction.
Qed.

Lemma poll_exception_earlier be D s s1 e :
  polled_only D s s1 -> poll_exception be D s1 e -> poll_exception be D s e.
Proof.
  intros (_ & _ & Hdom & _) [[-> [d [Hd Hnone]]]|H]; [|right; exact H].
  left. split; [reflexivity|]. exists d. split; [exact Hd|].
  apply (not_elem_of_dom (D := gset string)).
  rewrite <- Hdom. apply not_elem_of_dom. exact Hnone.
Qed.

Lemma check_domains_effects w be (D : gset string) : forall doms cu comp s r s',
  (forall d, d ∈ doms -> d ∈ D) ->
  (forall d, d ∈ doms -> d ∈ (dom cu : gset string)) ->
  check_domains w be doms cu comp s = Some (r, s') ->
  polled_only D s s' /\
  match r with
  | Ret (cu', _) => (dom cu' : gset string) = dom cu
  | Raise e => poll_exception be D s e
  end.
Proof.
  induction doms as [|d rest IH]; intros cu comp s r s' HD Hcu Hrun.
  - cbn in Hrun. injection Hrun as <- <-. split; [apply polled_only_refl | reflexivity].
  - assert (HdD : d ∈ D) by (apply HD; apply elem_of_cons; auto).
    assert (HD' : forall d', d' ∈ rest -> d' ∈ D)
      by (intros d' Hd'; apply HD; apply elem_of_cons; auto).
    assert (Hcu' : forall d', d' ∈ rest -> d' ∈ (dom cu : gset string))
      by (intros d' Hd'; apply Hcu; apply elem_of_cons; auto).
    assert (Hlk : is_Some (cu !! d)).
    { apply (elem_of_dom (D := gset string)). apply Hcu. apply elem_of_cons. auto. }
    destruct Hlk as [achalls Hlk].
    cbn [check_domains] in Hrun. rewrite Hlk in Hrun.
    unfold bind at 1 in Hrun. unfold lift at 1 in Hrun.
    unfold bind at 1 in Hrun. rewrite handle_check_run in Hrun.
    destruct (authzr s !! d) as [old|] eqn:Hold.
    2:{ injection Hrun as <- <-. split; [apply polled_only_refl|].
        left. split; [reflexivity|]. eauto. }
    pose proof (polled_only_insert D s d old (poll w (trace s) old)
                  (EvPoll old :: trace s) HdD Hold) as Hstep.
    set (s1 := mkAuthHandler _ _ _ _) in *.
    destruct (check_result (poll w (trace s) old) achalls) as [[comp_c failed]|e] eqn:Hres.
    2:{ injection Hrun as <- <-. split; [exact Hstep|].
        right. left. unfold check_result in Hres.
        destruct (bool_decide (status (body (poll w (trace s) old)) = STATUS_VALID));
          [discriminate|].
        destruct (bool_decide (Forall _ achalls)); [discriminate|].
        congruence. }
    assert (Hrec : forall cu1 comp1,
               (dom cu1 : gset string) = dom cu ->
               check_domains w be rest cu1 comp1 s1 = Some (r, s') ->
               polled_only D s s' /\
               match r with
               | Ret (cu', _) => (dom cu' : gset string) = dom cu
               | Raise e => poll_exception be D s e
               end).
    { intros cu1 comp1 Hdom Hrest.
      apply IH in Hrest; [|exact HD' | intros d' Hd'; rewrite Hdom; auto].
      destruct Hrest as [Hpoll Hr]. split; [eapply polled_only_trans; eauto|].
      destruct r as [[cu' ?]|e]; [congruence|].
      eapply poll_exception_earlier; eauto. }
    destruct (length comp_c =? length achalls)%nat eqn:Hlen.
    { eapply Hrec; [reflexivity | exact Hrun]. }
    destruct failed as [|f failed].
    + apply check_result_sublists in Hres. destruct Hres as (Hsub & _ & _ & _).
      destruct (remove_each_submseteq comp_c achalls) as [l [Hl _]].
      { apply sublist_submseteq. exact Hsub. }
      unfold bind at 1 in Hrun. unfold lift at 1 in Hrun. rewrite Hl in Hrun.
      eapply Hrec; [|exact Hrun]. apply dom_insert_lookup_L. eauto.
    + destruct be.
      * eapply Hrec; [reflexivity | exact Hrun].
      * injection Hrun as <- <-. split; [exact Hstep|].
        right. right. split; [reflexivity|]. eauto.
Qed.

Lemma poll_while_effects w be min_sleep max_rounds (D : gset string) :
  forall fuel cu (dom_to_check : gset string) rounds s r s',
    dom_to_check ⊆ D -> dom_to_check ⊆ dom cu ->
    poll_while w fuel be min_sleep max_rounds cu dom_to_check rounds s = Some (r, s') ->
    polled_only D s s' /\
    forall e, r = Raise e ->
      poll_exception be D s e \/ (min_sleep < 0 /\ e = sleep_error).
Proof.
  induction fuel as [|fuel IH]; intros cu dtc rounds s r s' HD Hcu Hrun;
    cbn [poll_while] in Hrun;
    destruct (negb (bool_decide (dtc = ∅)) && (rounds <? max_rounds));
    try discriminate;
    try (injection Hrun as <- <-; split; [apply polled_only_refl | discriminate]).
  unfold bind at 1 in Hrun. unfold sleep in Hrun. unfold bind at 1 in Hrun.
  cbn [emit] in Hrun.
  pose proof (polled_only_trace D s (EvSleep min_sleep :: trace s)) as Hsleep.
  set (s0 := mkAuthHandler _ _ _ _) in *.
  destruct (min_sleep <? 0) eqn:Hneg.
  { cbn [raise] in Hrun. injection Hrun as <- <-. split; [exact Hsleep|].
    intros e [= <-]. right. split; [apply Z.ltb_lt; exact Hneg | reflexivity]. }
  cbn [ret] in Hrun.
  apply bind_Some in Hrun. destruct Hrun as [([cu' comp] & s1 & Hcheck & Hrun)|(e & Hcheck & ->)].
  - apply check_domains_effects with (D := D) in Hcheck.
    + destruct Hcheck as [Hp1 Hdom].
      apply IH in Hrun; [| set_solver | rewrite Hdom; set_solver].
      destruct Hrun as [Hp2 Hexn]. split.
      * exact (polled_only_trans D _ _ _ Hsleep (polled_only_trans D _ _ _ Hp1 Hp2)).
      * intros e He. destruct (Hexn e He) as [Hpoll|Hslept]; [left | right; exact Hslept].
        apply (poll_exception_earlier be D s s0 e Hsleep).
        apply (poll_exception_earlier be D s0 s1 e Hp1). exact Hpoll.
    + intros d Hd. apply elem_of_elements in Hd. set_solver.
    + intros d Hd. apply elem_of_elements in Hd. set_solver.
  - apply check_domains_effects with (D := D) in Hcheck.
    + destruct Hcheck as [Hp1 Hexn]. split.
      * exact (polled_only_trans D _ _ _ Hsleep Hp1).
      * intros e' [= <-]. left. exact (poll_exception_earlier be D s s0 e Hsleep Hexn).
    + intros d Hd. apply elem_of_elements in Hd. set_solver.
    + intros d Hd. apply elem_of_elements in Hd. set_solver.
Qed.

(** X9. Whatever the server answers, a run of [_poll_challenges] that
    completes, normally or with an exception, leaves [dv_c] and
    [cont_c] as they were, adds and drops no key of the authorization
    map, and changes the stored authorization of no domain outside
    [chall_update]. *)
Theorem poll_challenges_touches_polled_only w fuel chall_update best_effort
    min_sleep max_rounds s r s' :
  _poll_challenges w fuel chall_update best_effort min_sleep max_rounds s = Some (r, s') ->
  dv_c s' = dv_c s /\ cont_c s' = cont_c s /\
  (dom (authzr s') : gset string) = dom (authzr s) /\
  (forall d, chall_update !! d = None -> authzr s' !! d = authzr s !! d).
Proof.
  intros Hrun. unfold _poll_challenges in Hrun.
  apply (poll_while_effects w best_effort min_sleep max_rounds (dom chall_update)) in Hrun;
    [|reflexivity..].
  destruct Hrun as [(Hdv & Hcont & Hdom & Hout) _].
  split; [exact Hdv|]. split; [exact Hcont|]. split; [exact Hdom|].
  intros d Hd. apply Hout. apply not_elem_of_dom. exact Hd.
Qed.

Lemma poll_challenges_touches_polled_only_witness :
  exists r s',
    _poll_challenges (scenario_world STATUS_VALID) 1 pending_update false 3 15
      pending_handler = Some (r, s') /\
    dv_c s' = dv_c pending_handler /\ cont_c s' = cont_c pending_handler /\
    (dom (authzr s') : gset string) = dom (authzr pending_handler) /\
    (forall d, pending_update !! d = None ->
       authzr s' !! d = authzr pending_handler !! d).
Proof.
  eexists. eexists. split; [vm_compute; reflexivity|].
  apply (poll_challenges_touches_polled_only (scenario_world STATUS_VALID) 1
           pending_update false 3 15 pending_handler (Ret tt)).
  vm_compute. reflexivity.
Defined.



Lemma Forall_of_sublist {A : Type} (P : A -> Prop) (l l' : list A) :
  l' `sublist_of` l -> Forall P l -> Forall P l'.
Proof.
  intros Hsub Hall. apply Forall_forall. intros x Hx.
  rewrite Forall_forall in Hall. apply Hall. eapply elem_of_sublist; eauto.
Qed.







Lemma answered_unanswered achalls : forall n, answered achalls (replicate n None) = [].
Proof.
  induction achalls as [|a rest IH]; intros [|n]; simpl; auto.
Qed.

Lemma solve_unanswered w s :
  (forall tr l, cont_perform w tr l = Ret (replicate (length l) None)) ->
  (forall tr l, dv_perform w tr l = Ret (replicate (length l) None)) ->
  exists s1,
    _solve_challenges w s =
      Some (Ret (replicate (length (cont_c s)) None, replicate (length (dv_c s)) None), s1) /\
    dv_c s1 = dv_c s /\ cont_c s1 = cont_c s.
Proof.
  intros Hcont Hdv. destruct s as [az dv cont tr].
  unfold _solve_challenges, try_except_AuthorizationError, perform_both.
  destruct cont as [|b cont]; destruct dv as [|a dv];
    unfold bind, lift;
    cbn [get_state emit ret dv_c cont_c authzr trace];
    rewrite ?Hcont, ?Hdv;
    cbn [get_state emit ret dv_c cont_c authzr trace];
    rewrite ?Hcont, ?Hdv;
    cbn [get_state emit ret dv_c cont_c authzr trace];
    rewrite ?length_replicate, ?Nat.eqb_refl; cbn [negb length Nat.eqb];
    rewrite ?Nat.eqb_refl; cbn [negb ret];
    eexists; (split; [reflexivity|]); split; reflexivity.
Qed.

Lemma respond_unanswered w fuel n m best_effort s :
  _respond w fuel (replicate n None) (replicate m None) best_effort s = Some (Ret tt, s).
Proof.
  unfold _respond.
  unfold bind at 1. cbn [get_state].
  unfold bind at 1. rewrite send_responses_run, answered_unanswered.
  unfold bind at 1. cbn [get_state].
  unfold bind at 1. rewrite send_responses_run, answered_unanswered.
  cbn [fmap list_fmap foldl rev app authzr dv_c cont_c trace].
  unfold try_finally, _poll_challenges. rewrite dom_empty_L.
  assert (Hpoll : forall st,
             poll_while w fuel best_effort default_min_sleep default_max_rounds ∅ ∅ 0 st =
             Some (Ret tt, st)).
  { intros st. destruct fuel; cbn [poll_while];
      rewrite bool_decide_eq_true_2 by reflexivity; reflexivity. }
  rewrite Hpoll. cbn. rewrite handler_eta. reflexivity.
Qed.

(** X12. With authenticators that return no response for any challenge,
    the loop [while self.dv_c or self.cont_c] of [get_authorizations]
    never ends once a challenge is outstanding: every round performs the
    same challenges again, answers and removes none, and no budget of
    rounds is enough for the loop to return or raise. *)
Theorem unanswered_challenges_never_finish w best_effort fuel s :
  (forall tr l, cont_perform w tr l = Ret (replicate (length l) None)) ->
  (forall tr l, dv_perform w tr l = Ret (replicate (length l) None)) ->
  dv_c s <> [] \/ cont_c s <> [] ->
  challenges_while w fuel best_effort s = None.
Proof.
  intros Hcont Hdv. revert s. induction fuel as [|fuel IH]; intros s Hout.
  - cbn [challenges_while]. destruct (dv_c s), (cont_c s); try reflexivity.
    destruct Hout; contradiction.
  - assert (Hbody :
      (let! '(cont_resp, dv_resp) := _solve_challenges w in
       let! _ := _respond w (S fuel) cont_resp dv_resp best_effort in
       challenges_while w fuel best_effort) s = None).
    { destruct (solve_unanswered w s Hcont Hdv) as (s1 & Hsolve & Hdv1 & Hcont1).
      unfold bind at 1. rewrite Hsolve.
      unfold bind at 1. rewrite respond_unanswered.
      apply IH. rewrite Hdv1, Hcont1. exact Hout. }
    cbn [challenges_while]. destruct (dv_c s), (cont_c s); try exact Hbody.
    destruct Hout; contradiction.
Qed.

Lemma unanswered_challenges_never_finish_witness :
  (dv_c one_dv_handler <> [] \/ cont_c one_dv_handler <> []) /\
  challenges_while silent_world 5 false one_dv_handler = None.
Proof.
  assert (Hout : dv_c one_dv_handler <> [] \/ cont_c one_dv_handler <> [])
    by (left; discriminate).
  split; [exact Hout|].
  apply (unanswered_challenges_never_finish silent_world false 5 one_dv_handler).
  - intros tr l. reflexivity.
  - intros tr l. reflexivity.
  - exact Hout.
Defined.

#[local] Instance shrinks_preorder : PreOrder shrinks.
Proof.
  split.
  - intros s. split; reflexivity.
  - intros s1 s2 s3 [Hd1 Hc1] [Hd2 Hc2]. split; etransitivity; eauto.
Qed.

Lemma list_remove_sublist {A : Type} `{EqDecision A} (x : A) (l : list A) : forall l',
  list_remove x l = Some l' -> l' `sublist_of` l.
Proof.
  induction l as [|y l IH]; intros l'; simpl; [discriminate|].
  destruct (decide (x = y)).
  - intros [= <-]. apply sublist_cons. reflexivity.
  - destruct (list_remove x l) as [k|]; [|discriminate].
    intros [= <-]. apply sublist_skip. apply IH. reflexivity.
Qed.

Lemma remove_each_sublist {A : Type} `{EqDecision A} (todo : list A) : forall l l',
  remove_each todo l = Ret l' -> l' `sublist_of` l.
Proof.
  induction todo as [|x todo IH]; intros l l'; simpl.
  - intros [= <-]. reflexivity.
  - destruct (list_remove x l) as [k|] eqn:Hrm; [|discriminate].
    intros H. apply IH in H. apply list_remove_sublist in Hrm. etransitivity; eauto.
Qed.

Lemma remove_while_iterating_sublist {A : Type} `{EqDecision A} (n : nat) :
  forall i (l l' : list A), remove_while_iterating n i l = Ret l' -> l' `sublist_of` l.
Proof.
  induction n as [|n IH]; intros i l l'; simpl.
  - intros [= <-]. reflexivity.
  - destruct (l !! i) as [x|]; [|intros [= <-]; reflexivity].
    destruct (list_remove x l) as [k|] eqn:Hrm; [|discriminate].
    intros H. apply IH in H. apply list_remove_sublist in Hrm. etransitivity; eauto.
Qed.

Lemma shrinks_trace s e :
  shrinks s (mkAuthHandler (authzr s) (dv_c s) (cont_c s) (e :: trace s)).
Proof. split; reflexivity. Qed.

Lemma shrinks_authzr s d a :
  shrinks s (mkAuthHandler (<[d := a]> (authzr s)) (dv_c s) (cont_c s) (trace s)).
Proof. split; reflexivity. Qed.

Lemma cleanup_shrinks achall_list : ensures shrinks (_cleanup_challenges achall_list).
Proof.
  intros s r s' Hrun. destruct s as [az dvs conts tr].
  unfold _cleanup_challenges in Hrun. destruct achall_list as [l|].
  - destruct (filter _ l) as [|a dv]; destruct (filter _ l) as [|b cont];
      unfold bind, lift in Hrun;
      cbn [emit get_state ret set_dv_c set_cont_c dv_c cont_c authzr trace] in Hrun;
      repeat match type of Hrun with
             | context [remove_each ?t ?k] =>
                 let H := fresh "Hrm" in
                 destruct (remove_each t k) eqn:H;
                 [apply remove_each_sublist in H|];
                 cbn [emit get_state ret set_dv_c set_cont_c dv_c cont_c authzr trace] in Hrun
             end;
      injection Hrun as <- <-; split; cbn [dv_c cont_c]; first [assumption | reflexivity].
  - destruct dvs as [|a dv]; destruct conts as [|b cont];
      unfold bind, lift in Hrun;
      cbn [emit get_state ret set_dv_c set_cont_c dv_c cont_c authzr trace] in Hrun;
      repeat match type of Hrun with
             | context [remove_while_iterating ?n ?i ?k] =>
                 let H := fresh "Hrm" in
                 destruct (remove_while_iterating n i k) eqn:H;
                 [apply remove_while_iterating_sublist in H|];
                 cbn [emit get_state ret set_dv_c set_cont_c dv_c cont_c authzr trace] in Hrun
             end;
      injection Hrun as <- <-; split; cbn [dv_c cont_c]; first [assumption | reflexivity].
Qed.

Lemma solve_shrinks w : ensures shrinks (_solve_challenges w).
Proof.
  unfold _solve_challenges. apply (ensures_bind shrinks).
  - apply (ensures_try_except shrinks).
    + apply (ensures_perform_both shrinks true). intros s e _. apply shrinks_trace.
    + intros e. apply (ensures_bind shrinks); [apply cleanup_shrinks|].
      intros ?. apply (ensures_raise shrinks).
  - intros [cont_resp dv_resp]. apply (ensures_bind shrinks);
      [apply (ensures_get_state shrinks)|].
    intros s0. destruct (negb _); [apply (ensures_raise shrinks)|].
    destruct (negb _); [apply (ensures_raise shrinks) | apply (ensures_ret shrinks)].
Qed.

Lemma respond_shrinks w fuel cont_resp dv_resp best_effort :
  ensures shrinks (_respond w fuel cont_resp dv_resp best_effort).
Proof.
  unfold _respond. apply (ensures_bind shrinks); [apply (ensures_get_state shrinks)|].
  intros s0. apply (ensures_bind shrinks).
  { apply (ensures_send_responses shrinks true). intros s e _. apply shrinks_trace. }
  intros [active_dv cu]. apply (ensures_bind shrinks); [apply (ensures_get_state shrinks)|].
  intros s1. apply (ensures_bind shrinks).
  { apply (ensures_send_responses shrinks true). intros s e _. apply shrinks_trace. }
  intros [active_cont cu']. apply (ensures_try_finally shrinks).
  - unfold _poll_challenges. apply (ensures_poll_while shrinks true).
    + intros s e _. apply shrinks_trace.
    + intros s d a _. apply shrinks_authzr.
    + reflexivity.
  - apply cleanup_shrinks.
Qed.

Lemma challenges_while_shrinks w best_effort fuel :
  ensures shrinks (challenges_while w fuel best_effort).
Proof.
  induction fuel as [|fuel IH]; intros s r s'; cbn [challenges_while].
  - destruct (dv_c s), (cont_c s); intros H; inversion H; subst; reflexivity.
  - assert (Hbody : ensures shrinks
      (let! '(cont_resp, dv_resp) := _solve_challenges w in
       let! _ := _respond w (S fuel) cont_resp dv_resp best_effort in
       challenges_while w fuel best_effort)).
    { apply (ensures_bind shrinks); [apply solve_shrinks|]. intros [cont_resp dv_resp].
      apply (ensures_bind shrinks); [apply respond_shrinks | intros ?; exact IH]. }
    destruct (dv_c s), (cont_c s); intros H;
      first [inversion H; subst; reflexivity | eapply Hbody; exact H].
Qed.

Lemma challenges_while_Ret_empty w best_effort fuel : forall s s',
  challenges_while w fuel best_effort s = Some (Ret tt, s') ->
  dv_c s' = [] /\ cont_c s' = [].
Proof.
  induction fuel as [|fuel IH]; intros s s'; cbn [challenges_while].
  - destruct (dv_c s) eqn:Hd, (cont_c s) eqn:Hc; intros H; inversion H; subst; auto.
  - assert (Hbody :
      (let! '(cont_resp, dv_resp) := _solve_challenges w in
       let! _ := _respond w (S fuel) cont_resp dv_resp best_effort in
       challenges_while w fuel best_effort) s = Some (Ret tt, s') ->
      dv_c s' = [] /\ cont_c s' = []).
    { intros H. apply bind_Ret in H. destruct H as ([cont_resp dv_resp] & s1 & _ & H).
      apply bind_Ret in H. destruct H as (u & s2 & _ & H). eapply IH. exact H. }
    destruct (dv_c s) eqn:Hd, (cont_c s) eqn:Hc; intros H;
      first [apply Hbody; exact H | inversion H; subst; auto].
Qed.

(** X13. The loop [while self.dv_c or self.cont_c] never adds a
    challenge: in every run that completes, with a value or an
    exception, what is left in [dv_c] and [cont_c] is a sublist of what
    was there, in order; and when the loop returns both lists are
    empty. *)
Theorem challenge_loop_only_drops w best_effort fuel s r s' :
  challenges_while w fuel best_effort s = Some (r, s') ->
  dv_c s' `sublist_of` dv_c s /\ cont_c s' `sublist_of` cont_c s /\
  (r = Ret tt -> dv_c s' = [] /\ cont_c s' = []).
Proof.
  intros Hrun. pose proof (challenges_while_shrinks w best_effort fuel s r s' Hrun) as [Hd Hc].
  split; [exact Hd|]. split; [exact Hc|]. intros ->.
  eapply challenges_while_Ret_empty. exact Hrun.
Qed.

Lemma challenge_loop_only_drops_witness :
  exists r s',
    challenges_while (scenario_world STATUS_VALID) 2 false active_handler = Some (r, s') /\
    dv_c s' `sublist_of` dv_c active_handler /\
    cont_c s' `sublist_of` cont_c active_handler /\
    (r = Ret tt -> dv_c s' = [] /\ cont_c s' = []).
Proof.
  eexists. eexists. split; [vm_compute; reflexivity|].
  eapply (challenge_loop_only_drops (scenario_world STATUS_VALID) false 2 active_handler).
  vm_compute. reflexivity.
Defined.

Lemma Forall_filter_self {A : Type} (P : A -> Prop) `{forall x, Decision (P x)} (l : list A) :
  Forall P (filter P l).
Proof.
  apply Forall_forall. intros x Hx. apply list_elem_of_filter in Hx. tauto.
Qed.

Lemma choose_step w account d s x s1 :
  (let! a := get_authzr d in
   let! path := lift (Planner.gen_challenge_path (EXCLUSIVE_CHALLENGES w)
                        (challenges (body a)) (_get_chall_pref w d)
                        (combinations (body a))) in
   let! '(dom_cont_c, dom_dv_c) := _challenge_factory account d path in
   let! s := get_state in
   let! _ := set_dv_c (dv_c s ++ dom_dv_c) in
   let! s := get_state in
   set_cont_c (cont_c s ++ dom_cont_c)) s = Some (x, s1) ->
  exists new_dv new_cont,
    s1 = mkAuthHandler (authzr s) (dv_c s ++ new_dv) (cont_c s ++ new_cont) (trace s) /\
    Forall is_dv_achall new_dv /\ Forall is_cont_achall new_cont /\
    Forall (fun a => domain a = d) (new_dv ++ new_cont).
Proof.
  assert (Hnone : forall r : res unit, Some (r, s) = Some (x, s1) ->
    exists new_dv new_cont,
      s1 = mkAuthHandler (authzr s) (dv_c s ++ new_dv) (cont_c s ++ new_cont) (trace s) /\
      Forall is_dv_achall new_dv /\ Forall is_cont_achall new_cont /\
      Forall (fun a => domain a = d) (new_dv ++ new_cont)).
  { intros r [= <- <-]. exists [], []. rewrite !app_nil_r, handler_eta.
    repeat split; constructor. }
  unfold bind at 1. unfold get_authzr at 1.
  destruct (authzr s !! d) as [a|] eqn:Ha; [|apply Hnone].
  unfold bind at 1. unfold lift at 1.
  destruct (Planner.gen_challenge_path _ _ _ _) as [path|e]; [|apply Hnone].
  unfold bind at 1. unfold _challenge_factory. unfold bind at 1. unfold get_state.
  unfold lift. rewrite (factory_loop_cases _ a _ _ _ Ha).
  destruct (index_all (challenges (body a)) path) as [cbs|]; [|apply Hnone].
  unfold bind. cbn [get_state set_dv_c set_cont_c authzr dv_c cont_c trace app].
  intros [= <- <-].
  exists (filter is_dv_achall (annotate (key account) d cbs)),
         (filter is_cont_achall (annotate (key account) d cbs)).
  split; [reflexivity|]. split; [apply Forall_filter_self|].
  split; [apply Forall_filter_self|].
  apply Forall_app. split; apply Forall_forall; intros y Hy;
    apply list_elem_of_filter in Hy; destruct Hy as [_ Hy];
    unfold annotate in Hy; apply list_elem_of_fmap in Hy;
    destruct Hy as [cb [-> _]]; apply domain_annotated.
Qed.

Lemma choose_challenges_appends w account domains : forall s r s',
  _choose_challenges w account domains s = Some (r, s') ->
  exists new_dv new_cont,
    s' = mkAuthHandler (authzr s) (dv_c s ++ new_dv) (cont_c s ++ new_cont) (trace s) /\
    Forall is_dv_achall new_dv /\ Forall is_cont_achall new_cont /\
    Forall (fun a => domain a ∈ domains) (new_dv ++ new_cont).
Proof.
  unfold _choose_challenges.
  induction domains as [|d rest IH]; intros s r s' Hrun; cbn [for_each] in Hrun.
  - injection Hrun as <- <-. exists [], []. rewrite !app_nil_r, handler_eta.
    repeat split; constructor.
  - apply bind_Some in Hrun. destruct Hrun as [(u & s1 & Hstep & Hrest)|(e & Hstep & _)].
    + apply choose_step in Hstep.
      destruct Hstep as (dv1 & cont1 & -> & Hdv1 & Hcont1 & Hdom1).
      apply IH in Hrest. cbn [authzr dv_c cont_c trace] in Hrest.
      destruct Hrest as (dv2 & cont2 & -> & Hdv2 & Hcont2 & Hdom2).
      exists (dv1 ++ dv2), (cont1 ++ cont2). rewrite !app_assoc.
      split; [reflexivity|].
      split; [apply Forall_app; auto|]. split; [apply Forall_app; auto|].
      apply Forall_app in Hdom1. apply Forall_app in Hdom2.
      destruct Hdom1 as [Ha1 Hb1]. destruct Hdom2 as [Ha2 Hb2].
      rewrite <- !app_assoc. repeat (apply Forall_app; split);
        first [ eapply Forall_impl; [eassumption|]; intros y ->; apply elem_of_cons; auto
              | eapply Forall_impl; [eassumption|]; intros y Hy; apply elem_of_cons; auto ].
    + apply choose_step in Hstep.
      destruct Hstep as (dv1 & cont1 & -> & Hdv1 & Hcont1 & Hdom1).
      exists dv1, cont1. split; [reflexivity|]. split; [exact Hdv1|].
      split; [exact Hcont1|].
      eapply Forall_impl; [exact Hdom1|]. intros y ->. apply elem_of_cons. auto.
Qed.

(** X14. [_choose_challenges] only appends: in every run that
    completes, also one that a missing authorization or a planner error
    cut short, [dv_c] and [cont_c] are what they were followed by new
    challenges, DV ones in [dv_c] and continuity ones in [cont_c], each
    for one of the domains asked for; the authorization map and the
    history are unchanged. *)
Theorem choose_challenges_appends_by_class w account domains s r s' :
  _choose_challenges w account domains s = Some (r, s') ->
  exists new_dv new_cont,
    dv_c s' = dv_c s ++ new_dv /\ cont_c s' = cont_c s ++ new_cont /\
    authzr s' = authzr s /\ trace s' = trace s /\
    Forall is_dv_achall new_dv /\ Forall is_cont_achall new_cont /\
    Forall (fun a => domain a ∈ domains) (new_dv ++ new_cont).
Proof.
  intros Hrun. apply choose_challenges_appends in Hrun.
  destruct Hrun as (new_dv & new_cont & -> & Hdv & Hcont & Hdom).
  exists new_dv, new_cont. cbn [authzr dv_c cont_c trace]. auto 10.
Qed.

Lemma choose_challenges_appends_by_class_witness :
  exists r s',
    _choose_challenges (scenario_world STATUS_VALID) scenario_account ["example.com"%string]
      pending_handler = Some (r, s') /\
    exists new_dv new_cont,
      dv_c s' = dv_c pending_handler ++ new_dv /\
      cont_c s' = cont_c pending_handler ++ new_cont /\
      authzr s' = authzr pending_handler /\ trace s' = trace pending_handler /\
      Forall is_dv_achall new_dv /\ Forall is_cont_achall new_cont /\
      Forall (fun a => domain a ∈ ["example.com"%string]) (new_dv ++ new_cont).
Proof.
  eexists. eexists. split; [vm_compute; reflexivity|].
  eapply (choose_challenges_appends_by_class (scenario_world STATUS_VALID) scenario_account
            ["example.com"%string] pending_handler).
  vm_compute. reflexivity.
Defined.

#[local] Instance keeps_classes_preorder : PreOrder keeps_classes.
Proof.
  split.
  - intros s H. exact H.
  - intros s1 s2 s3 H12 H23 H. apply H23, H12, H.
Qed.

Lemma keeps_classes_same_lists s s' :
  dv_c s' = dv_c s -> cont_c s' = cont_c s -> keeps_classes s s'.
Proof. intros Hd Hc [H1 H2]. split; [rewrite Hd | rewrite Hc]; assumption. Qed.

Lemma request_authorizations_keeps_classes w account domains :
  ensures keeps_classes (request_authorizations w account domains).
Proof.
  unfold request_authorizations. apply (ensures_for_each keeps_classes). intros d.
  apply (ensures_bind keeps_classes); [apply (ensures_get_state keeps_classes)|].
  intros s0. apply (ensures_bind keeps_classes).
  - intros s r s' [= <- <-]. apply keeps_classes_same_lists; reflexivity.
  - intros ? s r s' [= <- <-]. apply keeps_classes_same_lists; reflexivity.
Qed.

Lemma choose_challenges_keeps_classes w account domains :
  ensures keeps_classes (_choose_challenges w account domains).
Proof.
  intros s r s' Hrun [Hd Hc]. apply choose_challenges_appends in Hrun.
  destruct Hrun as (new_dv & new_cont & -> & Hdv & Hcont & _).
  split; cbn [dv_c cont_c]; apply Forall_app; auto.
Qed.

Lemma challenges_while_keeps_classes w fuel best_effort :
  ensures keeps_classes (challenges_while w fuel best_effort).
Proof.
  intros s r s' Hrun [Hd Hc]. apply challenges_while_shrinks in Hrun.
  destruct Hrun as [Hsd Hsc].
  split; eapply Forall_of_sublist; eauto.
Qed.

Lemma get_authorizations_keeps_classes w account fuel domains best_effort :
  ensures keeps_classes (get_authorizations w account fuel domains best_effort).
Proof.
  unfold get_authorizations.
  apply (ensures_bind keeps_classes); [apply request_authorizations_keeps_classes|].
  intros ?. apply (ensures_bind keeps_classes); [apply choose_challenges_keeps_classes|].
  intros ?. apply (ensures_bind keeps_classes); [apply challenges_while_keeps_classes|].
  intros ?. apply (ensures_bind keeps_classes);
    [apply (ensures_verify_authzr_complete keeps_classes)|].
  intros ?. apply (ensures_bind keeps_classes); [apply (ensures_get_state keeps_classes)|].
  intros ?. apply (ensures_ret keeps_classes).
Qed.

(** X15. [get_authorizations] keeps the two families apart: started
    with DV challenges only in [dv_c] and continuity challenges only in
    [cont_c] (a new handler has both empty), every run that completes,
    with a value or an exception, ends with the lists so, and no
    challenge is in both. *)
Theorem get_authorizations_separates_families w account fuel domains best_effort s r s' :
  Forall is_dv_achall (dv_c s) -> Forall is_cont_achall (cont_c s) ->
  get_authorizations w account fuel domains best_effort s = Some (r, s') ->
  Forall is_dv_achall (dv_c s') /\ Forall is_cont_achall (cont_c s') /\
  (forall a, a ∈ dv_c s' -> a ∈ cont_c s' -> False).
Proof.
  intros Hd Hc Hrun.
  destruct (get_authorizations_keeps_classes w account fuel domains best_effort s r s' Hrun
              (conj Hd Hc)) as [Hd' Hc'].
  split; [exact Hd'|]. split; [exact Hc'|]. intros a Ha Hb.
  rewrite Forall_forall in Hd'. rewrite Forall_forall in Hc'.
  apply (proj1 (is_cont_not_dv a)); auto.
Qed.

Lemma get_authorizations_separates_families_witness :
  exists r s',
    get_authorizations (scenario_world STATUS_INVALID) scenario_account 2
      ["example.com"%string] false (init_handler []) = Some (r, s') /\
    Forall is_dv_achall (dv_c s') /\ Forall is_cont_achall (cont_c s') /\
    (forall a, a ∈ dv_c s' -> a ∈ cont_c s' -> False).
Proof.
  eexists. eexists. split; [vm_compute; reflexivity|].
  eapply (get_authorizations_separates_families (scenario_world STATUS_INVALID)
            scenario_account 2 ["example.com"%string] false (init_handler [])).
  - constructor.
  - constructor.
  - vm_compute. reflexivity.
Defined.

#[local] Instance handler_only_preorder : PreOrder handler_only.
Proof.
  split.
  - intros s. exists []. split; [reflexivity | constructor].
  - intros s1 s2 s3 (a1 & H1 & Ha1) (a2 & H2 & Ha2). exists (a2 ++ a1).
    rewrite H2, H1, app_assoc. split; [reflexivity|]. apply Forall_app. auto.
Qed.

Lemma handler_only_same_trace s s' : trace s' = trace s -> handler_only s s'.
Proof. intros H. exists []. split; [exact H | constructor]. Qed.

Lemma handler_only_emit e : handler_event e = true -> ensures handler_only (emit e).
Proof.
  intros He s r s' [= <- <-]. exists [e]. split; [reflexivity|].
  constructor; [exact He | constructor].
Qed.

Lemma handler_only_set_dv_c l : ensures handler_only (set_dv_c l).
Proof. intros s r s' [= <- <-]. apply handler_only_same_trace. reflexivity. Qed.

Lemma handler_only_set_cont_c l : ensures handler_only (set_cont_c l).
Proof. intros s r s' [= <- <-]. apply handler_only_same_trace. reflexivity. Qed.

Lemma handler_only_set_authzr d a : ensures handler_only (set_authzr d a).
Proof. intros s r s' [= <- <-]. apply handler_only_same_trace. reflexivity. Qed.

Ltac handler_step :=
  lazymatch goal with
  | |- ensures _ (bind _ _) => apply (ensures_bind handler_only); [|intros ?]
  | |- ensures _ (ret _) => apply (ensures_ret handler_only)
  | |- ensures _ (raise _) => apply (ensures_raise handler_only)
  | |- ensures _ (lift _) => apply (ensures_lift handler_only)
  | |- ensures _ get_state => apply (ensures_get_state handler_only)
  | |- ensures _ (get_authzr _) => apply (ensures_get_authzr handler_only)
  | |- ensures _ (emit _) => apply handler_only_emit; reflexivity
  | |- ensures _ (set_dv_c _) => apply handler_only_set_dv_c
  | |- ensures _ (set_cont_c _) => apply handler_only_set_cont_c
  | |- ensures _ (set_authzr _ _) => apply handler_only_set_authzr
  | |- ensures _ (for_each _ _) => apply (ensures_for_each handler_only); intros ?
  | |- ensures _ (try_finally _ _) => apply (ensures_try_finally handler_only)
  | |- ensures _ (try_except_AuthorizationError _ _) =>
      apply (ensures_try_except handler_only); [|intros ?]
  | |- ensures _ (match ?x with _ => _ end) => destruct x
  end.

Lemma handler_only_request_authorizations w account domains :
  ensures handler_only (request_authorizations w account domains).
Proof. unfold request_authorizations. repeat handler_step. Qed.

Lemma handler_only_choose_challenges w account domains :
  ensures handler_only (_choose_challenges w account domains).
Proof. unfold _choose_challenges, _challenge_factory. repeat handler_step. Qed.

Lemma handler_only_cleanup_challenges achall_list :
  ensures handler_only (_cleanup_challenges achall_list).
Proof. unfold _cleanup_challenges. repeat handler_step. Qed.

Lemma handler_only_solve_challenges w : ensures handler_only (_solve_challenges w).
Proof.
  unfold _solve_challenges, perform_both. handler_step.
  - handler_step; [repeat handler_step|].
    handler_step; [apply handler_only_cleanup_challenges | handler_step].
  - repeat handler_step.
Qed.

Lemma handler_only_send_responses achalls : forall resps chall_update,
  ensures handler_only (_send_responses achalls resps chall_update).
Proof.
  induction achalls as [|achall rest IH]; intros resps chall_update; cbn [_send_responses].
  - destruct resps; handler_step.
  - destruct resps as [|[r|] resps]; [handler_step| |apply IH].
    handler_step; [handler_step|]. handler_step; [apply IH | repeat handler_step].
Qed.

Lemma handler_only_check_domains w best_effort doms : forall chall_update comp_domains,
  ensures handler_only (check_domains w best_effort doms chall_update comp_domains).
Proof.
  induction doms as [|d rest IH]; intros chall_update comp_domains; cbn [check_domains].
  - handler_step.
  - handler_step; [handler_step|]. handler_step.
    { unfold _handle_check. repeat handler_step. }
    destruct a0 as [comp_challs failed_challs].
    destruct (length comp_challs =? length a)%nat; [apply IH|].
    destruct failed_challs.
    + handler_step; [handler_step | apply IH].
    + destruct best_effort; [apply IH | handler_step].
Qed.

Lemma handler_only_poll_while w best_effort min_sleep max_rounds fuel :
  forall chall_update dom_to_check rounds,
    ensures handler_only (poll_while w fuel best_effort min_sleep max_rounds
                            chall_update dom_to_check rounds).
Proof.
  induction fuel as [|fuel IH]; intros chall_update dom_to_check rounds; cbn [poll_while].
  - destruct (_ && _); [apply (ensures_diverge handler_only) | handler_step].
  - destruct (_ && _); [|handler_step].
    handler_step; [unfold sleep; repeat handler_step|].
    handler_step; [apply handler_only_check_domains|].
    destruct a0. apply IH.
Qed.

Lemma handler_only_respond w fuel cont_resp dv_resp best_effort :
  ensures handler_only (_respond w fuel cont_resp dv_resp best_effort).
Proof.
  unfold _respond. handler_step; [handler_step|].
  handler_step; [apply handler_only_send_responses|].
  destruct a0. handler_step; [handler_step|].
  handler_step; [apply handler_only_send_responses|].
  destruct a1. handler_step.
  - unfold _poll_challenges. apply handler_only_poll_while.
  - apply handler_only_cleanup_challenges.
Qed.

Lemma handler_only_challenges_while w best_effort fuel :
  ensures handler_only (challenges_while w fuel best_effort).
Proof.
  induction fuel as [|fuel IH]; intros s r s'; cbn [challenges_while].
  - destruct (dv_c s), (cont_c s); intros H; inversion H; subst; reflexivity.
  - assert (Hbody : ensures handler_only
      (let! '(cont_resp, dv_resp) := _solve_challenges w in
       let! _ := _respond w (S fuel) cont_resp dv_resp best_effort in
       challenges_while w fuel best_effort)).
    { handler_step; [apply handler_only_solve_challenges|]. destruct a.
      handler_step; [apply handler_only_respond | exact IH]. }
    destruct (dv_c s), (cont_c s); intros H;
      first [inversion H; subst; reflexivity | eapply Hbody; exact H].
Qed.

Lemma handler_only_get_authorizations w account fuel domains best_effort :
  ensures handler_only (get_authorizations w account fuel domains best_effort).
Proof.
  unfold get_authorizations.
  handler_step; [apply handler_only_request_authorizations|].
  handler_step; [apply handler_only_choose_challenges|].
  handler_step; [apply handler_only_challenges_while|].
  handler_step; [apply (ensures_verify_authzr_complete handler_only)|].
  repeat handler_step.
Qed.

(** X21. [get_authorizations] only adds to the history of calls, and
    what it adds are calls of the handler's own: requests for
    challenges, answers and polls, the authenticators' [perform] and
    [cleanup], and sleeps. It generates no key, makes no CSR and asks
    for no certificate or chain, however the run ends. *)
Theorem get_authorizations_calls w account fuel domains best_effort s r s' :
  get_authorizations w account fuel domains best_effort s = Some (r, s') ->
  exists added,
    trace s' = added ++ trace s /\ Forall (fun e => handler_event e = true) added.
Proof. apply handler_only_get_authorizations. Qed.

Lemma get_authorizations_calls_witness :
  exists r s',
    get_authorizations (scenario_world STATUS_VALID) scenario_account 2
      ["example.com"%string] false (init_handler []) = Some (r, s') /\
    exists added,
      trace s' = added ++ trace (init_handler []) /\
      Forall (fun e => handler_event e = true) added.
Proof.
  eexists. eexists. split; [vm_compute; reflexivity|].
  eapply (get_authorizations_calls (scenario_world STATUS_VALID) scenario_account 2
            ["example.com"%string] false (init_handler [])).
  vm_compute. reflexivity.
Defined.

End HandlerLaws.

Module AccountLaws.
Import AccountStore.
Import AccountDirectory.
Import AccountSpec.
Import AccountNotions.
Import AccountFacts.

Lemma local_char_plain c :
  local_char c = true -> c <> "/"%char /\ c <> "@"%char /\ c <> newline.
Proof.
  destruct c as [[] [] [] [] [] [] [] []]; vm_compute; intros H;
    first [discriminate H | repeat split; discriminate].
Qed.

Lemma domain_char_plain c :
  domain_char c = true -> c <> "/"%char /\ c <> "@"%char /\ c <> newline.
Proof.
  destruct c as [[] [] [] [] [] [] [] []]; vm_compute; intros H;
    first [discriminate H | repeat split; discriminate].
Qed.

Lemma match_domain_rest_shape s :
  match_domain_rest s = true ->
  exists dm nl, chars s = dm ++ nl /\ (nl = [] \/ nl = [newline]) /\
                Forall (fun c => domain_char c = true) dm.
Proof.
  induction s as [|c s IH]; cbn [match_domain_rest].
  - intros _. exists [], []. repeat split; auto.
  - destruct (domain_char c) eqn:Hc.
    + intros H. destruct (IH H) as (dm & nl & Hs & Hnl & Hdm).
      exists (c :: dm), nl. unfold chars in *. cbn [list_ascii_of_string]. rewrite Hs.
      repeat split; auto.
    + intros H. apply andb_true_iff in H. destruct H as [H1 H2].
      apply bool_decide_eq_true in H1. apply bool_decide_eq_true in H2. subst.
      exists [], [newline]. repeat split; auto.
Qed.

Lemma match_local_rest_shape s :
  match_local_rest s = true ->
  exists loc dm nl,
    chars s = loc ++ "@"%char :: dm ++ nl /\ dm <> [] /\ (nl = [] \/ nl = [newline]) /\
    Forall (fun c => local_char c = true) loc /\
    Forall (fun c => domain_char c = true) dm.
Proof.
  induction s as [|c s IH]; cbn [match_local_rest]; [discriminate|].
  destruct (local_char c) eqn:Hc.
  - intros H. destruct (IH H) as (loc & dm & nl & Hs & Hne & Hnl & Hloc & Hdm).
    exists (c :: loc), dm, nl. unfold chars in *. cbn [list_ascii_of_string]. rewrite Hs.
    repeat split; auto.
  - intros H. apply andb_true_iff in H. destruct H as [H1 H2].
    apply bool_decide_eq_true in H1. subst c.
    destruct s as [|c' s']; cbn [match_domain] in H2; [discriminate|].
    apply andb_true_iff in H2. destruct H2 as [Hc' H2].
    destruct (match_domain_rest_shape _ H2) as (dm & nl & Hs & Hnl & Hdm).
    exists [], (c' :: dm), nl. unfold chars in *. cbn [list_ascii_of_string]. rewrite Hs.
    repeat split; auto; discriminate.
Qed.

Lemma EMAIL_REGEX_match_shape e :
  EMAIL_REGEX_match e = true ->
  exists loc dm nl,
    chars e = loc ++ "@"%char :: dm ++ nl /\ loc <> [] /\ dm <> [] /\
    (nl = [] \/ nl = [newline]) /\
    Forall (fun c => local_char c = true) loc /\
    Forall (fun c => domain_char c = true) dm.
Proof.
  destruct e as [|c s]; cbn [EMAIL_REGEX_match]; [discriminate|].
  intros H. apply andb_true_iff in H. destruct H as [Hc H].
  destruct (match_local_rest_shape _ H) as (loc & dm & nl & Hs & Hne & Hnl & Hloc & Hdm).
  exists (c :: loc), dm, nl. unfold chars in *. cbn [list_ascii_of_string]. rewrite Hs.
  repeat split; auto; discriminate.
Qed.

(** X16. An email that [safe_email] accepts is a non-empty run of
    [[a-zA-Z0-9._%+-]], an at sign and a non-empty run of
    [[a-zA-Z0-9.-]], with at most one newline after it (the [$] of
    Python's [re]); so it holds no path separator and is neither empty
    nor [default], and the account's file name is the email itself. *)
Theorem safe_email_shape e :
  safe_email e = true ->
  (exists loc dm nl,
     chars e = loc ++ "@"%char :: dm ++ nl /\ loc <> [] /\ dm <> [] /\
     (nl = [] \/ nl = [newline]) /\
     Forall (fun c => local_char c = true) loc /\
     Forall (fun c => domain_char c = true) dm) /\
  ("/"%char ∉ chars e) /\
  _get_config_filename (Some e) = e /\ e <> "default"%string.
Proof.
  intros Hsafe. pose proof Hsafe as Hre. unfold safe_email in Hre.
  destruct (EMAIL_REGEX_match e) eqn:Hmatch; [|discriminate].
  destruct (EMAIL_REGEX_match_shape e Hmatch)
    as (loc & dm & nl & Hs & Hloc0 & Hdm0 & Hnl & Hloc & Hdm).
  split; [exists loc, dm, nl; repeat split; auto|]. split; [|split].
  - rewrite Hs. intros Hin. apply elem_of_app in Hin. destruct Hin as [Hin|Hin].
    { rewrite Forall_forall in Hloc. apply Hloc in Hin. apply local_char_plain in Hin.
      destruct Hin as [Hin _]. contradiction. }
    apply elem_of_cons in Hin. destruct Hin as [Hin|Hin]; [discriminate|].
    apply elem_of_app in Hin. destruct Hin as [Hin|Hin].
    { rewrite Forall_forall in Hdm. apply Hdm in Hin. apply domain_char_plain in Hin.
      destruct Hin as [Hin _]. contradiction. }
    destruct Hnl as [->| ->]; [apply elem_of_nil in Hin; contradiction|].
    apply list_elem_of_singleton in Hin. vm_compute in Hin. discriminate.
  - unfold _get_config_filename. rewrite bool_decide_eq_false_2; [reflexivity|].
    apply safe_email_not_empty. exact Hsafe.
  - apply safe_email_not_default. exact Hsafe.
Qed.

Lemma safe_email_shape_witness :
  (exists loc dm nl,
     chars "a@b.com" = loc ++ "@"%char :: dm ++ nl /\ loc <> [] /\ dm <> [] /\
     (nl = [] \/ nl = [newline]) /\
     Forall (fun c => local_char c = true) loc /\
     Forall (fun c => domain_char c = true) dm) /\
  ("/"%char ∉ chars "a@b.com") /\
  _get_config_filename (Some "a@b.com"%string) = "a@b.com"%string /\
  "a@b.com"%string <> "default"%string.
Proof.
  apply (safe_email_shape "a@b.com"). vm_compute. reflexivity.
Defined.

Lemma append_cons c s t : (String c s) +:+ t = String c (s +:+ t).
Proof. reflexivity. Qed.

Lemma append_nil t : EmptyString +:+ t = t.
Proof. reflexivity. Qed.

Lemma contains_dotdot_cons c1 c2 s :
  contains_dotdot (String c1 (String c2 s)) =
  (bool_decide (c1 = "."%char) && bool_decide (c2 = "."%char)) ||
  contains_dotdot (String c2 s).
Proof. reflexivity. Qed.

Lemma match_domain_rest_newline s :
  match_domain_rest s = true -> newline ∉ chars s ->
  match_domain_rest (s +:+ (String newline EmptyString)) = true.
Proof.
  induction s as [|c s IH]; intros Hm Hnl.
  - vm_compute. reflexivity.
  - rewrite append_cons. cbn [match_domain_rest] in *.
    unfold chars in Hnl. cbn [list_ascii_of_string] in Hnl.
    apply not_elem_of_cons in Hnl. destruct Hnl as [Hc Hnl].
    destruct (domain_char c).
    + apply IH; assumption.
    + apply andb_true_iff in Hm. destruct Hm as [Hm _].
      apply bool_decide_eq_true in Hm. subst c. contradiction.
Qed.

Lemma match_local_rest_newline s :
  match_local_rest s = true -> newline ∉ chars s ->
  match_local_rest (s +:+ (String newline EmptyString)) = true.
Proof.
  induction s as [|c s IH]; intros Hm Hnl; [discriminate|].
  rewrite append_cons. cbn [match_local_rest] in *.
  unfold chars in Hnl. cbn [list_ascii_of_string] in Hnl.
  apply not_elem_of_cons in Hnl. destruct Hnl as [Hc Hnl].
  destruct (local_char c); [apply IH; assumption|].
  apply andb_true_iff in Hm. destruct Hm as [Hat Hm]. rewrite Hat. cbn [andb].
  destruct s as [|c' s']; [discriminate|].
  rewrite append_cons. cbn [match_domain] in *.
  apply andb_true_iff in Hm. destruct Hm as [Hc' Hm]. rewrite Hc'. cbn [andb].
  unfold chars in Hnl. cbn [list_ascii_of_string] in Hnl.
  apply not_elem_of_cons in Hnl. destruct Hnl as [_ Hnl].
  apply match_domain_rest_newline; assumption.
Qed.

Lemma contains_dotdot_newline s :
  contains_dotdot (s +:+ (String newline EmptyString)) = contains_dotdot s.
Proof.
  induction s as [|c1 s IH]; [reflexivity|].
  destruct s as [|c2 s'].
  - rewrite append_cons, append_nil, contains_dotdot_cons.
    rewrite (bool_decide_eq_false_2 (newline = "."%char)) by discriminate.
    rewrite andb_false_r. reflexivity.
  - rewrite !append_cons, !contains_dotdot_cons. rewrite <- append_cons.
    rewrite IH. reflexivity.
Qed.

(** X17. [safe_email] accepts an accepted email again with a newline
    put after it: the [$] of the pattern also matches just before a
    final newline, and the two checks on dots do not see it. *)
Theorem safe_email_trailing_newline e :
  safe_email e = true -> newline ∉ chars e ->
  safe_email (e +:+ (String newline EmptyString)) = true.
Proof.
  unfold safe_email. intros Hsafe Hnl.
  destruct (EMAIL_REGEX_match e) eqn:Hmatch; [|discriminate].
  destruct e as [|c s]; [discriminate|].
  rewrite contains_dotdot_newline. rewrite append_cons.
  cbn [EMAIL_REGEX_match startswith_dot] in *.
  apply andb_true_iff in Hmatch. destruct Hmatch as [Hc Hm]. rewrite Hc. cbn [andb].
  unfold chars in Hnl. cbn [list_ascii_of_string] in Hnl.
  apply not_elem_of_cons in Hnl. destruct Hnl as [_ Hnl].
  rewrite match_local_rest_newline by assumption. exact Hsafe.
Qed.

Lemma safe_email_trailing_newline_witness :
  safe_email ("a@b.com" +:+ (String newline EmptyString)) = true.
Proof.
  apply (safe_email_trailing_newline "a@b.com").
  - vm_compute. reflexivity.
  - apply (bool_decide_unpack (newline ∉ chars "a@b.com")). vm_compute. exact I.
Defined.

Section Directory.

Variable json : Type.
Variable to_json : Registration -> json.
Variable from_json : json -> res Registration.

(** X18. [save] writes the one file named after the account's email,
    [default] without one: the other files of the disk stay, every
    other account loads as before, and an account saved under a name
    already taken replaces what was there, whatever it was. *)
Theorem save_touches_own_file (acc : Account) (d : Disk json) :
  files json (save json to_json acc d) = files json d /\
  (forall name, name <> _get_config_filename (email acc) ->
     accounts_dir json (save json to_json acc d) !! name = accounts_dir json d !! name /\
     _from_config_fp json from_json (save json to_json acc d) name =
       _from_config_fp json from_json d name) /\
  (forall acc', _get_config_filename (email acc') = _get_config_filename (email acc) ->
     save json to_json acc (save json to_json acc' d) = save json to_json acc d).
Proof.
  split; [reflexivity|]. split.
  - intros name Hne.
    assert (Hlk : accounts_dir json (save json to_json acc d) !! name =
                  accounts_dir json d !! name).
    { unfold save. cbn [accounts_dir]. apply lookup_insert_ne. congruence. }
    split; [exact Hlk|]. unfold _from_config_fp. rewrite Hlk. reflexivity.
  - intros acc' Hname. unfold save. cbn [accounts_dir files]. rewrite Hname.
    rewrite insert_insert_eq. reflexivity.
Qed.

Lemma from_config_fp_listed (d : Disk json) name e :
  is_Some (accounts_dir json d !! name) ->
  _from_config_fp json from_json d name = Raise e ->
  load_failure from_json d name e.
Proof.
  intros [cfg Hcfg] Hload. exists cfg. split; [exact Hcfg|].
  unfold _from_config_fp in Hload. rewrite Hcfg in Hload.
  destruct (files json d !! cfg_key json cfg) as [content|]; [|left; split; congruence].
  right. destruct (cfg_RegistrationResource json cfg) as [sec|]; [|discriminate].
  exists sec. split; [reflexivity|].
  destruct (from_json (sec_body json sec)); [discriminate | congruence].
Qed.

Lemma from_config_fp_email (d : Disk json) name acc :
  _from_config_fp json from_json d name = Ret acc ->
  email acc = None \/ (email acc = Some name /\ safe_email name = true).
Proof.
  unfold _from_config_fp.
  destruct (accounts_dir json d !! name) as [cfg|]; [|discriminate].
  destruct (files json d !! cfg_key json cfg) as [content|]; [|discriminate].
  assert (Hinit : forall k ph r,
             email (Account_init k
                      (if bool_decide (name <> "default"%string) then Some name else None)
                      ph r) = None \/
             (email (Account_init k
                       (if bool_decide (name <> "default"%string) then Some name else None)
                       ph r) = Some name /\ safe_email name = true)).
  { intros k ph r. unfold Account_init. cbn [email].
    destruct (bool_decide (name <> "default"%string)); [|left; reflexivity].
    destruct (safe_email name); [right; split; reflexivity | left; reflexivity]. }
  destruct (cfg_RegistrationResource json cfg) as [sec|].
  - destruct (from_json (sec_body json sec)); [|discriminate].
    intros [= <-]. apply Hinit.
  - intros [= <-]. apply Hinit.
Qed.

Lemma accounts_loop_cases (d : Disk json) names : forall accounts,
  match accounts_loop json from_json d names accounts with
  | Ret l =>
      exists loaded,
        l = accounts ++ loaded /\
        Forall2 (fun name acc => _from_config_fp json from_json d name = Ret acc)
          names loaded
  | Raise e =>
      exists name, name ∈ names /\ _from_config_fp json from_json d name = Raise e
  end.
Proof.
  induction names as [|name rest IH]; intros accounts; cbn [accounts_loop].
  - exists []. rewrite app_nil_r. split; [reflexivity | constructor].
  - destruct (_from_config_fp json from_json d name) as [acc|e] eqn:Hload.
    + specialize (IH (accounts ++ [acc])).
      destruct (accounts_loop json from_json d rest (accounts ++ [acc])) as [l|e].
      * destruct IH as (loaded & -> & Hall). exists (acc :: loaded).
        rewrite <- app_assoc. split; [reflexivity|]. constructor; assumption.
      * destruct IH as (n & Hn & Hload'). exists n. split; [|exact Hload'].
        apply elem_of_cons. right. exact Hn.
    + exists name. split; [apply elem_of_cons; left; reflexivity | exact Hload].
Qed.

(** X19. [get_accounts] is all or nothing. When it returns, it returns
    one account for every file of the directory, each the one
    [_from_config_fp] loads from that file, and each with no email or
    with a safe email that is its file's name. When it raises, some file
    of the directory failed to load, for want of its key file or of a
    registration that parses, and no account is returned although the
    other files may be sound. *)
Theorem get_accounts_all_or_nothing (d : Disk json) :
  match get_accounts json from_json d with
  | Ret l =>
      length l = size (accounts_dir json d) /\
      Forall2 (fun name acc =>
                 _from_config_fp json from_json d name = Ret acc /\
                 (email acc = None \/ (email acc = Some name /\ safe_email name = true)))
        (fst <$> map_to_list (accounts_dir json d)) l
  | Raise e => exists name, load_failure from_json d name e
  end.
Proof.
  unfold get_accounts.
  pose proof (accounts_loop_cases d (fst <$> map_to_list (accounts_dir json d)) []) as H.
  destruct (accounts_loop json from_json d (fst <$> map_to_list (accounts_dir json d)) [])
    as [l|e].
  - destruct H as (loaded & -> & Hall). cbn [app]. split.
    + apply Forall2_length in Hall. rewrite <- Hall, length_fmap.
      apply length_map_to_list.
    + eapply Forall2_impl; [exact Hall|]. intros name acc Hload.
      split; [exact Hload|]. eapply from_config_fp_email. exact Hload.
  - destruct H as (name & Hin & Hload). exists name.
    apply from_config_fp_listed; [|exact Hload].
    apply list_elem_of_fmap in Hin. destruct Hin as ([n cfg] & -> & Hin).
    apply elem_of_map_to_list in Hin. cbn [fst]. eauto.
Qed.

End Directory.

Section Creation.

Variable init_save_key : list string -> string -> res Key.

Hypothesis init_save_key_error : forall made name e,
  init_save_key made name = Raise e -> is_LetsEncryptClientError e = false.

Lemma from_prompts_cases answers : forall made r rest made',
  from_prompts init_save_key answers made = Some (r, rest, made') ->
  exists skipped answer,
    answers = skipped ++ answer :: rest /\
    Forall asks_again skipped /\
    match r with
    | Ret None => fst answer = false /\ made' = made
    | Ret (Some acc) =>
        fst answer = true /\
        (snd answer = EmptyString \/ safe_email (snd answer) = true) /\
        email acc = entered_email (snd answer) /\
        made' = _get_config_filename (email acc) :: made
    | Raise e =>
        fst answer = true /\
        (snd answer = EmptyString \/ safe_email (snd answer) = true) /\
        init_save_key made (_get_config_filename (entered_email (snd answer))) = Raise e
    end.
Proof.
  induction answers as [|[ok em] answers IH]; intros made r rest made' Hrun;
    cbn [from_prompts] in Hrun; [discriminate|].
  destruct ok.
  2:{ injection Hrun as <- <- <-. exists [], (false, em).
      split; [reflexivity|]. split; [constructor|]. split; reflexivity. }
  unfold from_email in Hrun. fold (entered_email em) in Hrun.
  destruct (bool_decide (em = EmptyString) || safe_email em) eqn:Hok.
  - assert (Hem : em = EmptyString \/ safe_email em = true).
    { apply orb_true_iff in Hok. destruct Hok as [Hok|Hok]; [left|right; exact Hok].
      apply bool_decide_eq_true in Hok. exact Hok. }
    destruct (init_save_key made (_get_config_filename (entered_email em)))
      as [k|e] eqn:Hkey.
    + injection Hrun as <- <- <-. exists [], (true, em).
      split; [reflexivity|]. split; [constructor|]. cbn [fst snd].
      assert (Hemail : email (Account_init k (entered_email em) None None) =
                       entered_email em).
      { unfold Account_init, entered_email. cbn [email].
        destruct (bool_decide (em = EmptyString)) eqn:Hempty; [reflexivity|].
        destruct Hem as [Hem|Hem]; [subst em; discriminate Hempty | rewrite Hem; reflexivity]. }
      rewrite Hemail. auto.
    + rewrite (init_save_key_error _ _ _ Hkey) in Hrun.
      injection Hrun as <- <- <-. exists [], (true, em).
      split; [reflexivity|]. split; [constructor|]. cbn [fst snd]. auto.
  - apply orb_false_iff in Hok. destruct Hok as [Hne Hunsafe].
    apply bool_decide_eq_false in Hne. cbn [is_LetsEncryptClientError] in Hrun.
    apply IH in Hrun. destruct Hrun as (skipped & answer & -> & Hskip & Hres).
    exists ((true, em) :: skipped), answer. split; [reflexivity|].
    split; [|exact Hres]. constructor; [|exact Hskip]. repeat split; assumption.
Qed.

Lemma from_prompts_waits answers : forall made,
  Forall asks_again answers -> from_prompts init_save_key answers made = None.
Proof.
  induction answers as [|[ok em] answers IH]; intros made Hall; [reflexivity|].
  apply Forall_cons in Hall. destruct Hall as [(Hok & Hne & Hunsafe) Hall].
  cbn [fst snd] in *. subst ok. cbn [from_prompts]. unfold from_email.
  rewrite Hunsafe, bool_decide_eq_false_2 by exact Hne.
  cbn [orb is_LetsEncryptClientError]. apply IH. exact Hall.
Qed.

(** X20. With a key generator that raises no [LetsEncryptClientError],
    neither the class nor a subclass of it, [from_prompts] asks again
    exactly while the email entered is neither empty nor safe,
    generating no key for those; it ends at the first other answer:
    [None] for a cancel, else the account of the email entered, without
    email for the empty one, after one key generated under the
    account's file name, or the generator's exception. On unsafe emails
    only it asks for ever. *)
Theorem from_prompts_asks_until_valid answers made :
  (forall r rest made',
     from_prompts init_save_key answers made = Some (r, rest, made') ->
     exists skipped answer,
       answers = skipped ++ answer :: rest /\
       Forall asks_again skipped /\
       match r with
       | Ret None => fst answer = false /\ made' = made
       | Ret (Some acc) =>
           fst answer = true /\
           (snd answer = EmptyString \/ safe_email (snd answer) = true) /\
           email acc = entered_email (snd answer) /\
           made' = _get_config_filename (email acc) :: made
       | Raise e =>
           fst answer = true /\
           (snd answer = EmptyString \/ safe_email (snd answer) = true) /\
           init_save_key made (_get_config_filename (entered_email (snd answer))) = Raise e
       end) /\
  (Forall asks_again answers -> from_prompts init_save_key answers made = None).
Proof.
  split; [apply from_prompts_cases | apply from_prompts_waits].
Qed.

End Creation.

Lemma from_prompts_asks_until_valid_witness :
  (forall r rest made',
     from_prompts fresh_key [(true, "a b"%string); (true, "a@b.com"%string)] [] =
       Some (r, rest, made') ->
     exists skipped answer,
       [(true, "a b"%string); (true, "a@b.com"%string)] = skipped ++ answer :: rest /\
       Forall asks_again skipped /\
       match r with
       | Ret None => fst answer = false /\ made' = []
       | Ret (Some acc) =>
           fst answer = true /\
           (snd answer = EmptyString \/ safe_email (snd answer) = true) /\
           email acc = entered_email (snd answer) /\
           made' = [_get_config_filename (email acc)]
       | Raise e =>
           fst answer = true /\
           (snd answer = EmptyString \/ safe_email (snd answer) = true) /\
           fresh_key [] (_get_config_filename (entered_email (snd answer))) = Raise e
       end) /\
  (Forall asks_again [(true, "a b"%string); (true, "a@b.com"%string)] ->
   from_prompts fresh_key [(true, "a b"%string); (true, "a@b.com"%string)] [] = None).
Proof.
  apply (from_prompts_asks_until_valid fresh_key).
  intros made name e Hkey. discriminate Hkey.
Defined.

End AccountLaws.

Module ClientLaws.
Import Client.
Import ClientSpec.
Import ClientNotions.
Import HandlerNotions.

Lemma get_authorizations_valid w acc fuel domains best_effort s l s' :
  Handler.get_authorizations w acc fuel domains best_effort s = Some (Ret l, s') ->
  Forall (fun a => status (body a) = STATUS_VALID) l.
Proof.
  unfold Handler.get_authorizations. intros H.
  apply HandlerFacts.bind_Ret in H. destruct H as (? & s1 & _ & H).
  apply HandlerFacts.bind_Ret in H. destruct H as (? & s2 & _ & H).
  apply HandlerFacts.bind_Ret in H. destruct H as (? & s3 & _ & H).
  apply HandlerFacts.bind_Ret in H. destruct H as (? & s4 & _ & H).
  apply HandlerFacts.bind_Ret in H. destruct H as (s5 & s6 & _ & H).
  injection H as <- <-. apply HandlerLaws.Forall_filter_self.
Qed.

(** X22. A call of [obtain_certificate] that returns has, after the
    authorization run and in this order, generated one key, made one CSR
    from it for all the domains passed in, asked once for a certificate
    with that CSR and the authorizations returned, all of them valid,
    and asked for the chain only if the certificate names one; it
    returns that certificate and that key. *)
Theorem obtain_certificate_issues_once w cu fuel c domains csr cert_pem key_pem chain_pem c' :
  obtain_certificate w cu fuel c domains csr = Some (Ret (cert_pem, key_pem, chain_pem), c') ->
  exists h h1 authzrs,
    auth_handler c = Some h /\
    Handler.get_authorizations w (account c) fuel domains false h = Some (Ret authzrs, h1) /\
    Forall (fun a => status (body a) = STATUS_VALID) authzrs /\
    c' = mkClient (account c)
           (Some (mkAuthHandler (authzr h1) (dv_c h1) (cont_c h1)
                    (issuance_calls cu (trace h1) domains authzrs ++ trace h1))) /\
    key_pem = pem (init_save_key cu (trace h1)) /\
    cert_pem =
      cert_pem_of
        (request_issuance cu
           (EvInitSaveCsr (init_save_key cu (trace h1)) domains :: EvInitSaveKey :: trace h1)
           (csr_data (init_save_csr cu (EvInitSaveKey :: trace h1)
                        (init_save_key cu (trace h1)) domains))
           authzrs).
Proof.
  intros Hrun. unfold obtain_certificate in Hrun.
  destruct (auth_handler c) as [h|]; [|discriminate].
  destruct (regr (account c)); [|discriminate].
  unfold issue in Hrun. unfold bind at 1 in Hrun.
  destruct (Handler.get_authorizations w (account c) fuel domains false h)
    as [[[authzrs|e] h1]|] eqn:Hauth; [|discriminate|discriminate].
  exists h, h1, authzrs. split; [reflexivity|]. split; [exact Hauth|].
  split; [eapply get_authorizations_valid; exact Hauth|].
  cbn [bind get_state emit ret authzr dv_c cont_c trace] in Hrun.
  unfold issuance_calls.
  destruct (cert_chain_uri_of _) in Hrun |- *;
    cbn [bind get_state emit ret authzr dv_c cont_c trace] in Hrun;
    inversion Hrun; subst; repeat split; reflexivity.
Qed.

Lemma obtain_certificate_issues_once_witness :
  exists cert_pem key_pem chain_pem c',
    obtain_certificate (HandlerSpec.scenario_world STATUS_VALID) scenario_crypto 2
      scenario_client ["example.com"%string] None =
      Some (Ret (cert_pem, key_pem, chain_pem), c') /\
    exists h h1 authzrs,
      auth_handler scenario_client = Some h /\
      Handler.get_authorizations (HandlerSpec.scenario_world STATUS_VALID)
        (account scenario_client) 2 ["example.com"%string] false h =
        Some (Ret authzrs, h1) /\
      Forall (fun a => status (body a) = STATUS_VALID) authzrs /\
      c' = mkClient (account scenario_client)
             (Some (mkAuthHandler (authzr h1) (dv_c h1) (cont_c h1)
                      (issuance_calls scenario_crypto (trace h1) ["example.com"%string]
                         authzrs ++ trace h1))) /\
      key_pem = pem (init_save_key scenario_crypto (trace h1)) /\
      cert_pem =
        cert_pem_of
          (request_issuance scenario_crypto
             (EvInitSaveCsr (init_save_key scenario_crypto (trace h1))
                ["example.com"%string] :: EvInitSaveKey :: trace h1)
             (csr_data (init_save_csr scenario_crypto (EvInitSaveKey :: trace h1)
                          (init_save_key scenario_crypto (trace h1))
                          ["example.com"%string]))
             authzrs).
Proof.
  destruct (obtain_certificate (HandlerSpec.scenario_world STATUS_VALID) scenario_crypto 2
              scenario_client ["example.com"%string] None)
    as [[[[[cert_pem key_pem] chain_pem]|e] c']|] eqn:Hrun;
    [| vm_compute in Hrun; discriminate | vm_compute in Hrun; discriminate].
  exists cert_pem, key_pem, chain_pem, c'. split; [reflexivity|].
  exact (obtain_certificate_issues_once _ _ _ _ _ _ _ _ _ _ Hrun).
Defined.

(** X23. When the authorization run raises, [obtain_certificate]
    raises the same exception and stops there: the handler is left as
    the run left it, and the history has grown by calls of the handler's
    only, so no key was generated, no CSR made and no certificate asked
    for. *)
Theorem obtain_certificate_failed_authorization w cu fuel c domains csr h rr e h1 :
  auth_handler c = Some h -> regr (account c) = Some rr ->
  Handler.get_authorizations w (account c) fuel domains false h = Some (Raise e, h1) ->
  obtain_certificate w cu fuel c domains csr =
    Some (Raise e, mkClient (account c) (Some h1)) /\
  exists added,
    trace h1 = added ++ trace h /\ Forall (fun ev => handler_event ev = true) added.
Proof.
  intros Hh Hrr Hauth. split.
  - unfold obtain_certificate. rewrite Hh, Hrr. unfold issue. unfold bind at 1.
    rewrite Hauth. reflexivity.
  - eapply HandlerLaws.handler_only_get_authorizations. exact Hauth.
Qed.

Lemma obtain_certificate_failed_authorization_witness :
  exists e h1,
    Handler.get_authorizations (HandlerSpec.scenario_world STATUS_INVALID)
      (account scenario_client) 2 ["example.com"%string] false (init_handler []) =
      Some (Raise e, h1) /\
    obtain_certificate (HandlerSpec.scenario_world STATUS_INVALID) scenario_crypto 2
      scenario_client ["example.com"%string] None =
      Some (Raise e, mkClient (account scenario_client) (Some h1)) /\
    exists added,
      trace h1 = added ++ trace (init_handler []) /\
      Forall (fun ev => handler_event ev = true) added.
Proof.
  eexists. eexists. split; [vm_compute; reflexivity|].
  eapply (obtain_certificate_failed_authorization (HandlerSpec.scenario_world STATUS_INVALID)
            scenario_crypto 2 scenario_client ["example.com"%string] None (init_handler [])).
  - reflexivity.
  - reflexivity.
  - vm_compute. reflexivity.
Defined.

End ClientLaws.

Module InstallationLaws.
Import Installation.
Import InstallationNotions.

Lemma enhance_loop_run inst domains : forall tr,
  (forall tr' dom e, inst_enhance inst tr' dom "redirect" <> Enhanced_raise e) ->
  enhance_loop inst domains tr = (Ret tt, redirect_calls domains ++ tr).
Proof.
  induction domains as [|dom rest IH]; intros tr Hcaught; cbn [enhance_loop].
  - reflexivity.
  - unfold redirect_calls. rewrite fmap_cons. simpl rev. rewrite <- app_assoc. cbn [app].
    destruct (inst_enhance inst tr dom "redirect") as [| |e] eqn:Hcall.
    + apply IH. exact Hcaught.
    + apply IH. exact Hcaught.
    + exfalso. eapply Hcaught. exact Hcall.
Qed.



Section WithPaths.

Variable abspath : string -> string.

Lemma deploy_loop_run inst cert_path privkey_path chain_path domains : forall tr,
  (forall tr' dom, dom ∈ domains ->
     inst_deploy_cert inst tr' dom cert_path privkey_path chain_path = Ret tt) ->
  deploy_loop inst domains cert_path privkey_path chain_path tr =
  (Ret tt, deploy_calls domains cert_path privkey_path chain_path ++ tr).
Proof.
  induction domains as [|dom rest IH]; intros tr Hok; cbn [deploy_loop].
  - reflexivity.
  - unfold and_then, call. rewrite Hok by (apply elem_of_cons; auto).
    rewrite IH by (intros tr' d Hd; apply Hok; apply elem_of_cons; auto).
    unfold deploy_calls. rewrite fmap_cons. simpl rev. rewrite <- app_assoc. reflexivity.
Qed.

Lemma deploy_loop_failure inst cert_path privkey_path chain_path before dom after e :
  forall tr,
    (forall tr' d, d ∈ before ->
       inst_deploy_cert inst tr' d cert_path privkey_path chain_path = Ret tt) ->
    inst_deploy_cert inst (deploy_calls before cert_path privkey_path chain_path ++ tr)
      dom cert_path privkey_path chain_path = Raise e ->
    deploy_loop inst (before ++ dom :: after) cert_path privkey_path chain_path tr =
    (Raise e,
     EvDeployCert dom cert_path privkey_path chain_path ::
       deploy_calls before cert_path privkey_path chain_path ++ tr).
Proof.
  induction before as [|b before IH]; intros tr Hok Hfail; cbn [app deploy_loop].
  - unfold and_then, call. cbn [deploy_calls fmap list_fmap rev app] in *.
    rewrite Hfail. reflexivity.
  - unfold and_then, call. rewrite Hok by (apply elem_of_cons; auto).
    unfold deploy_calls in *. rewrite fmap_cons in *. simpl rev in *.
    rewrite <- app_assoc in *. cbn [app] in *.
    apply IH; [|exact Hfail]. intros tr' d Hd. apply Hok. apply elem_of_cons. auto.
Qed.

(** X25. The first [deploy_cert] that raises ends [deploy_certificate]
    with its exception: the domains before it have been deployed, each
    with the absolute paths, the domains after it are not tried, and
    nothing is saved, restarted or reported. *)
Theorem deploy_certificate_stops_at_failure inst before dom after
    privkey_path cert_path chain_path e tr :
  (forall tr' d, d ∈ before ->
     inst_deploy_cert inst tr' d (abspath cert_path) (abspath privkey_path)
       (abspath <$> chain_path) = Ret tt) ->
  inst_deploy_cert inst
    (deploy_calls before (abspath cert_path) (abspath privkey_path)
       (abspath <$> chain_path) ++ tr)
    dom (abspath cert_path) (abspath privkey_path) (abspath <$> chain_path) = Raise e ->
  deploy_certificate abspath (Some inst) (before ++ dom :: after)
    privkey_path cert_path chain_path tr =
  (Raise e,
   EvDeployCert dom (abspath cert_path) (abspath privkey_path) (abspath <$> chain_path) ::
     deploy_calls before (abspath cert_path) (abspath privkey_path)
       (abspath <$> chain_path) ++ tr).
Proof.
  intros Hok Hfail. unfold deploy_certificate. unfold and_then at 1.
  rewrite (deploy_loop_failure inst _ _ _ before dom after e tr Hok Hfail). reflexivity.
Qed.

(** X26. When every [deploy_cert] returns, [deploy_certificate] has
    deployed to each domain once and in order, then saved; it restarts
    unless the save raised and reports success unless the restart
    raised, whatever the two return. *)
Theorem deploy_certificate_saves_after_all inst domains privkey_path cert_path chain_path tr :
  (forall tr' d, d ∈ domains ->
     inst_deploy_cert inst tr' d (abspath cert_path) (abspath privkey_path)
       (abspath <$> chain_path) = Ret tt) ->
  let deployed :=
    deploy_calls domains (abspath cert_path) (abspath privkey_path)
      (abspath <$> chain_path) ++ tr in
  deploy_certificate abspath (Some inst) domains privkey_path cert_path chain_path tr =
  match inst_save inst deployed deployed_title with
  | Raise e => (Raise e, EvSave deployed_title :: deployed)
  | Ret _ =>
      match inst_restart inst (EvSave deployed_title :: deployed) with
      | Raise e => (Raise e, EvRestart :: EvSave deployed_title :: deployed)
      | Ret _ =>
          (Ret tt,
           EvSuccessInstallation domains :: EvRestart :: EvSave deployed_title :: deployed)
      end
  end.
Proof.
  intros Hok deployed. unfold deploy_certificate. unfold and_then at 1.
  rewrite (deploy_loop_run inst _ _ _ domains tr Hok). fold deployed.
  unfold and_then, call.
  destruct (inst_save inst deployed deployed_title); [|reflexivity].
  destruct (inst_restart inst (EvSave deployed_title :: deployed)); reflexivity.
Qed.

End WithPaths.

Lemma deploy_certificate_stops_at_failure_witness :
  deploy_certificate plain_abspath (Some failing_installer)
    (["a.test"%string] ++ "b.test"%string :: ["c.test"%string])
    "key.pem" "cert.pem" None [] =
  (Raise IOError,
   EvDeployCert "b.test" (plain_abspath "cert.pem") (plain_abspath "key.pem")
     (plain_abspath <$> None) ::
     deploy_calls ["a.test"%string] (plain_abspath "cert.pem") (plain_abspath "key.pem")
       (plain_abspath <$> None) ++ []).
Proof.
  apply (deploy_certificate_stops_at_failure plain_abspath failing_installer
           ["a.test"%string] "b.test" ["c.test"%string] "key.pem" "cert.pem" None IOError []).
  - intros tr' d Hd. apply list_elem_of_singleton in Hd. subst d. reflexivity.
  - reflexivity.
Defined.

Lemma deploy_certificate_saves_after_all_witness :
  deploy_certificate plain_abspath (Some no_redirect_installer) ["a.test"; "b.test"]%string
    "key.pem" "cert.pem" (Some "chain.pem"%string) [] =
  (Ret tt,
   [EvSuccessInstallation ["a.test"; "b.test"]%string; EvRestart; EvSave deployed_title;
    EvDeployCert "b.test" "/cwd/cert.pem" "/cwd/key.pem" (Some "/cwd/chain.pem"%string);
    EvDeployCert "a.test" "/cwd/cert.pem" "/cwd/key.pem" (Some "/cwd/chain.pem"%string)]).
Proof.
  apply (deploy_certificate_saves_after_all plain_abspath no_redirect_installer
           ["a.test"; "b.test"]%string "key.pem" "cert.pem" (Some "chain.pem"%string) []).
  intros tr' d Hd. reflexivity.
Defined.

End InstallationLaws.

Module EnrollmentLaws.
Import AccountStore.
Import Enrollment.
Import EnrollmentNotions.
Import AccountSpec.

Section Register.

Variable json : Type.
Variable to_json : Registration -> json.
Variable register_from_account : Account -> res Account.
Variable agree_to_tos : option RegistrationResource -> res RegistrationResource.

(** X27. When the server's registration carries terms and the user
    declines them, [register] raises and saves nothing; but the client's
    account is by then the registered one, with a registration
    resource, so that a later [obtain_certificate] passes its check for
    a registration and goes on to request authorizations. *)
Theorem register_declined_terms (acc acc1 : Account) (d : Disk json) t :
  register_from_account acc = Ret acc1 ->
  terms_of_service acc1 = Some t ->
  register json to_json register_from_account agree_to_tos false false acc d =
    (Raise (LetsEncryptClientError must_agree_msg), acc1, d) /\
  is_Some (regr acc1) /\
  (forall w cu fuel h domains csr,
     Client.obtain_certificate w cu fuel (Client.mkClient acc1 (Some h)) domains csr =
     match Client.issue w cu fuel acc1 domains csr h with
     | None => None
     | Some (r, h') => Some (r, Client.mkClient acc1 (Some h'))
     end).
Proof.
  intros Hreg Hterms. split; [|split].
  - unfold register. rewrite Hreg, Hterms. reflexivity.
  - unfold terms_of_service in Hterms. destruct (regr acc1); [eauto | discriminate].
  - intros w cu fuel h domains csr. unfold Client.obtain_certificate.
    cbn [Client.auth_handler Client.account].
    unfold terms_of_service in Hterms. destruct (regr acc1); [reflexivity | discriminate].
Qed.

(** X28. [register] saves the account before it reports: a call that
    returns has saved the account it leaves in the client, which has a
    recovery token; a call that raises has left the disk alone, unless
    it is the [AssertionError] for a registration without recovery
    token, which comes after the account is saved. *)
Theorem register_saves_then_reports yesno tos (acc acc' : Account) (d d' : Disk json) r :
  register json to_json register_from_account agree_to_tos yesno tos acc d = (r, acc', d') ->
  match r with
  | Ret _ => d' = save json to_json acc' d /\ is_Some (recovery_token_of acc')
  | Raise e =>
      d' = d \/
      (e = AssertionError /\ d' = save json to_json acc' d /\ recovery_token_of acc' = None)
  end.
Proof.
  assert (Hfinish : forall a,
            save_and_report json to_json a d = (r, acc', d') ->
            match r with
            | Ret _ => d' = save json to_json acc' d /\ is_Some (recovery_token_of acc')
            | Raise e =>
                d' = d \/
                (e = AssertionError /\ d' = save json to_json acc' d /\
                 recovery_token_of acc' = None)
            end).
  { intros a. unfold save_and_report.
    destruct (recovery_token_of a) as [tok|] eqn:Htok; intros [= <- <- <-].
    - split; [reflexivity|]. rewrite Htok. eauto.
    - right. auto. }
  unfold register.
  destruct (register_from_account acc) as [acc1|e]; [|intros [= <- <- <-]; left; reflexivity].
  destruct (terms_of_service acc1); [|apply Hfinish].
  destruct (if negb tos then yesno else true);
    [|intros [= <- <- <-]; left; reflexivity].
  destruct (agree_to_tos (regr acc1)) as [r'|e];
    [apply Hfinish | intros [= <- <- <-]; left; reflexivity].
Qed.

End Register.

Lemma register_declined_terms_witness :
  register Registration (fun b => b) (fun _ => Ret stored_account) (fun _ => Raise IOError)
    false false (mkAccount scenario_key (Some "a@b.com"%string) None None) plain_disk =
    (Raise (LetsEncryptClientError must_agree_msg), stored_account, plain_disk) /\
  is_Some (regr stored_account) /\
  (forall w cu fuel h domains csr,
     Client.obtain_certificate w cu fuel (Client.mkClient stored_account (Some h)) domains csr =
     match Client.issue w cu fuel stored_account domains csr h with
     | None => None
     | Some (r, h') => Some (r, Client.mkClient stored_account (Some h'))
     end).
Proof.
  apply (register_declined_terms Registration (fun b => b) (fun _ => Ret stored_account)
           (fun _ => Raise IOError)
           (mkAccount scenario_key (Some "a@b.com"%string) None None) stored_account
           plain_disk "tos").
  - reflexivity.
  - reflexivity.
Defined.

Lemma register_saves_then_reports_witness :
  register Registration (fun b => b) (fun _ => Ret stored_account)
    (fun _ => Ret scenario_regr) true true
    (mkAccount scenario_key (Some "a@b.com"%string) None None) plain_disk =
    (Raise AssertionError, stored_account, plain_save stored_account plain_disk) /\
  (plain_save stored_account plain_disk = plain_disk \/
   (AssertionError = AssertionError /\
    plain_save stored_account plain_disk =
      save Registration (fun b => b) stored_account plain_disk /\
    recovery_token_of stored_account = None)).
Proof.
  split; [reflexivity|].
  apply (register_saves_then_reports Registration (fun b => b) (fun _ => Ret stored_account)
           (fun _ => Ret scenario_regr) true true
           (mkAccount scenario_key (Some "a@b.com"%string) None None) stored_account
           plain_disk (plain_save stored_account plain_disk) (Raise AssertionError)).
  reflexivity.
Defined.

End EnrollmentLaws.

Module NginxLaws.
Import NginxConfigurator.
Import NginxNotions.
Import Installation.
Import InstallationNotions.

Lemma elem_of_insert_by_rank m l x : x ∈ insert_by_rank m l <-> x = m \/ x ∈ l.
Proof.
  induction l as [|y l IH]; cbn [insert_by_rank].
  - rewrite list_elem_of_singleton. rewrite elem_of_nil. tauto.
  - destruct (m_rank m <=? m_rank y).
    + rewrite elem_of_cons. tauto.
    + rewrite !elem_of_cons, IH. tauto.
Qed.

Lemma least_first_insert m l : least_first l -> least_first (insert_by_rank m l).
Proof.
  destruct l as [|h t]; cbn [insert_by_rank least_first].
  - intros _ x Hx. apply elem_of_nil in Hx. contradiction.
  - intros Hleast. destruct (m_rank m <=? m_rank h) eqn:Hle.
    + apply Z.leb_le in Hle. intros x Hx. apply elem_of_cons in Hx.
      destruct Hx as [->|Hx]; [exact Hle|]. specialize (Hleast x Hx). lia.
    + apply Z.leb_gt in Hle. intros x Hx. apply elem_of_insert_by_rank in Hx.
      destruct Hx as [->|Hx]; [lia | apply Hleast; exact Hx].
Qed.

Lemma least_first_sorted l : least_first (sorted_by_rank l).
Proof.
  induction l as [|m l IH]; [exact I|]. cbn [sorted_by_rank foldr].
  apply least_first_insert. exact IH.
Qed.

Lemma elem_of_sorted_by_rank l x : x ∈ sorted_by_rank l <-> x ∈ l.
Proof.
  induction l as [|m l IH]; [reflexivity|]. cbn [sorted_by_rank foldr].
  rewrite elem_of_insert_by_rank, elem_of_cons. fold (sorted_by_rank l). rewrite IH. tauto.
Qed.

Lemma filter_insert_by_rank r m l :
  filter (fun x => m_rank x = r) (insert_by_rank m l) =
  filter (fun x => m_rank x = r) (m :: l).
Proof.
  induction l as [|y l IH]; cbn [insert_by_rank]; [reflexivity|].
  destruct (m_rank m <=? m_rank y) eqn:Hle; [reflexivity|].
  apply Z.leb_gt in Hle. rewrite filter_cons, IH, !filter_cons.
  destruct (decide (m_rank y = r)), (decide (m_rank m = r)); try reflexivity. lia.
Qed.

Lemma filter_sorted_by_rank r l :
  filter (fun x => m_rank x = r) (sorted_by_rank l) = filter (fun x => m_rank x = r) l.
Proof.
  induction l as [|m l IH]; [reflexivity|]. cbn [sorted_by_rank foldr].
  rewrite filter_insert_by_rank. fold (sorted_by_rank l).
  rewrite !filter_cons, IH. reflexivity.
Qed.

Lemma filter_app_cons_inv {A : Type} (P : A -> Prop) `{forall x, Decision (P x)}
    (l : list A) : forall g1 m g2,
  filter P l = g1 ++ m :: g2 ->
  exists l1 l2, l = l1 ++ m :: l2 /\ filter P l1 = g1 /\ filter P l2 = g2.
Proof.
  induction l as [|y l IH]; intros g1 m g2 Hf.
  - destruct g1; discriminate.
  - rewrite filter_cons in Hf. destruct (decide (P y)) as [Hy|Hy].
    + destruct g1 as [|g g1]; cbn [app] in Hf.
      * injection Hf as -> Hf. exists [], l. split; [reflexivity|].
        split; [reflexivity | exact Hf].
      * injection Hf as -> Hf. destruct (IH _ _ _ Hf) as (l1 & l2 & -> & H1 & H2).
        exists (g :: l1), l2. split; [reflexivity|]. split; [|exact H2].
        rewrite filter_cons, decide_True by exact Hy. rewrite H1. reflexivity.
    + destruct (IH _ _ _ Hf) as (l1 & l2 & -> & H1 & H2).
      exists (y :: l1), l2. split; [reflexivity|]. split; [|exact H2].
      rewrite filter_cons, decide_False by exact Hy. exact H1.
Qed.

Lemma max_by_len_scan l : forall pre best mid,
  (forall x, x ∈ pre -> (name_length x < name_length best)%nat) ->
  (forall x, x ∈ mid -> (name_length x <= name_length best)%nat) ->
  exists g1 g2,
    pre ++ best :: mid ++ l = g1 ++ max_by_len best l :: g2 /\
    (forall x, x ∈ g1 -> (name_length x < name_length (max_by_len best l))%nat) /\
    (forall x, x ∈ g2 -> (name_length x <= name_length (max_by_len best l))%nat).
Proof.
  induction l as [|y l IH]; intros pre best mid Hpre Hmid; cbn [max_by_len].
  - exists pre, mid. rewrite app_nil_r. auto.
  - fold (name_length best). fold (name_length y).
    destruct (name_length best <? name_length y)%nat eqn:Hlt.
    + apply Nat.ltb_lt in Hlt.
      destruct (IH (pre ++ best :: mid) y []) as (g1 & g2 & Heq & H1 & H2).
      * intros x Hx. apply elem_of_app in Hx. destruct Hx as [Hx|Hx].
        { specialize (Hpre x Hx). lia. }
        apply elem_of_cons in Hx. destruct Hx as [->|Hx]; [exact Hlt|].
        specialize (Hmid x Hx). lia.
      * intros x Hx. apply elem_of_nil in Hx. contradiction.
      * exists g1, g2. split; [|auto]. rewrite <- Heq. cbn [app].
        rewrite <- app_assoc. reflexivity.
    + apply Nat.ltb_ge in Hlt.
      destruct (IH pre best (mid ++ [y])) as (g1 & g2 & Heq & H1 & H2).
      * exact Hpre.
      * intros x Hx. apply elem_of_app in Hx. destruct Hx as [Hx|Hx]; [auto|].
        apply list_elem_of_singleton in Hx. subst x. exact Hlt.
      * exists g1, g2. split; [|auto]. rewrite <- Heq, <- app_assoc. reflexivity.
Qed.

Lemma choose_match_first_best ms :
  match choose_match (sorted_by_rank ms) with
  | None => ms = []
  | Some m => first_best ms m
  end.
Proof.
  pose proof (least_first_sorted ms) as Hleast.
  unfold choose_match.
  destruct (sorted_by_rank ms) as [|h t] eqn:Hsorted.
  - destruct ms as [|m ms]; [reflexivity|]. exfalso.
    assert (Hin : m ∈ sorted_by_rank (m :: ms)).
    { apply elem_of_sorted_by_rank. apply elem_of_cons. auto. }
    rewrite Hsorted in Hin. apply elem_of_nil in Hin. exact Hin.
  - rewrite <- Hsorted, filter_sorted_by_rank.
    assert (Hmin : forall x, x ∈ ms -> m_rank h <= m_rank x).
    { intros x Hx. apply elem_of_sorted_by_rank in Hx. rewrite Hsorted in Hx.
      apply elem_of_cons in Hx. destruct Hx as [->|Hx]; [lia|].
      cbn [least_first] in Hleast. apply Hleast. exact Hx. }
    assert (Hgroup : filter (fun x => m_rank x = m_rank h) ms =
                     h :: filter (fun x => m_rank x = m_rank h) t).
    { rewrite <- filter_sorted_by_rank, Hsorted, filter_cons.
      rewrite decide_True by reflexivity. reflexivity. }
    rewrite Hgroup.
    destruct ((2 <=? m_rank h) && (m_rank h <? 6)) eqn:Hwild.
    + apply andb_true_iff in Hwild. destruct Hwild as [Hlo Hhi].
      apply Z.leb_le in Hlo. apply Z.ltb_lt in Hhi.
      set (group := filter (fun x => m_rank x = m_rank h) t) in *.
      destruct (max_by_len_scan group [] h []) as (g1 & g2 & Heq & H1 & H2).
      { intros x Hx. apply elem_of_nil in Hx. contradiction. }
      { intros x Hx. apply elem_of_nil in Hx. contradiction. }
      cbn [app] in Heq. rewrite <- Hgroup in Heq.
      destruct (filter_app_cons_inv _ ms _ _ _ Heq) as (l1 & l2 & Hms & Hl1 & Hl2).
      assert (Hrank : m_rank (max_by_len h group) = m_rank h).
      { assert (Hin : max_by_len h group ∈ filter (fun x => m_rank x = m_rank h) ms).
        { rewrite Heq. apply elem_of_app. right. apply elem_of_cons. auto. }
        apply list_elem_of_filter in Hin. tauto. }
      exists l1, l2. rewrite Hrank. split; [exact Hms|]. split; [exact Hmin|]. split.
      * intros _. split.
        -- intros x Hx Hr. apply H1. rewrite <- Hl1. apply list_elem_of_filter. auto.
        -- intros x Hx Hr. apply H2. rewrite <- Hl2. apply list_elem_of_filter. auto.
      * intros Hnot. exfalso. apply Hnot. unfold wildcard_rank. lia.
    + assert (Hnot : ~ wildcard_rank (m_rank h)).
      { unfold wildcard_rank. intros [Hlo Hhi].
        apply andb_false_iff in Hwild. destruct Hwild as [Hw|Hw].
        - apply Z.leb_gt in Hw. lia.
        - apply Z.ltb_ge in Hw. lia. }
      change (h :: filter (fun x => m_rank x = m_rank h) t)
        with ([] ++ h :: filter (fun x => m_rank x = m_rank h) t) in Hgroup.
      destruct (filter_app_cons_inv _ ms _ _ _ Hgroup) as (l1 & l2 & Hms & Hl1 & Hl2).
      exists l1, l2. split; [exact Hms|]. split; [exact Hmin|]. split.
      * intros Hw. contradiction.
      * intros _ x Hx.
        assert (Hne : m_rank x <> m_rank h).
        { intros Hr. assert (Hin : x ∈ filter (fun x => m_rank x = m_rank h) l1)
            by (apply list_elem_of_filter; auto).
          rewrite Hl1 in Hin. apply elem_of_nil in Hin. exact Hin. }
        assert (Hle : m_rank h <= m_rank x).
        { apply Hmin. rewrite Hms. apply elem_of_app. auto. }
        lia.
Qed.

Section WithParser.

Variable get_best_match : string -> list string -> option (name_type * string).

(** X29. [choose_vhost] adds a new server block exactly when no
    virtual host matches the name. Otherwise the server it takes is of
    the least rank among the matches, so an SSL server goes before any
    other of its kind of match; among wildcard matches of that rank it
    is the first, in the order of the virtual hosts, of those with the
    longest matching name, and among exact or regex matches the first of
    that rank. *)
Theorem choose_vhost_first_best target_name vhosts :
  match choose_match (_get_ranked_matches get_best_match target_name vhosts) with
  | None => matches_loop get_best_match target_name vhosts = []
  | Some m => first_best (matches_loop get_best_match target_name vhosts) m
  end.
Proof. unfold _get_ranked_matches. apply choose_match_first_best. Qed.

End WithParser.

(** With a non-SSL server for [*.w.example.com] listed before SSL
    servers for [*.com] and for [*.example.com], an SSL one is taken,
    though its name is the shorter match, and of the two the one with
    the longer name. *)
Example choose_vhost_prefers_ssl :
  m_vhost <$>
    choose_match (_get_ranked_matches suffix_match "www.w.example.com" example_vhosts) =
  Some (mkVirtualHost "c.conf" true ["*.example.com"%string]).
Proof. vm_compute. reflexivity. Qed.

(** X30. With the nginx configurator as installer nothing is ever
    redirected: its [enhance] finds no function for any enhancement and
    fails with [LetsEncryptConfiguratorError] before it chooses a
    virtual host, and [redirect_to_ssl], which takes that for done,
    tries every domain, saves under the title for added redirects and
    restarts the server all the same. *)
Theorem nginx_redirects_nothing choose_vhost deploy save restart domains tr :
  (forall tr' domain enhancement,
     inst_enhance (nginx_installer choose_vhost deploy save restart) tr' domain enhancement =
     Enhanced_configurator_error) /\
  redirect_to_ssl (nginx_installer choose_vhost deploy save restart) domains tr =
  match save (redirect_calls domains ++ tr) redirects_title with
  | Raise e => (Raise e, EvSave redirects_title :: redirect_calls domains ++ tr)
  | Ret _ =>
      (restart (EvSave redirects_title :: redirect_calls domains ++ tr),
       EvRestart :: EvSave redirects_title :: redirect_calls domains ++ tr)
  end.
Proof.
  assert (Henh : forall tr' domain enhancement,
             inst_enhance (nginx_installer choose_vhost deploy save restart) tr' domain
               enhancement = Enhanced_configurator_error).
  { intros tr' domain enhancement. cbn [nginx_installer inst_enhance].
    unfold enhance, initial_enhance_func. rewrite lookup_empty. reflexivity. }
  split; [exact Henh|].
  unfold redirect_to_ssl, and_then.
  rewrite InstallationLaws.enhance_loop_run
    by (intros tr' dom e; rewrite Henh; discriminate).
  unfold call. cbn [nginx_installer inst_save inst_restart].
  destruct (save (redirect_calls domains ++ tr) redirects_title); reflexivity.
Qed.

End NginxLaws.
